(** * Replacement policies of the Cache library: LRU, LRU-K, LFU with aging, ARC

    A shallow embedding of [LRUCache.h], [LFUCache.h] and [ARCCache/*.h].

    Representation shared by all policies.
    - A [std::shared_ptr] to a node is a handle ([NodePtr], a natural number)
      into a store of node records; [make_shared] allocates the next handle.
      Two containers that hold the same pointer hold the same handle, so the
      aliasing between the key index and the linked lists is kept.
    - A doubly linked list delimited by two sentinel nodes is the sequence of
      the handles linked strictly between the sentinels, head side first.
      Unlinking a node through its [prev_]/[next_] pointers takes it out of
      whichever sequence links it.
    - [int] is [Z]; a comparison or a division that mixes [int] with [size_t]
      converts the [int] operand modulo [2^64], which is written out, as is
      the wrap-around of [size_t] counters.  The increments and decrements
      of the [int] counters ([freq], [minFreq_], [curTotalNum_], the history
      count of [LRUKCache]) are those of [Z], and signed overflow is outside
      the model: the model is the code as long as these counters stay
      within [int], which they do in every workload of fewer than
      [2^31 - 1] operations (for [LFUCache], with a [maxAverageNum] that is
      not negative).
    - Dereferencing a null bucket pointer or walking past a sentinel is
      undefined behaviour; such a path yields [None].
    - The mutex only serialises whole operations and is not modelled. *)

From Stdlib Require Import ZArith Lia.
From stdpp Require Import gmap strings list fin_maps.

Local Open Scope Z_scope.

(** Handles of heap nodes. *)
Abbreviation NodePtr := nat (only parsing).

(** [Key()] / [Value()] / [Value value{}]: the value-initialised object. *)
Class DefaultCtor (A : Type) := default_ctor : A.
#[export] Instance Z_DefaultCtor : DefaultCtor Z := 0.
#[export] Instance nat_DefaultCtor : DefaultCtor nat := 0%nat.
#[export] Instance string_DefaultCtor : DefaultCtor string := EmptyString.

(** Conversion of an [int] to [size_t] on an LP64 target. *)
Definition to_size_t (z : Z) : Z := z mod 2 ^ 64.

(** Conversion of a [size_t] to [int]. *)
Definition to_int (z : Z) : Z := (z + 2 ^ 31) mod 2 ^ 32 - 2 ^ 31.

(** [INT8_MAX] of <cstdint>. *)
Definition INT8_MAX : Z := 127.

(** Unlink a handle from a sequence of linked handles. *)
Definition unlink (p : NodePtr) (l : list NodePtr) : list NodePtr :=
  filter (λ q, q ≠ p) l.

(** The most recent distinct elements of a trace given most recent first:
    every element is kept at its first (most recent) occurrence. *)
Fixpoint distinct_recent {A} `{EqDecision A} (tr : list A) : list A :=
  match tr with
  | [] => []
  | k :: t => k :: filter (λ x, x ≠ k) (distinct_recent t)
  end.

(** The last [n] distinct elements of a chronological trace. *)
Definition last_distinct {A} `{EqDecision A} (n : nat) (trace : list A) : list A :=
  take n (distinct_recent (reverse trace)).

(** [g 0 + ... + g (n - 1)]. *)
Fixpoint sum_upto (g : nat → Z) (n : nat) : Z :=
  match n with
  | O => 0
  | S n' => sum_upto g n' + g n'
  end.

(* ================================================================== *)
(** * LRUCache.h : LRUCache *)

Module LRU.
Section LRU.
Context {Key Value : Type} `{Countable Key}.
Context `{DefaultCtor Key} `{DefaultCtor Value}.

Record LRUNode := mkLRUNode {
  key_ : Key;
  value_ : Value;
  accessCount_ : Z
}.

(** [LRUNode(Key key, Value value)] *)
Definition LRUNode_new (key : Key) (value : Value) : LRUNode :=
  mkLRUNode key value 1.

(** [capacity_], [nodeMap_] as in the class; [chain] is the list between
    [dummyHead_] and [dummyTail_]; [nodes] is the store of allocated nodes. *)
Record LRUCache := mkLRUCache {
  capacity_ : Z;
  nodeMap_ : gmap Key NodePtr;
  chain : list NodePtr;
  nodes : list LRUNode
}.

Definition node_at (s : LRUCache) (p : NodePtr) : LRUNode :=
  default (LRUNode_new default_ctor default_ctor) (nodes s !! p).

(** [LRUCache(int capacity)] with [initializeList]. *)
Definition LRUCache_new (capacity : Z) : LRUCache :=
  mkLRUCache capacity ∅ [] [].

Definition setValue (p : NodePtr) (value : Value) (s : LRUCache) : LRUCache :=
  let n := node_at s p in
  mkLRUCache (capacity_ s) (nodeMap_ s) (chain s)
    (<[p := mkLRUNode (key_ n) value (accessCount_ n)]> (nodes s)).

Definition removeNode (p : NodePtr) (s : LRUCache) : LRUCache :=
  mkLRUCache (capacity_ s) (nodeMap_ s) (unlink p (chain s)) (nodes s).

(** Insertion just before [dummyTail_]. *)
Definition insertNode (p : NodePtr) (s : LRUCache) : LRUCache :=
  mkLRUCache (capacity_ s) (nodeMap_ s) (chain s ++ [p]) (nodes s).

Definition moveToMostRecent (p : NodePtr) (s : LRUCache) : LRUCache :=
  insertNode p (removeNode p s).

Definition updateExistingNode (p : NodePtr) (value : Value) (s : LRUCache)
  : LRUCache :=
  moveToMostRecent p (setValue p value s).

(** [dummyHead_->next_] is [dummyTail_] on an empty list, and unlinking
    the tail sentinel dereferences its null [next_]. *)
Definition evictLeastRecent (s : LRUCache) : option LRUCache :=
  match chain s with
  | [] => None
  | leastRecent :: _ =>
      let s1 := removeNode leastRecent s in
      Some (mkLRUCache (capacity_ s1)
              (delete (key_ (node_at s1 leastRecent)) (nodeMap_ s1))
              (chain s1) (nodes s1))
  end.

Definition addNewNode (key : Key) (value : Value) (s : LRUCache)
  : option LRUCache :=
  s1 ← (if decide (to_size_t (capacity_ s) ≤ Z.of_nat (size (nodeMap_ s)))
        then evictLeastRecent s else Some s);
  let newNode := length (nodes s1) in
  let s2 := mkLRUCache (capacity_ s1) (nodeMap_ s1) (chain s1)
              (nodes s1 ++ [LRUNode_new key value]) in
  let s3 := insertNode newNode s2 in
  Some (mkLRUCache (capacity_ s3) (<[key := newNode]> (nodeMap_ s3))
          (chain s3) (nodes s3)).

Definition put (key : Key) (value : Value) (s : LRUCache) : option LRUCache :=
  if decide (capacity_ s ≤ 0) then Some s
  else match nodeMap_ s !! key with
       | Some p => Some (updateExistingNode p value s)
       | None => addNewNode key value s
       end.

(** [bool get(Key key, Value &value)]: the result carries the returned
    flag and the content of the out-parameter afterwards. *)
Definition get_ref (key : Key) (value : Value) (s : LRUCache)
  : bool * Value * LRUCache :=
  match nodeMap_ s !! key with
  | Some p =>
      let s1 := moveToMostRecent p s in
      (true, value_ (node_at s1 p), s1)
  | None => (false, value, s)
  end.

(** [Value get(Key key)] *)
Definition get (key : Key) (s : LRUCache) : Value * LRUCache :=
  let '(_, value, s1) := get_ref key default_ctor s in (value, s1).

Definition remove (key : Key) (s : LRUCache) : LRUCache :=
  match nodeMap_ s !! key with
  | Some p =>
      let s1 := removeNode p s in
      mkLRUCache (capacity_ s1) (delete key (nodeMap_ s1)) (chain s1) (nodes s1)
  | None => s
  end.

(** Keys of the linked nodes, least recently used first. *)
Definition chain_keys (s : LRUCache) : list Key :=
  (λ p, key_ (node_at s p)) <$> chain s.

(** Workloads of [put] and [get]. *)
Inductive op := Put (key : Key) (value : Value) | Get (key : Key).

(** One operation; the second component is the key the operation touched
    (every [put], and a [get] that hits). *)
Definition exec (o : op) (s : LRUCache) : option (LRUCache * list Key) :=
  match o with
  | Put k v => s1 ← put k v s; Some (s1, [k])
  | Get k =>
      let '(hit, _, s1) := get_ref k default_ctor s in
      Some (s1, if hit then [k] else [])
  end.

(** A workload from a state, with the chronological trace of touched keys. *)
Fixpoint run (ops : list op) (s : LRUCache) : option (LRUCache * list Key) :=
  match ops with
  | [] => Some (s, [])
  | o :: rest =>
      '(s1, t1) ← exec o s;
      '(s2, t2) ← run rest s1;
      Some (s2, t1 ++ t2)
  end.

(** Representation invariant: the index and the linked list hold the same
    nodes, every linked node under its own key. *)
Record LRUwf (s : LRUCache) : Prop := mkLRUwf {
  wf_nodup : NoDup (chain s);
  wf_map : ∀ k p,
    nodeMap_ s !! k = Some p ↔ p ∈ chain s ∧ key_ (node_at s p) = k;
  wf_alloc : ∀ p, p ∈ chain s → (p < length (nodes s))%nat;
  wf_size : size (nodeMap_ s) = length (chain s)
}.

(** A well-formed cache of capacity [C] whose touched keys so far are [tr],
    most recent first: the list holds the [C] most recent distinct keys,
    least recent at the head. *)
Definition LRUInv (C : Z) (tr : list Key) (s : LRUCache) : Prop :=
  capacity_ s = C ∧ LRUwf s ∧
  chain_keys s = reverse (take (Z.to_nat C) (distinct_recent tr)).

(** Workloads on the whole public interface, [remove] included.  A
    [get] reports the returned flag and the content of its out-parameter,
    which holds [Value{}] before the call. *)
Inductive request :=
  | ReqPut (key : Key) (value : Value)
  | ReqGet (key : Key)
  | ReqRemove (key : Key).

Definition serve (r : request) (s : LRUCache)
  : option (LRUCache * option (bool * Value)) :=
  match r with
  | ReqPut k v => s1 ← put k v s; Some (s1, None)
  | ReqGet k => let '(hit, v, s1) := get_ref k default_ctor s in
                Some (s1, Some (hit, v))
  | ReqRemove k => Some (remove k s, None)
  end.

Fixpoint serve_all (rs : list request) (s : LRUCache)
  : option (LRUCache * list (option (bool * Value))) :=
  match rs with
  | [] => Some (s, [])
  | r :: rest =>
      '(s1, o) ← serve r s;
      '(s2, os) ← serve_all rest s1;
      Some (s2, o :: os)
  end.

(** The linked entries, least recently used first. *)
Definition entries (s : LRUCache) : list (Key * Value) :=
  (λ p, (key_ (node_at s p), value_ (node_at s p))) <$> chain s.

(** ** Reference model: a recency list of key-value pairs

    The cache seen as the list of its entries, least recently used first:
    a use moves an entry to the end, an insertion into a full list drops
    the first entry. *)
Fixpoint model_lookup (k : Key) (l : list (Key * Value)) : option Value :=
  match l with
  | [] => None
  | (k', v) :: l' => if decide (k' = k) then Some v else model_lookup k l'
  end.

Definition model_touch (k : Key) (v : Value) (l : list (Key * Value))
  : list (Key * Value) :=
  filter (λ e, e.1 ≠ k) l ++ [(k, v)].

Definition model_put (C : Z) (k : Key) (v : Value) (l : list (Key * Value))
  : list (Key * Value) :=
  if decide (C ≤ 0) then l
  else match model_lookup k l with
       | Some _ => model_touch k v l
       | None => (if decide (C ≤ Z.of_nat (length l)) then tail l else l) ++ [(k, v)]
       end.

Definition model_get (k : Key) (d : Value) (l : list (Key * Value))
  : bool * Value * list (Key * Value) :=
  match model_lookup k l with
  | Some v => (true, v, model_touch k v l)
  | None => (false, d, l)
  end.

Definition model_remove (k : Key) (l : list (Key * Value)) : list (Key * Value) :=
  filter (λ e, e.1 ≠ k) l.

Definition model_serve (C : Z) (r : request) (l : list (Key * Value))
  : list (Key * Value) * option (bool * Value) :=
  match r with
  | ReqPut k v => (model_put C k v l, None)
  | ReqGet k => let '(hit, v, l1) := model_get k default_ctor l in (l1, Some (hit, v))
  | ReqRemove k => (model_remove k l, None)
  end.

Fixpoint model_serve_all (C : Z) (rs : list request) (l : list (Key * Value))
  : list (Key * Value) * list (option (bool * Value)) :=
  match rs with
  | [] => (l, [])
  | r :: rest =>
      let '(l1, o) := model_serve C r l in
      let '(l2, os) := model_serve_all C rest l1 in
      (l2, o :: os)
  end.

(** The dictionary a workload writes: the last value [put] under each
    key that was not removed since. *)
Definition written_step (m : gmap Key Value) (r : request) : gmap Key Value :=
  match r with
  | ReqPut k v => <[k := v]> m
  | ReqGet _ => m
  | ReqRemove k => delete k m
  end.

Definition written (rs : list request) : gmap Key Value :=
  foldl written_step ∅ rs.

(** What every step of the model keeps: distinct keys, the capacity
    bound, and entries that the dictionary [m] of written values holds. *)
Definition model_inv (C : Z) (m : gmap Key Value) (l : list (Key * Value)) : Prop :=
  NoDup l.*1 ∧ Z.of_nat (length l) ≤ Z.max C 0 ∧
  ∀ k v, (k, v) ∈ l → m !! k = Some v.

(** A well-formed cache whose capacity is an [int] and bounds the index. *)
Definition LRUbounded (s : LRUCache) : Prop :=
  LRUwf s ∧ - 2 ^ 31 ≤ capacity_ s < 2 ^ 31 ∧
  Z.of_nat (size (nodeMap_ s)) ≤ Z.max (capacity_ s) 0.

End LRU.
End LRU.

(* ================================================================== *)
(** * LFUCache.h : FreqList and LFUCache *)

Module LFU.
Section LFU.
Context {Key Value : Type} `{Countable Key}.
Context `{DefaultCtor Key} `{DefaultCtor Value}.

(** [FreqList::Node]; [pre] and [next] are the position of the node's
    handle in the sequence of the list that links it. *)
Record Node := mkNode {
  freq : Z;
  key : Key;
  value : Value
}.

(** [Node(Key key, Value value)] *)
Definition Node_new (k : Key) (v : Value) : Node := mkNode 1 k v.

(** [Node()], the sentinel: [freq(1)], [key] and [value] left to their
    default initialisation. *)
Definition Node_sentinel : Node := mkNode 1 default_ctor default_ctor.

(** A [FreqList] is the sequence of handles between [head_] and [tail_]. *)
Abbreviation FreqList := (list NodePtr) (only parsing).

Definition isEmpty (l : FreqList) : bool :=
  match l with [] => true | _ => false end.

(** [head_->next]: the first linked node, or [tail_] ([None]). *)
Definition getFirstNode (l : FreqList) : option NodePtr := head l.

Record LFUCache := mkLFUCache {
  capacity_ : Z;
  minFreq_ : Z;
  maxAverageNum_ : Z;
  curAverageNum_ : Z;
  curTotalNum_ : Z;
  nodeMap_ : gmap Key NodePtr;
  freqToFreqList_ : gmap Z FreqList;
  nodes : list Node
}.

Definition node_at (s : LFUCache) (p : NodePtr) : Node :=
  default Node_sentinel (nodes s !! p).

(** [LFUCache(int capacity, int maxAverageNum = 10)] *)
Definition LFUCache_new (capacity maxAverageNum : Z) : LFUCache :=
  mkLFUCache capacity INT8_MAX maxAverageNum 0 0 ∅ ∅ [].

Definition set_minFreq (m : Z) (s : LFUCache) : LFUCache :=
  mkLFUCache (capacity_ s) m (maxAverageNum_ s) (curAverageNum_ s)
    (curTotalNum_ s) (nodeMap_ s) (freqToFreqList_ s) (nodes s).

Definition set_counters (avg total : Z) (s : LFUCache) : LFUCache :=
  mkLFUCache (capacity_ s) (minFreq_ s) (maxAverageNum_ s) avg total
    (nodeMap_ s) (freqToFreqList_ s) (nodes s).

Definition set_nodeMap (m : gmap Key NodePtr) (s : LFUCache) : LFUCache :=
  mkLFUCache (capacity_ s) (minFreq_ s) (maxAverageNum_ s) (curAverageNum_ s)
    (curTotalNum_ s) m (freqToFreqList_ s) (nodes s).

Definition set_lists (m : gmap Z FreqList) (s : LFUCache) : LFUCache :=
  mkLFUCache (capacity_ s) (minFreq_ s) (maxAverageNum_ s) (curAverageNum_ s)
    (curTotalNum_ s) (nodeMap_ s) m (nodes s).

Definition set_nodes (l : list Node) (s : LFUCache) : LFUCache :=
  mkLFUCache (capacity_ s) (minFreq_ s) (maxAverageNum_ s) (curAverageNum_ s)
    (curTotalNum_ s) (nodeMap_ s) (freqToFreqList_ s) l.

(** [node->freq = f] *)
Definition set_freq (p : NodePtr) (f : Z) (s : LFUCache) : LFUCache :=
  let n := node_at s p in
  set_nodes (<[p := mkNode f (key n) (value n)]> (nodes s)) s.

(** [node->value = v] *)
Definition set_value (p : NodePtr) (v : Value) (s : LFUCache) : LFUCache :=
  let n := node_at s p in
  set_nodes (<[p := mkNode (freq n) (key n) v]> (nodes s)) s.

(** [freqToFreqList_[freq]->removeNode(node)]: the bucket pointer obtained
    from [operator[]] is null when no list was created for [freq];
    [FreqList::removeNode] unlinks through the node's own pointers and
    leaves a node that is not linked as it is. *)
Definition removeFromFreqList (p : NodePtr) (s : LFUCache) : option LFUCache :=
  _ ← freqToFreqList_ s !! freq (node_at s p);
  Some (set_lists (unlink p <$> freqToFreqList_ s) s).

(** The same call on a [tail_] sentinel, whose [next] is null. *)
Definition removeFromFreqList_sentinel (s : LFUCache) : option LFUCache :=
  _ ← freqToFreqList_ s !! freq Node_sentinel;
  Some s.

Definition addToFreqList (p : NodePtr) (s : LFUCache) : LFUCache :=
  let f := freq (node_at s p) in
  let l := default [] (freqToFreqList_ s !! f) in
  set_lists (<[f := l ++ [p]]> (freqToFreqList_ s)) s.

(** [curTotalNum_ / nodeMap_.size()] is computed in [size_t] and stored
    in an [int]. *)
Definition average (s : LFUCache) (total : Z) : Z :=
  if decide (nodeMap_ s = ∅) then 0
  else to_int (to_size_t total / Z.of_nat (size (nodeMap_ s))).

Definition updateMinFreq (s : LFUCache) : LFUCache :=
  let m := map_fold (λ f l m, if isEmpty l then m else Z.min m f)
             INT8_MAX (freqToFreqList_ s) in
  set_minFreq (if decide (m = INT8_MAX) then 1 else m) s.

(** The body of the loop of [handleOverMaxAverageNum] for one node. *)
Definition ageNode (p : NodePtr) (s : LFUCache) : option LFUCache :=
  s1 ← removeFromFreqList p s;
  let f := freq (node_at s1 p) - maxAverageNum_ s1 `quot` 2 in
  let s2 := set_freq p (if decide (f < 1) then 1 else f) s1 in
  Some (addToFreqList p s2).

(** The loop visits the entries in the iteration order of
    [std::unordered_map], which is unspecified, here in the order of
    [map_fold].  The order decides the order of the nodes inside a list
    after the age-down; the frequency a node gets and the list it joins
    do not depend on it. *)
Definition handleOverMaxAverageNum (s : LFUCache) : option LFUCache :=
  if decide (nodeMap_ s = ∅) then Some s
  else
    s1 ← map_fold (λ _ p acc, acc ≫= ageNode p) (Some s) (nodeMap_ s);
    Some (updateMinFreq s1).

Definition addFreqNum (s : LFUCache) : option LFUCache :=
  let total := curTotalNum_ s + 1 in
  let s1 := set_counters (average s total) total s in
  if decide (curAverageNum_ s1 > maxAverageNum_ s1)
  then handleOverMaxAverageNum s1 else Some s1.

Definition decreaseFreqNum (num : Z) (s : LFUCache) : LFUCache :=
  let total := curTotalNum_ s - num in
  set_counters (average s total) total s.

Definition kickOut (s : LFUCache) : option LFUCache :=
  l ← freqToFreqList_ s !! minFreq_ s;
  match getFirstNode l with
  | Some p =>
      s1 ← removeFromFreqList p s;
      let s2 := set_nodeMap (delete (key (node_at s1 p)) (nodeMap_ s1)) s1 in
      Some (decreaseFreqNum (freq (node_at s2 p)) s2)
  | None =>
      s1 ← removeFromFreqList_sentinel s;
      let s2 := set_nodeMap (delete (key Node_sentinel) (nodeMap_ s1)) s1 in
      Some (decreaseFreqNum (freq Node_sentinel) s2)
  end.

Definition putInternal (k : Key) (v : Value) (s : LFUCache) : option LFUCache :=
  s1 ← (if decide (Z.of_nat (size (nodeMap_ s)) = to_size_t (capacity_ s))
        then kickOut s else Some s);
  let node := length (nodes s1) in
  let s2 := set_nodes (nodes s1 ++ [Node_new k v]) s1 in
  let s3 := set_nodeMap (<[k := node]> (nodeMap_ s2)) s2 in
  let s4 := addToFreqList node s3 in
  s5 ← addFreqNum s4;
  Some (set_minFreq (Z.min (minFreq_ s5) 1) s5).

(** The statements of [getInternal] after the read of the value and
    before the call of [addFreqNum]: the move to the next list and the
    update of [minFreq_]. *)
Definition bumpFreq (p : NodePtr) (s : LFUCache) : option LFUCache :=
  s1 ← removeFromFreqList p s;
  let s2 := set_freq p (freq (node_at s1 p) + 1) s1 in
  let s3 := addToFreqList p s2 in
  if decide (freq (node_at s3 p) - 1 = minFreq_ s3)
  then l ← freqToFreqList_ s3 !! (freq (node_at s3 p) - 1);
       Some (if isEmpty l then set_minFreq (minFreq_ s3 + 1) s3 else s3)
  else Some s3.

(** The result carries the content of the out-parameter [value]. *)
Definition getInternal (p : NodePtr) (s : LFUCache) : option (Value * LFUCache) :=
  let v := value (node_at s p) in
  s4 ← bumpFreq p s;
  s5 ← addFreqNum s4;
  Some (v, s5).

Definition put (k : Key) (v : Value) (s : LFUCache) : option LFUCache :=
  if decide (capacity_ s = 0) then Some s
  else match nodeMap_ s !! k with
       | Some p => '(_, s1) ← getInternal p (set_value p v s); Some s1
       | None => putInternal k v s
       end.

(** [bool get(Key key, Value &value)] *)
Definition get_ref (k : Key) (v : Value) (s : LFUCache)
  : option (bool * Value * LFUCache) :=
  match nodeMap_ s !! k with
  | Some p => '(v1, s1) ← getInternal p s; Some (true, v1, s1)
  | None => Some (false, v, s)
  end.

(** [Value get(Key key)]; the local [Value value;] is taken as the
    value-initialised object, which it is for a class type.  For a scalar
    type what a miss returns is indeterminate. *)
Definition get (k : Key) (s : LFUCache) : option (Value * LFUCache) :=
  '(_, v, s1) ← get_ref k default_ctor s; Some (v, s1).

Definition purge (s : LFUCache) : LFUCache :=
  set_lists ∅ (set_nodeMap ∅ s).

(** Stored frequency of a cached key. *)
Definition freq_of (s : LFUCache) (k : Key) : option Z :=
  p ← nodeMap_ s !! k; Some (freq (node_at s p)).

(** Keys linked in the list of frequency [f], oldest arrival first. *)
Definition bucket_keys (s : LFUCache) (f : Z) : list Key :=
  (λ p, key (node_at s p)) <$> default [] (freqToFreqList_ s !! f).

(** [n] successive [get(k)]. *)
Fixpoint get_n (n : nat) (k : Key) (s : LFUCache) : option LFUCache :=
  match n with
  | O => Some s
  | S n' => '(_, s1) ← get k s; get_n n' k s1
  end.

(** Workloads on the public interface. *)
Inductive op := Put (k : Key) (v : Value) | Get (k : Key) | Purge.

Definition exec (o : op) (s : LFUCache) : option LFUCache :=
  match o with
  | Put k v => put k v s
  | Get k => '(_, s1) ← get k s; Some s1
  | Purge => Some (purge s)
  end.

Fixpoint run (ops : list op) (s : LFUCache) : option LFUCache :=
  match ops with
  | [] => Some s
  | o :: rest => s1 ← exec o s; run rest s1
  end.

(** The frequency a node has after an age-down. *)
Definition aged (s : LFUCache) (f : Z) : Z :=
  if decide (f - maxAverageNum_ s `quot` 2 < 1) then 1
  else f - maxAverageNum_ s `quot` 2.

(** The node resides in the list keyed by its own frequency. *)
Definition in_own_list (s : LFUCache) (p : NodePtr) : Prop :=
  ∃ l, freqToFreqList_ s !! freq (node_at s p) = Some l ∧ p ∈ l.

(** Invariant kept by every step of the implementation: linked nodes are
    allocated and sit, once, in the list of their frequency (so a node is
    linked in at most one place, as the pointer structure requires),
    every cached entry is linked and indexed under its own key, and
    frequencies are positive. *)
Record LFUok (s : LFUCache) : Prop := mkLFUok {
  ok_alloc : ∀ f l p,
    freqToFreqList_ s !! f = Some l → p ∈ l → (p < length (nodes s))%nat;
  ok_list_freq : ∀ f l p,
    freqToFreqList_ s !! f = Some l → p ∈ l → freq (node_at s p) = f;
  ok_cached : ∀ k p, nodeMap_ s !! k = Some p → in_own_list s p;
  ok_key : ∀ k p, nodeMap_ s !! k = Some p → key (node_at s p) = k;
  ok_freq_pos : ∀ f, is_Some (freqToFreqList_ s !! f) → 1 ≤ f;
  ok_minFreq_pos : 1 ≤ minFreq_ s;
  ok_nodup : ∀ f l, freqToFreqList_ s !! f = Some l → NoDup l
}.

(** What the internal steps leave alone: the index, the configuration,
    the keys and values of the nodes, and the existence of lists. *)
Definition lfu_frame (s s' : LFUCache) : Prop :=
  nodeMap_ s' = nodeMap_ s ∧ capacity_ s' = capacity_ s ∧
  maxAverageNum_ s' = maxAverageNum_ s ∧
  length (nodes s') = length (nodes s) ∧
  (∀ q, key (node_at s' q) = key (node_at s q) ∧
        value (node_at s' q) = value (node_at s q)) ∧
  (∀ f, is_Some (freqToFreqList_ s !! f) → is_Some (freqToFreqList_ s' !! f)).

(** Invariant at the boundaries of the public methods: moreover the lists
    that [kickOut] dereferences exist whenever an entry is cached. *)
Definition LFUwf (s : LFUCache) : Prop :=
  LFUok s ∧
  (nodeMap_ s ≠ ∅ →
   is_Some (freqToFreqList_ s !! minFreq_ s) ∧ is_Some (freqToFreqList_ s !! 1)).

(** The dictionary a workload writes: the last value [put] under each
    key since the last [purge]. *)
Definition written_step (m : gmap Key Value) (o : op) : gmap Key Value :=
  match o with
  | Put k v => <[k := v]> m
  | Get _ => m
  | Purge => ∅
  end.

Definition written (ops : list op) : gmap Key Value :=
  foldl written_step ∅ ops.

(** The cached values are written ones. *)
Definition cached_written (m : gmap Key Value) (s : LFUCache) : Prop :=
  ∀ k p, nodeMap_ s !! k = Some p → m !! k = Some (value (node_at s p)).

(** Sum of [g] over the nodes of an index. *)
Definition index_sum (g : NodePtr → Z) (m : gmap Key NodePtr) : Z :=
  map_fold (λ _ p acc, acc + g p) 0 m.

(** Sum of the frequencies of the cached entries. *)
Definition freq_sum (s : LFUCache) : Z :=
  index_sum (λ p, freq (node_at s p)) (nodeMap_ s).

(** Every linked node is a cached entry, and the total of the accesses
    covers the frequencies of the cached entries. *)
Record LFUlinked (s : LFUCache) : Prop := mkLFUlinked {
  lk_ok : LFUok s;
  lk_cached : ∀ f l p,
    freqToFreqList_ s !! f = Some l → p ∈ l →
    nodeMap_ s !! key (node_at s p) = Some p;
  lk_total : freq_sum s ≤ curTotalNum_ s
}.

(** [minFreq_] is the smallest frequency whose list is not empty. *)
Definition minFreq_exact (s : LFUCache) : Prop :=
  nodeMap_ s ≠ ∅ →
  (∃ l, freqToFreqList_ s !! minFreq_ s = Some l ∧ l ≠ []) ∧
  ∀ f l, freqToFreqList_ s !! f = Some l → l ≠ [] → minFreq_ s ≤ f.

(** State of a cache of capacity [C] and limit [M] on the average after
    at most [N] operations, none of which aged the frequencies; the list
    of frequency 1 exists once an entry is cached. *)
Definition LFUexact (C M N : Z) (s : LFUCache) : Prop :=
  LFUlinked s ∧ minFreq_exact s ∧
  (nodeMap_ s ≠ ∅ → is_Some (freqToFreqList_ s !! 1)) ∧
  capacity_ s = C ∧ maxAverageNum_ s = M ∧
  Z.of_nat (size (nodeMap_ s)) ≤ C ∧ curTotalNum_ s ≤ N.

(** The frequency of a node that is linked in the list of its frequency,
    and 0 for a node that is not linked there. *)
Definition linked_freq (s : LFUCache) (p : NodePtr) : Z :=
  match freqToFreqList_ s !! freq (node_at s p) with
  | Some l => if decide (p ∈ l) then freq (node_at s p) else 0
  | None => 0
  end.

(** Sum of the frequencies of the linked nodes. *)
Definition linked_sum (s : LFUCache) : Z :=
  sum_upto (linked_freq s) (length (nodes s)).

(** Every allocated node has a frequency between 1 and [N]. *)
Definition freq_within (N : Z) (s : LFUCache) : Prop :=
  ∀ p, (p < length (nodes s))%nat → 1 ≤ freq (node_at s p) ≤ N.

(** The counters of a cache after at most [N] operations.  At most [N]
    nodes were allocated, no frequency and no total exceeds [N], and the
    total falls short of the frequencies of the linked nodes by no more
    than the number of allocations; so every counter is an [int] as long
    as [N < 2^31]. *)
Definition LFUcounted (N : Z) (s : LFUCache) : Prop :=
  Z.of_nat (length (nodes s)) ≤ N ∧ freq_within N s ∧
  curTotalNum_ s ≤ N ∧
  linked_sum s ≤ curTotalNum_ s + Z.of_nat (length (nodes s)) ∧
  minFreq_ s ≤ Z.max N INT8_MAX ∧
  - 2 ^ 31 ≤ curAverageNum_ s < 2 ^ 31.

End LFU.
End LFU.

(* ================================================================== *)
(** * LRUCache.h : LRUKCache *)

Module LRUK.
Section LRUK.
Context {Key : Type} `{Countable Key} `{DefaultCtor Key}.

(** The class compares a cached value with the literal [""], so [Value]
    is a string type.  [base] is the [LRUCache<Key, Value>] sub-object,
    [historyList_] the [LRUCache<Key, size_t>] of access counts. *)
Record LRUKCache := mkLRUKCache {
  base : LRU.LRUCache (Key:=Key) (Value:=string);
  k_ : Z;
  historyList_ : LRU.LRUCache (Key:=Key) (Value:=Z)
}.

(** [LRUKCache(int capacity, int historyCapacity, int k)] *)
Definition LRUKCache_new (capacity historyCapacity k : Z) : LRUKCache :=
  mkLRUKCache (LRU.LRUCache_new capacity) k (LRU.LRUCache_new historyCapacity).

(** [int historyCount = historyList_->get(key);
     historyList_->put(key, ++historyCount);] *)
Definition bumpHistory (key : Key) (h : LRU.LRUCache (Key:=Key) (Value:=Z))
  : option (Z * LRU.LRUCache (Key:=Key) (Value:=Z)) :=
  let '(count, h1) := LRU.get key h in
  let historyCount := to_int count + 1 in
  h2 ← LRU.put key (to_size_t historyCount) h1;
  Some (historyCount, h2).

Definition get (key : Key) (s : LRUKCache) : option (string * LRUKCache) :=
  '(_, h) ← bumpHistory key (historyList_ s);
  let '(v, b) := LRU.get key (base s) in
  Some (v, mkLRUKCache b (k_ s) h).

Definition put (key : Key) (value : string) (s : LRUKCache) : option LRUKCache :=
  let '(v, b0) := LRU.get key (base s) in
  b1 ← (if decide (v ≠ EmptyString) then LRU.put key value b0 else Some b0);
  '(historyCount, h) ← bumpHistory key (historyList_ s);
  if decide (historyCount >= k_ s)
  then b2 ← LRU.put key value b1;
       Some (mkLRUKCache b2 (k_ s) (LRU.remove key h))
  else Some (mkLRUKCache b1 (k_ s) h).

(** The history list after [n >= 1] recorded accesses of a single key. *)
Definition history_of (Hc : Z) (A : Key) (n : Z)
  : LRU.LRUCache (Key:=Key) (Value:=Z) :=
  LRU.mkLRUCache Hc {[A := 0%nat]} [0%nat] [LRU.mkLRUNode A n 1].

(** [n] successive [get(key)]. *)
Fixpoint get_n (n : nat) (key : Key) (s : LRUKCache) : option LRUKCache :=
  match n with
  | O => Some s
  | S n' => '(_, s1) ← get key s; get_n n' key s1
  end.

(** Presence of a key in the main cache. *)
Definition in_main (key : Key) (s : LRUKCache) : bool :=
  bool_decide (is_Some (LRU.nodeMap_ (base s) !! key)).

(** Workloads of [put] and [get]. *)
Inductive op := Put (key : Key) (value : string) | Get (key : Key).

Definition exec (o : op) (s : LRUKCache) : option LRUKCache :=
  match o with
  | Put k v => put k v s
  | Get k => '(_, s1) ← get k s; Some s1
  end.

Fixpoint run (ops : list op) (s : LRUKCache) : option LRUKCache :=
  match ops with
  | [] => Some s
  | o :: rest => s1 ← exec o s; run rest s1
  end.

(** The value the main cache holds under a key. *)
Definition main_value (key : Key) (s : LRUKCache) : option string :=
  LRU.model_lookup key (LRU.entries (base s)).

(** Both lists are well formed and within their capacities. *)
Definition LRUKwf (s : LRUKCache) : Prop :=
  LRU.LRUbounded (base s) ∧ LRU.LRUbounded (historyList_ s).

End LRUK.
End LRUK.

(* ================================================================== *)
(** * LRUCache.h : HashLRUCaches, LFUCache.h : HashLRUCache *)

(** [size_t sliceSize = std::ceil(capacity / static_cast<double>(sliceNum_))]:
    the quotient of two integers, rounded up.  Both operands are exact as
    [double] when [capacity < 2^53] and [sliceNum_] is a positive [int]; the
    relative error of the division is below [2^-53], less than the distance
    [1 / sliceNum_] of an inexact quotient from the next integer below, so
    [std::ceil] returns the exact ceiling in that range.  For a larger
    [capacity] the conversion and the division round, and the result can
    differ from the ceiling; the theorems on the sharded caches keep
    [capacity] below [2^31]. *)
Definition slice_size (capacity sliceNum : Z) : Z :=
  (capacity + sliceNum - 1) / sliceNum.

Module HashLRU.
Section HashLRU.
Context {Key Value : Type} `{Countable Key}.
Context `{DefaultCtor Key} `{DefaultCtor Value}.

(** [std::hash<Key>] and the result of
    [std::thread::hardware_concurrency()], an [unsigned] that fits an
    [int]. *)
Context (hashFunc : Key → Z) (hardware_concurrency : Z).

Record HashLRUCaches := mkHashLRUCaches {
  capacity_ : Z;
  sliceNum_ : Z;
  LRUSliceCaches_ : list (LRU.LRUCache (Key:=Key) (Value:=Value))
}.

(** [HashLRUCaches(size_t capacity, int sliceNum)].  With no slice the
    quotient is infinite or not a number, and its conversion to [size_t]
    is undefined. *)
Definition HashLRUCaches_new (capacity sliceNum : Z) : option HashLRUCaches :=
  let n := if decide (sliceNum > 0) then sliceNum else hardware_concurrency in
  if decide (n = 0) then None
  else
    let sliceSize := slice_size capacity n in
    Some (mkHashLRUCaches capacity n
            (replicate (Z.to_nat n) (LRU.LRUCache_new (to_int sliceSize)))).

(** [size_t Hash(Key key)] *)
Definition Hash (key : Key) : Z := to_size_t (hashFunc key).

(** [Hash(key) % sliceNum_], computed in [size_t]. *)
Definition sliceIndex (key : Key) (s : HashLRUCaches) : option nat :=
  let n := to_size_t (sliceNum_ s) in
  if decide (n = 0) then None else Some (Z.to_nat (Hash key `mod` n)).

Definition set_slice (i : nat) (c : LRU.LRUCache) (s : HashLRUCaches)
  : HashLRUCaches :=
  mkHashLRUCaches (capacity_ s) (sliceNum_ s) (<[i := c]> (LRUSliceCaches_ s)).

(** An index past the end of the vector is undefined. *)
Definition put (key : Key) (value : Value) (s : HashLRUCaches)
  : option HashLRUCaches :=
  i ← sliceIndex key s;
  c ← LRUSliceCaches_ s !! i;
  c1 ← LRU.put key value c;
  Some (set_slice i c1 s).

(** [bool get(Key key, Value &value)] *)
Definition get_ref (key : Key) (value : Value) (s : HashLRUCaches)
  : option (bool * Value * HashLRUCaches) :=
  i ← sliceIndex key s;
  c ← LRUSliceCaches_ s !! i;
  let '(hit, v, c1) := LRU.get_ref key value c in
  Some (hit, v, set_slice i c1 s).

(** [Value get(Key key)] *)
Definition get (key : Key) (s : HashLRUCaches) : option (Value * HashLRUCaches) :=
  '(_, v, s1) ← get_ref key default_ctor s; Some (v, s1).

(** Workloads of [put] and [get]. *)
Inductive op := Put (key : Key) (value : Value) | Get (key : Key).

Definition exec (o : op) (s : HashLRUCaches) : option HashLRUCaches :=
  match o with
  | Put k v => put k v s
  | Get k => '(_, s1) ← get k s; Some s1
  end.

Fixpoint run (ops : list op) (s : HashLRUCaches) : option HashLRUCaches :=
  match ops with
  | [] => Some s
  | o :: rest => s1 ← exec o s; run rest s1
  end.

(** Number of entries cached over all slices. *)
Definition total_size (s : HashLRUCaches) : nat :=
  sum_list_with (λ c, size (LRU.nodeMap_ c)) (LRUSliceCaches_ s).

(** [n] slices, each a well-formed cache of capacity [sz] within it. *)
Definition slices_ok (n sz : Z) (s : HashLRUCaches) : Prop :=
  sliceNum_ s = n ∧ length (LRUSliceCaches_ s) = Z.to_nat n ∧
  Forall (λ c, LRU.LRUbounded c ∧ LRU.capacity_ c = sz) (LRUSliceCaches_ s).

End HashLRU.
End HashLRU.

Module HashLFU.
Section HashLFU.
Context {Key Value : Type} `{Countable Key}.
Context `{DefaultCtor Key} `{DefaultCtor Value}.
Context (hashFunc : Key → Z) (hardware_concurrency : Z).

(** [HashLRUCache] of LFUCache.h, the sharded LFU cache. *)
Record HashLRUCache := mkHashLRUCache {
  sliceNum_ : Z;
  capacity_ : Z;
  LFUSliceCaches_ : list (LFU.LFUCache (Key:=Key) (Value:=Value))
}.

(** [HashLRUCache(size_t capacity, int sliceNum, int maxAverageNum = 10)] *)
Definition HashLRUCache_new (capacity sliceNum maxAverageNum : Z)
  : option HashLRUCache :=
  let n := if decide (sliceNum > 0) then sliceNum else hardware_concurrency in
  if decide (n = 0) then None
  else
    let sliceSize := slice_size capacity n in
    Some (mkHashLRUCache n capacity
            (replicate (Z.to_nat n)
               (LFU.LFUCache_new (to_int sliceSize) maxAverageNum))).

Definition Hash (key : Key) : Z := to_size_t (hashFunc key).

Definition sliceIndex (key : Key) (s : HashLRUCache) : option nat :=
  let n := to_size_t (sliceNum_ s) in
  if decide (n = 0) then None else Some (Z.to_nat (Hash key `mod` n)).

Definition set_slice (i : nat) (c : LFU.LFUCache) (s : HashLRUCache)
  : HashLRUCache :=
  mkHashLRUCache (sliceNum_ s) (capacity_ s) (<[i := c]> (LFUSliceCaches_ s)).

Definition put (key : Key) (value : Value) (s : HashLRUCache)
  : option HashLRUCache :=
  i ← sliceIndex key s;
  c ← LFUSliceCaches_ s !! i;
  c1 ← LFU.put key value c;
  Some (set_slice i c1 s).

(** [bool get(Key key, Value &value)] *)
Definition get_ref (key : Key) (value : Value) (s : HashLRUCache)
  : option (bool * Value * HashLRUCache) :=
  i ← sliceIndex key s;
  c ← LFUSliceCaches_ s !! i;
  '(hit, v, c1) ← LFU.get_ref key value c;
  Some (hit, v, set_slice i c1 s).

(** [Value get(Key key)] *)
Definition get (key : Key) (s : HashLRUCache) : option (Value * HashLRUCache) :=
  '(_, v, s1) ← get_ref key default_ctor s; Some (v, s1).

(** Workloads of [put] and [get].  [purge] calls a member [pruge] that
    [LFUCache] does not have, so it cannot be instantiated and has no
    behaviour to embed. *)
Inductive op := Put (key : Key) (value : Value) | Get (key : Key).

Definition exec (o : op) (s : HashLRUCache) : option HashLRUCache :=
  match o with
  | Put k v => put k v s
  | Get k => '(_, s1) ← get k s; Some s1
  end.

Fixpoint run (ops : list op) (s : HashLRUCache) : option HashLRUCache :=
  match ops with
  | [] => Some s
  | o :: rest => s1 ← exec o s; run rest s1
  end.

Definition slices_ok (n sz : Z) (s : HashLRUCache) : Prop :=
  sliceNum_ s = n ∧ length (LFUSliceCaches_ s) = Z.to_nat n ∧
  Forall (λ c, LFU.LFUwf c ∧ LFU.capacity_ c = sz) (LFUSliceCaches_ s).

End HashLFU.
End HashLFU.

(* ================================================================== *)
(** * ARCCache/ARCCacheNode.h, ARCCache/ARCLRUPart.h, ARCCache/ARCCache.h *)

Module ARC.
Section ARC.
Context {Key Value : Type} `{Countable Key}.
Context `{DefaultCtor Key} `{DefaultCtor Value}.

(** [size_t] increment and decrement. *)
Definition size_t_succ (n : Z) : Z := (n + 1) mod 2 ^ 64.
Definition size_t_pred (n : Z) : Z := (n - 1) mod 2 ^ 64.

Record ARCNode := mkARCNode {
  key_ : Key;
  value_ : Value;
  accessCount_ : Z
}.

(** [ARCNode(Key key, Value value)] *)
Definition ARCNode_new (key : Key) (value : Value) : ARCNode :=
  mkARCNode key value 1.

(** [ARCLRUPart]: [mainList] is the list between [mainHead_] and
    [mainTail_], [ghostList] the list between [ghostHead_] and
    [ghostTail_], head side first.  The constructor does not initialise
    [ghostCapacity_]; its content is whatever the state carries. *)
Record ARCLRUPart := mkARCLRUPart {
  capacity_ : Z;
  ghostCapacity_ : Z;
  transformThreshold_ : Z;
  mainCache_ : gmap Key NodePtr;
  ghostCache_ : gmap Key NodePtr;
  mainList : list NodePtr;
  ghostList : list NodePtr;
  nodes : list ARCNode
}.

Definition node_at (s : ARCLRUPart) (p : NodePtr) : ARCNode :=
  default (mkARCNode default_ctor default_ctor 1) (nodes s !! p).

(** [ARCLRUPart(size_t capacity, size_t transformThreshold)];
    [ghostCapacity] stands for the uninitialised member. *)
Definition ARCLRUPart_new (capacity transformThreshold ghostCapacity : Z)
  : ARCLRUPart :=
  mkARCLRUPart capacity ghostCapacity transformThreshold ∅ ∅ [] [] [].

Definition set_capacity (c : Z) (s : ARCLRUPart) : ARCLRUPart :=
  mkARCLRUPart c (ghostCapacity_ s) (transformThreshold_ s) (mainCache_ s)
    (ghostCache_ s) (mainList s) (ghostList s) (nodes s).

Definition set_mainCache (m : gmap Key NodePtr) (s : ARCLRUPart) : ARCLRUPart :=
  mkARCLRUPart (capacity_ s) (ghostCapacity_ s) (transformThreshold_ s) m
    (ghostCache_ s) (mainList s) (ghostList s) (nodes s).

Definition set_ghostCache (m : gmap Key NodePtr) (s : ARCLRUPart) : ARCLRUPart :=
  mkARCLRUPart (capacity_ s) (ghostCapacity_ s) (transformThreshold_ s)
    (mainCache_ s) m (mainList s) (ghostList s) (nodes s).

Definition set_lists (main ghost : list NodePtr) (s : ARCLRUPart) : ARCLRUPart :=
  mkARCLRUPart (capacity_ s) (ghostCapacity_ s) (transformThreshold_ s)
    (mainCache_ s) (ghostCache_ s) main ghost (nodes s).

Definition set_nodes (l : list ARCNode) (s : ARCLRUPart) : ARCLRUPart :=
  mkARCLRUPart (capacity_ s) (ghostCapacity_ s) (transformThreshold_ s)
    (mainCache_ s) (ghostCache_ s) (mainList s) (ghostList s) l.

Definition setValue (p : NodePtr) (value : Value) (s : ARCLRUPart) : ARCLRUPart :=
  let n := node_at s p in
  set_nodes (<[p := mkARCNode (key_ n) value (accessCount_ n)]> (nodes s)) s.

Definition setAccessCount (p : NodePtr) (c : Z) (s : ARCLRUPart) : ARCLRUPart :=
  let n := node_at s p in
  set_nodes (<[p := mkARCNode (key_ n) (value_ n) c]> (nodes s)) s.

Definition incrementAccessCount (p : NodePtr) (s : ARCLRUPart) : ARCLRUPart :=
  setAccessCount p (size_t_succ (accessCount_ (node_at s p))) s.

(** [node->prev_->next_ = node->next_; node->next_->prev_ = node->prev_;]
    acts on the list that links the node.  This is the body of
    [removeFromMain] and of [removeFromGhost] alike. *)
Definition unlinkNode (p : NodePtr) (s : ARCLRUPart) : ARCLRUPart :=
  set_lists (unlink p (mainList s)) (unlink p (ghostList s)) s.

Definition removeFromMain := unlinkNode.
Definition removeFromGhost := unlinkNode.

(** Linking right after [mainHead_]. *)
Definition addToFront (p : NodePtr) (s : ARCLRUPart) : ARCLRUPart :=
  set_lists (p :: mainList s) (ghostList s) s.

Definition moveToFront (p : NodePtr) (s : ARCLRUPart) : ARCLRUPart :=
  addToFront p (unlinkNode p s).

(** The node is linked right after [mainHead_], as the source has it. *)
Definition addToGhost (p : NodePtr) (s : ARCLRUPart) : ARCLRUPart :=
  let s1 := setAccessCount p 1 s in
  let s2 := set_lists (p :: mainList s1) (ghostList s1) s1 in
  set_ghostCache (<[key_ (node_at s2 p) := p]> (ghostCache_ s2)) s2.

(** [ghostTail_->prev_] is the last node of the ghost list, or
    [ghostHead_] when it is empty. *)
Definition removeOldestGhost (s : ARCLRUPart) : ARCLRUPart :=
  match last (ghostList s) with
  | None => s
  | Some oldestGhost =>
      let s1 := removeFromGhost oldestGhost s in
      set_ghostCache (delete (key_ (node_at s1 oldestGhost)) (ghostCache_ s1)) s1
  end.

Definition evictLeastRecent (s : ARCLRUPart) : ARCLRUPart :=
  match last (mainList s) with
  | None => s
  | Some leastRecent =>
      let s1 := removeFromMain leastRecent s in
      let s2 := if decide (ghostCapacity_ s1 ≤ Z.of_nat (size (ghostCache_ s1)))
                then removeOldestGhost s1 else s1 in
      let s3 := addToGhost leastRecent s2 in
      set_mainCache (delete (key_ (node_at s3 leastRecent)) (mainCache_ s3)) s3
  end.

Definition updateExistingNode (p : NodePtr) (value : Value) (s : ARCLRUPart)
  : bool * ARCLRUPart :=
  (true, moveToFront p (setValue p value s)).

Definition addNewNode (key : Key) (value : Value) (s : ARCLRUPart)
  : bool * ARCLRUPart :=
  let s1 := if decide (capacity_ s ≤ Z.of_nat (size (mainCache_ s)))
            then evictLeastRecent s else s in
  let newNode := length (nodes s1) in
  let s2 := set_nodes (nodes s1 ++ [ARCNode_new key value]) s1 in
  let s3 := set_mainCache (<[key := newNode]> (mainCache_ s2)) s2 in
  (true, addToFront newNode s3).

Definition updateNodeAccess (p : NodePtr) (s : ARCLRUPart) : bool * ARCLRUPart :=
  let s1 := incrementAccessCount p (moveToFront p s) in
  (bool_decide (transformThreshold_ s1 ≤ accessCount_ (node_at s1 p)), s1).

Definition lru_put (key : Key) (value : Value) (s : ARCLRUPart)
  : bool * ARCLRUPart :=
  if decide (capacity_ s = 0) then (false, s)
  else match mainCache_ s !! key with
       | Some p => updateExistingNode p value s
       | None => addNewNode key value s
       end.

(** [bool get(Key &key, Value &value, bool &shouldTransform)]: flag, then
    the contents of the two out-parameters. *)
Definition lru_get (key : Key) (value : Value) (shouldTransform : bool)
    (s : ARCLRUPart) : bool * Value * bool * ARCLRUPart :=
  match mainCache_ s !! key with
  | Some p =>
      let '(t, s1) := updateNodeAccess p s in
      (true, value_ (node_at s1 p), t, s1)
  | None => (false, value, shouldTransform, s)
  end.

Definition lru_checkGhost (key : Key) (s : ARCLRUPart) : bool * ARCLRUPart :=
  match ghostCache_ s !! key with
  | Some p =>
      let s1 := removeFromGhost p s in
      (true, set_ghostCache (delete key (ghostCache_ s1)) s1)
  | None => (false, s)
  end.

Definition lru_increaseCapacity (s : ARCLRUPart) : ARCLRUPart :=
  set_capacity (size_t_succ (capacity_ s)) s.

Definition lru_decreaseCapacity (s : ARCLRUPart) : bool * ARCLRUPart :=
  if decide (capacity_ s ≤ 0) then (false, s)
  else
    let s1 := if decide (Z.of_nat (size (mainCache_ s)) = capacity_ s)
              then evictLeastRecent s else s in
    (true, set_capacity (size_t_pred (capacity_ s1)) s1).

(** Keys of the nodes linked in a list. *)
Definition keys_of (s : ARCLRUPart) (l : list NodePtr) : list Key :=
  (λ p, key_ (node_at s p)) <$> l.

(** Workloads on the public interface of [ARCLRUPart]. *)
Inductive lru_op :=
  | LruPut (key : Key) (value : Value)
  | LruGet (key : Key)
  | LruCheckGhost (key : Key)
  | LruIncreaseCapacity
  | LruDecreaseCapacity.

Definition lru_exec (o : lru_op) (s : ARCLRUPart) : ARCLRUPart :=
  match o with
  | LruPut k v => (lru_put k v s).2
  | LruGet k => (lru_get k default_ctor false s).2
  | LruCheckGhost k => (lru_checkGhost k s).2
  | LruIncreaseCapacity => lru_increaseCapacity s
  | LruDecreaseCapacity => (lru_decreaseCapacity s).2
  end.

Definition lru_run (ops : list lru_op) (s : ARCLRUPart) : ARCLRUPart :=
  foldl (λ s o, lru_exec o s) s ops.

(** Every node the main index points to is allocated, and the threshold
    is the one given to the constructor. *)
Definition ARCLRUok (T : Z) (s : ARCLRUPart) : Prop :=
  transformThreshold_ s = T ∧
  ∀ k p, mainCache_ s !! k = Some p → (p < length (nodes s))%nat.

(** Modelled from the spec: the frequency half [ARCLFUPart]
    (ARCCache/ARCLFUPart.h is not part of the sources).  Section 4.5: a
    real list T2 that behaves as an LRU list with an access counter, most
    recent first, and a ghost list B2 of keys; an overflow evicts the
    least recent entry into the ghost list, evicting the oldest ghost
    when the ghost list is full; a hit on a ghost removes it; a capacity
    decrease is rejected at capacity 0 and evicts when the list is full. *)
Record ARCLFUPart := mkARCLFUPart {
  lfu_capacity_ : Z;
  lfu_ghostCapacity_ : Z;
  lfu_transformThreshold_ : Z;
  lfu_main : list (Key * (Value * Z));
  lfu_ghost : list Key
}.


(** Modelled from the spec: eviction of the least recent real entry of
    the frequency half into its ghost list (section 4.5.4). *)
Definition lfu_evict (s : ARCLFUPart) : ARCLFUPart :=
  match last (lfu_main s) with
  | None => s
  | Some (k, _) =>
      let ghost := if decide (lfu_ghostCapacity_ s ≤ Z.of_nat (length (lfu_ghost s)))
                   then removelast (lfu_ghost s) else lfu_ghost s in
      mkARCLFUPart (lfu_capacity_ s) (lfu_ghostCapacity_ s)
        (lfu_transformThreshold_ s) (removelast (lfu_main s)) (k :: ghost)
  end.

(** Modelled from the spec: [put] of the frequency half (section 4.5.2);
    the flag tells whether the entry was stored. *)
Definition lfu_put (key : Key) (value : Value) (s : ARCLFUPart)
  : bool * ARCLFUPart :=
  if decide (lfu_capacity_ s = 0) then (false, s)
  else
    let rest := filter (λ e, e.1 ≠ key) (lfu_main s) in
    match list_find (λ e, e.1 = key) (lfu_main s) with
    | Some (_, (_, (_, c))) =>
        (true, mkARCLFUPart (lfu_capacity_ s) (lfu_ghostCapacity_ s)
                 (lfu_transformThreshold_ s) ((key, (value, c)) :: rest)
                 (lfu_ghost s))
    | None =>
        let s1 := if decide (lfu_capacity_ s ≤ Z.of_nat (length (lfu_main s)))
                  then lfu_evict s else s in
        (true, mkARCLFUPart (lfu_capacity_ s1) (lfu_ghostCapacity_ s1)
                 (lfu_transformThreshold_ s1) ((key, (value, 1)) :: lfu_main s1)
                 (lfu_ghost s1))
    end.

(** Modelled from the spec: [get] of the frequency half (section 4.5.1,
    step 3): a hit moves the entry to the most recent end and counts the
    access. *)
Definition lfu_get (key : Key) (value : Value) (s : ARCLFUPart)
  : bool * Value * ARCLFUPart :=
  match list_find (λ e, e.1 = key) (lfu_main s) with
  | Some (_, (_, (v, c))) =>
      (true, v, mkARCLFUPart (lfu_capacity_ s) (lfu_ghostCapacity_ s)
                  (lfu_transformThreshold_ s)
                  ((key, (v, size_t_succ c)) :: filter (λ e, e.1 ≠ key) (lfu_main s))
                  (lfu_ghost s))
  | None => (false, value, s)
  end.

(** Modelled from the spec: a hit on a ghost removes that ghost (I5). *)
Definition lfu_checkGhost (key : Key) (s : ARCLFUPart) : bool * ARCLFUPart :=
  if decide (key ∈ lfu_ghost s)
  then (true, mkARCLFUPart (lfu_capacity_ s) (lfu_ghostCapacity_ s)
                (lfu_transformThreshold_ s) (lfu_main s)
                (filter (λ k, k ≠ key) (lfu_ghost s)))
  else (false, s).

(** Modelled from the spec: capacity growth of the frequency half. *)
Definition lfu_increaseCapacity (s : ARCLFUPart) : ARCLFUPart :=
  mkARCLFUPart (size_t_succ (lfu_capacity_ s)) (lfu_ghostCapacity_ s)
    (lfu_transformThreshold_ s) (lfu_main s) (lfu_ghost s).

(** Modelled from the spec: capacity decrease of the frequency half
    (section 4.5.3): rejected at capacity 0, otherwise an eviction when
    the real list is full, then the decrement. *)
Definition lfu_decreaseCapacity (s : ARCLFUPart) : bool * ARCLFUPart :=
  if decide (lfu_capacity_ s ≤ 0) then (false, s)
  else
    let s1 := if decide (Z.of_nat (length (lfu_main s)) = lfu_capacity_ s)
              then lfu_evict s else s in
    (true, mkARCLFUPart (size_t_pred (lfu_capacity_ s1)) (lfu_ghostCapacity_ s1)
             (lfu_transformThreshold_ s1) (lfu_main s1) (lfu_ghost s1)).

(** [ARCCache] *)
Record ARCCache := mkARCCache {
  arc_capacity_ : Z;
  arc_transformThreshold_ : Z;
  lruPart_ : ARCLRUPart;
  lfuPart_ : ARCLFUPart
}.


Definition with_parts (l : ARCLRUPart) (f : ARCLFUPart) (s : ARCCache) : ARCCache :=
  mkARCCache (arc_capacity_ s) (arc_transformThreshold_ s) l f.

Definition checkGhostCaches (key : Key) (s : ARCCache) : bool * ARCCache :=
  let '(inLru, l1) := lru_checkGhost key (lruPart_ s) in
  if inLru then
    let '(ok, f1) := lfu_decreaseCapacity (lfuPart_ s) in
    (true, with_parts (if ok then lru_increaseCapacity l1 else l1) f1 s)
  else
    let '(inLfu, f1) := lfu_checkGhost key (lfuPart_ s) in
    if inLfu then
      let '(ok, l2) := lru_decreaseCapacity l1 in
      (true, with_parts l2 (if ok then lfu_increaseCapacity f1 else f1) s)
    else (false, with_parts l1 f1 s).

Definition put (key : Key) (value : Value) (s : ARCCache) : ARCCache :=
  let '(inGhost, s1) := checkGhostCaches key s in
  let '(stored, l1) := lru_put key value (lruPart_ s1) in
  if negb inGhost && stored
  then with_parts l1 (lfu_put key value (lfuPart_ s1)).2 s1
  else with_parts l1 (lfuPart_ s1) s1.

(** [bool get(Key key, Value &value)] *)
Definition get_ref (key : Key) (value : Value) (s : ARCCache)
  : bool * Value * ARCCache :=
  let '(_, s1) := checkGhostCaches key s in
  let '(hit, v1, shouldTransform, l1) := lru_get key value false (lruPart_ s1) in
  if hit then
    (true, v1,
     with_parts l1 (if shouldTransform then (lfu_put key v1 (lfuPart_ s1)).2
                    else lfuPart_ s1) s1)
  else
    let '(hit2, v2, f1) := lfu_get key v1 (lfuPart_ s1) in
    (hit2, v2, with_parts l1 f1 s1).

(** Workloads on the public interface. *)
Inductive op := Put (key : Key) (value : Value) | Get (key : Key).

Definition exec (o : op) (s : ARCCache) : ARCCache :=
  match o with
  | Put k v => put k v s
  | Get k => (get_ref k default_ctor s).2
  end.

Definition run (ops : list op) (s : ARCCache) : ARCCache :=
  foldl (λ s o, exec o s) s ops.



End ARC.
End ARC.

(* ================================================================== *)
(** * Scenario states *)

(** The state of the failing input of C3 and C4: capacity 1,
    [maxAverageNum] 252, [put(A, 1)] and 252 times [get(A)]. *)
Definition LFU_aged_to_127 : option (LFU.LFUCache (Key:=string) (Value:=Z)) :=
  s ← LFU.put "A"%string 1 (LFU.LFUCache_new 1 252); LFU.get_n 252 "A"%string s.

(** Capacity 2, [maxAverageNum] 300: [put("", 1)], [put("a", 2)], 289 times
    [get("a")] and 311 times [get("")].  The key [""] is the key of the
    sentinels of every list, which are built by [Node()]. *)
Definition LFU_default_key_cached : option (LFU.LFUCache (Key:=string) (Value:=Z)) :=
  s ← LFU.put ""%string 1 (LFU.LFUCache_new 2 300);
  s ← LFU.put "a"%string 2 s;
  s ← LFU.get_n 289 "a"%string s;
  LFU.get_n 311 ""%string s.


(* ================================================================== *)
(** * Facts about lists and integer conversions *)

Section ListFacts.
Context {A : Type} `{EqDecision A}.
Implicit Types (l tr : list A) (k x : A) (n : nat).

Lemma elem_of_distinct_recent tr x : x ∈ distinct_recent tr ↔ x ∈ tr.
Proof.
  induction tr as [|k t IH]; simpl; [done|].
  rewrite !elem_of_cons, list_elem_of_filter, IH.
  destruct (decide (x = k)); tauto.
Qed.

Lemma NoDup_distinct_recent tr : NoDup (distinct_recent tr).
Proof.
  induction tr as [|k t IH]; simpl; [constructor|].
  constructor.
  - rewrite list_elem_of_filter. tauto.
  - by apply NoDup_filter.
Qed.

Lemma filter_ne_notin l k : k ∉ l → filter (λ x, x ≠ k) l = l.
Proof.
  induction l as [|x l IH]; [done|].
  rewrite not_elem_of_cons. intros [Hx Hl].
  rewrite filter_cons_True by congruence. by rewrite IH.
Qed.

Lemma take_filter_notin n l k :
  k ∉ take n l → take n (filter (λ x, x ≠ k) l) = take n l.
Proof.
  revert n. induction l as [|x l IH]; intros [|n]; simpl; try done.
  rewrite not_elem_of_cons. intros [Hx Hl].
  rewrite filter_cons_True by congruence. simpl. by rewrite IH.
Qed.

Lemma filter_take_in n l k :
  NoDup l → k ∈ take n l →
  filter (λ x, x ≠ k) (take n l) = take (pred n) (filter (λ x, x ≠ k) l).
Proof.
  revert n. induction l as [|x l IH]; intros [|n] Hnd; simpl;
    try (by rewrite ?elem_of_nil).
  apply NoDup_cons in Hnd as [Hx Hnd].
  rewrite elem_of_cons. intros Hk.
  destruct (decide (x = k)) as [->|Hne].
  - rewrite !filter_cons_False by tauto.
    rewrite !filter_ne_notin; [done|done|].
    intros Hin. apply Hx. by apply (subseteq_take n l).
  - destruct Hk as [->|Hk]; [done|].
    rewrite !filter_cons_True by done.
    rewrite IH by done.
    destruct n as [|n]; [by rewrite take_0, elem_of_nil in Hk|done].
Qed.

Lemma reverse_take_S n l x r :
  reverse (take (S n) l) = x :: r → length (take (S n) l) = S n →
  r = reverse (take n l).
Proof.
  intros Hr Hlen. rewrite length_take in Hlen.
  destruct (lookup_lt_is_Some_2 l n) as [y Hy]; [lia|].
  rewrite (take_S_r _ _ _ Hy), reverse_snoc in Hr. congruence.
Qed.

Lemma take_pred_short n l :
  (length (take (S n) l) < S n)%nat → take n l = take (S n) l.
Proof.
  rewrite length_take. intros Hlt.
  rewrite !take_ge by lia. done.
Qed.
End ListFacts.

Lemma fmap_unlink {B} `{EqDecision B} (f : NodePtr → B) p (l : list NodePtr) :
  (∀ q, q ∈ l → f q = f p → q = p) →
  f <$> unlink p l = filter (λ x, x ≠ f p) (f <$> l).
Proof.
  unfold unlink. induction l as [|q l IH]; intros Hinj; [done|].
  rewrite fmap_cons.
  destruct (decide (q = p)) as [->|Hne].
  - rewrite !filter_cons_False by tauto.
    apply IH. intros q' Hq'. apply Hinj. by right.
  - rewrite !filter_cons_True.
    + rewrite fmap_cons, IH; [done|]. intros q' Hq'. apply Hinj. by right.
    + intros Hf. apply Hne, Hinj; [by left|done].
    + done.
Qed.

Lemma elem_of_unlink p q (l : list NodePtr) : q ∈ unlink p l ↔ q ∈ l ∧ q ≠ p.
Proof. unfold unlink. rewrite list_elem_of_filter. tauto. Qed.

Lemma NoDup_unlink p (l : list NodePtr) : NoDup l → NoDup (unlink p l).
Proof. apply NoDup_filter. Qed.

Lemma length_unlink_in p (l : list NodePtr) :
  NoDup l → p ∈ l → S (length (unlink p l)) = length l.
Proof.
  unfold unlink. induction l as [|q l IH]; intros Hnd Hin.
  - by apply elem_of_nil in Hin.
  - apply NoDup_cons in Hnd as [Hq Hnd].
    destruct (decide (q = p)) as [->|Hne].
    + rewrite filter_cons_False by tauto.
      simpl. f_equal.
      assert (filter (λ q, q ≠ p) l = l) as ->; [|done].
      clear IH Hnd Hin. induction l as [|x l IH]; [done|].
      apply not_elem_of_cons in Hq as [? ?].
      rewrite filter_cons_True by done. by rewrite IH.
    + apply elem_of_cons in Hin as [->|Hin]; [done|].
      rewrite filter_cons_True by done. simpl. by rewrite IH.
Qed.

Lemma unlink_head p (l : list NodePtr) : p ∉ l → unlink p (p :: l) = l.
Proof.
  intros Hp. unfold unlink. rewrite filter_cons_False by tauto.
  induction l as [|x l IH]; [done|].
  apply not_elem_of_cons in Hp as [? ?].
  rewrite filter_cons_True by done. by rewrite IH.
Qed.


Lemma to_size_t_small z : 0 ≤ z < 2 ^ 64 → to_size_t z = z.
Proof. intros. unfold to_size_t. by rewrite Z.mod_small. Qed.

Lemma to_int_small z : - 2 ^ 31 ≤ z < 2 ^ 31 → to_int z = z.
Proof. intros. unfold to_int. rewrite Z.mod_small by lia. lia. Qed.

Lemma to_size_t_int_nonzero c : - 2 ^ 31 ≤ c < 2 ^ 31 → c ≠ 0 → to_size_t c ≠ 0.
Proof.
  intros Hc Hne. unfold to_size_t. destruct (decide (0 ≤ c)).
  - rewrite Z.mod_small by lia. done.
  - rewrite <- (Z.mod_unique c (2 ^ 64) (-1) (c + 2 ^ 64)); lia.
Qed.


(* ================================================================== *)
(** * LRUCache *)

Section LRUFacts.
Context {Key Value : Type} `{Countable Key}.
Context `{DefaultCtor Key} `{DefaultCtor Value}.
Import LRU.
Implicit Types (s : LRUCache (Key:=Key) (Value:=Value)) (k : Key) (v : Value).
Implicit Types (p q : NodePtr) (tr : list Key) (C : Z).

Lemma key_setValue p v s q :
  key_ (node_at (setValue p v s) q) = key_ (node_at s q).
Proof.
  unfold node_at, setValue; simpl.
  destruct (decide (q = p)) as [->|Hne].
  - destruct (decide (p < length (nodes s))%nat).
    + rewrite list_lookup_insert_eq by done. done.
    + rewrite list_insert_ge by lia. done.
  - rewrite list_lookup_insert_ne by done. done.
Qed.

Lemma value_setValue p v s :
  (p < length (nodes s))%nat → value_ (node_at (setValue p v s) p) = v.
Proof.
  intros Hp. unfold node_at, setValue; simpl.
  by rewrite list_lookup_insert_eq.
Qed.

Lemma chain_keys_setValue p v s : chain_keys (setValue p v s) = chain_keys s.
Proof.
  unfold chain_keys; simpl.
  apply list_fmap_ext. intros i q _. apply key_setValue.
Qed.

Lemma LRUwf_setValue s p v : LRUwf s → LRUwf (setValue p v s).
Proof.
  intros [Hnd Hm Ha Hsz]. split; simpl; try done.
  - intros k q. rewrite key_setValue. apply Hm.
  - intros q Hq. rewrite length_insert. by apply Ha.
Qed.

Lemma LRUwf_notin s k :
  LRUwf s → nodeMap_ s !! k = None → k ∉ chain_keys s.
Proof.
  intros Hwf Hnone Hin. unfold chain_keys in Hin.
  apply list_elem_of_fmap in Hin as (q & Hq & Hin).
  assert (nodeMap_ s !! k = Some q) as Hs by (by apply (wf_map _ Hwf)).
  congruence.
Qed.

Lemma LRUwf_moveToMostRecent s k p :
  LRUwf s → nodeMap_ s !! k = Some p →
  LRUwf (moveToMostRecent p s) ∧
  chain_keys (moveToMostRecent p s) = filter (λ x, x ≠ k) (chain_keys s) ++ [k].
Proof.
  intros Hwf Hkp. pose proof Hwf as [Hnd Hm Ha Hsz].
  apply Hm in Hkp as Hp. destruct Hp as [Hpin Hpk].
  split; [split; simpl; try done|].
  - apply NoDup_app. split_and!.
    + by apply NoDup_unlink.
    + intros q Hq Hq'. apply elem_of_unlink in Hq as [_ Hne].
      apply list_elem_of_singleton in Hq'. done.
    + apply NoDup_singleton.
  - intros k' q. rewrite Hm, elem_of_app, elem_of_unlink, list_elem_of_singleton.
    destruct (decide (q = p)) as [->|]; tauto.
  - intros q. rewrite elem_of_app, elem_of_unlink, list_elem_of_singleton.
    intros [[? _]| ->]; by apply Ha.
  - rewrite length_app; simpl. rewrite Hsz.
    rewrite <- (length_unlink_in p (chain s)) by done. lia.
  - unfold chain_keys, moveToMostRecent, insertNode, removeNode, node_at.
    simpl. rewrite fmap_app. simpl. fold (node_at s p). rewrite Hpk.
    f_equal. rewrite <- Hpk. unfold node_at.
    apply (fmap_unlink (λ q, key_ (default _ (nodes s !! q)))).
    intros q Hq Heq. apply (inj Some). rewrite <- Hkp.
    symmetry. apply Hm. split; [done|]. unfold node_at in *. by rewrite Heq.
Qed.

Lemma LRUwf_evictLeastRecent s p0 rest :
  LRUwf s → chain s = p0 :: rest →
  ∃ s1, evictLeastRecent s = Some s1 ∧ LRUwf s1 ∧
    capacity_ s1 = capacity_ s ∧
    chain_keys s = key_ (node_at s p0) :: chain_keys s1 ∧
    nodeMap_ s1 = delete (key_ (node_at s p0)) (nodeMap_ s) ∧
    S (length (chain s1)) = length (chain s).
Proof.
  intros [Hnd Hm Ha Hsz] Hch. unfold evictLeastRecent. rewrite Hch.
  eexists; split; [done|].
  rewrite Hch in Hnd. apply NoDup_cons in Hnd as [Hp0 Hnd].
  assert (nodeMap_ s !! key_ (node_at s p0) = Some p0) as Hk0.
  { apply Hm. rewrite Hch. split; [by left|done]. }
  unfold removeNode; simpl. rewrite Hch, unlink_head by done.
  unfold chain_keys, node_at in *; simpl.
  split_and!; try done.
  - split; simpl; try done.
    + intros k q. unfold node_at; simpl. rewrite lookup_delete. case_decide as Hd.
      * split; [done|]. intros [Hq Hkq]. exfalso. apply Hp0.
        assert (Some q = Some p0) as [= ->]; [|done].
        rewrite <- Hk0. symmetry. apply Hm. rewrite Hch. split; [by right|congruence].
      * rewrite Hm, Hch, elem_of_cons. split; [|tauto].
        intros [[->|?] Hkq]; [congruence|done].
    + intros q Hq. apply Ha. rewrite Hch. by right.
    + rewrite map_size_delete_Some by eauto. rewrite Hsz, Hch. done.
  - by rewrite Hch.
Qed.

(** The tail of [addNewNode]: allocation, linking, indexing. *)
Lemma LRUwf_link_new s k v :
  LRUwf s → nodeMap_ s !! k = None →
  let p := length (nodes s) in
  let s' := mkLRUCache (capacity_ s) (<[k := p]> (nodeMap_ s))
              (chain s ++ [p]) (nodes s ++ [LRUNode_new k v]) in
  LRUwf s' ∧ chain_keys s' = chain_keys s ++ [k] ∧
  node_at s' p = LRUNode_new k v.
Proof.
  intros Hwf Hnone p s'. pose proof Hwf as [Hnd Hm Ha Hsz].
  assert (Hnew : node_at s' p = LRUNode_new k v).
  { unfold node_at, s', p; simpl.
    rewrite lookup_app_r, Nat.sub_diag by lia. done. }
  assert (Hold : ∀ q, q ∈ chain s → node_at s' q = node_at s q).
  { intros q Hq. unfold node_at, s'; simpl.
    rewrite lookup_app_l by (by apply Ha). done. }
  assert (Hfresh : p ∉ chain s).
  { intros Hin. apply Ha in Hin. unfold p in Hin. lia. }
  split_and!; [split; simpl|..]; try done.
  - apply NoDup_app. split_and!; [done| |apply NoDup_singleton].
    intros q Hq Hq'. apply list_elem_of_singleton in Hq'. by subst q.
  - intros k' q. rewrite elem_of_app, list_elem_of_singleton.
    rewrite lookup_insert. case_decide as Hd.
    + subst k'. split.
      * intros [= <-]. rewrite Hnew. split; [by right|done].
      * intros [[Hq| ->] Hkq]; [|done].
        rewrite Hold in Hkq by done.
        assert (nodeMap_ s !! k = Some q) by (by apply Hm). congruence.
    + rewrite Hm. split.
      * intros [Hq Hkq]. rewrite Hold by done. tauto.
      * intros [[Hq| ->] Hkq].
        -- rewrite Hold in Hkq by done. done.
        -- rewrite Hnew in Hkq. simpl in Hkq. congruence.
  - intros q. rewrite elem_of_app, list_elem_of_singleton, length_app; simpl.
    intros [Hq| ->]; [apply Ha in Hq|unfold p]; lia.
  - rewrite map_size_insert_None by done. rewrite length_app, Hsz; simpl. lia.
  - unfold chain_keys. change (chain s') with (chain s ++ [p]).
    rewrite fmap_app; simpl. rewrite Hnew; simpl. f_equal.
    apply list_fmap_ext. intros i q Hq. rewrite Hold; [done|].
    by eapply list_elem_of_lookup_2.
Qed.

Lemma LRUwf_new C : LRUwf (LRUCache_new (Key:=Key) (Value:=Value) C).
Proof.
  split; simpl.
  - constructor.
  - intros k p. rewrite lookup_empty, elem_of_nil. split; [done|tauto].
  - intros p Hp. by apply elem_of_nil in Hp.
  - apply map_size_empty.
Qed.

Lemma LRUInv_new C : LRUInv C [] (LRUCache_new (Key:=Key) (Value:=Value) C).
Proof.
  split_and!; [done|apply LRUwf_new|].
  simpl. by rewrite take_nil.
Qed.

Lemma LRUInv_length C tr s :
  0 ≤ C → LRUInv C tr s → Z.of_nat (length (chain s)) ≤ C.
Proof.
  intros HC (_ & _ & Hk).
  assert (length (chain s) = length (chain_keys s)) as ->
    by (unfold chain_keys; by rewrite length_fmap).
  rewrite Hk, length_reverse, length_take. lia.
Qed.

Lemma LRUInv_hit C tr s k p :
  1 ≤ C → LRUInv C tr s → nodeMap_ s !! k = Some p →
  LRUInv C (k :: tr) (moveToMostRecent p s).
Proof.
  intros HC (Hc & Hwf & Hk) Hkp.
  destruct (LRUwf_moveToMostRecent s k p Hwf Hkp) as [Hwf' Hk'].
  split_and!; [done..|]. rewrite Hk', Hk.
  destruct (Z.to_nat C) as [|c] eqn:HeqC; [lia|]. simpl.
  rewrite reverse_cons. f_equal.
  rewrite filter_reverse. f_equal.
  rewrite filter_take_in; [done|apply NoDup_distinct_recent|].
  apply elem_of_reverse. rewrite <- Hk. unfold chain_keys.
  apply (wf_map _ Hwf) in Hkp as [Hp Hpk].
  apply list_elem_of_fmap. by exists p.
Qed.

Lemma LRUInv_addNewNode C tr s k v :
  1 ≤ C < 2 ^ 64 → LRUInv C tr s → nodeMap_ s !! k = None →
  ∃ s', addNewNode k v s = Some s' ∧ LRUInv C (k :: tr) s' ∧
    ∃ p, nodeMap_ s' !! k = Some p ∧ value_ (node_at s' p) = v.
Proof.
  intros HC Hinv Hnone. pose proof Hinv as (Hc & Hwf & Hk).
  pose proof (LRUInv_length C tr s ltac:(lia) Hinv) as Hlen.
  pose proof (LRUwf_notin s k Hwf Hnone) as Hnotin.
  assert (Hklen : length (chain_keys s) = length (chain s))
    by (unfold chain_keys; by rewrite length_fmap).
  destruct (Z.to_nat C) as [|c] eqn:HeqC; [lia|].
  assert (Htake : k ∉ take c (distinct_recent tr)).
  { intros Hin. apply Hnotin. rewrite Hk. apply elem_of_reverse.
    apply elem_of_take in Hin as (i & Hi & Hlt).
    apply elem_of_take. exists i. split; [done|lia]. }
  unfold addNewNode, to_size_t. rewrite Hc, Z.mod_small by lia.
  rewrite (wf_size _ Hwf).
  assert (∃ s1, (if decide (C ≤ Z.of_nat (length (chain s)))
                 then evictLeastRecent s else Some s) = Some s1 ∧
            LRUwf s1 ∧ capacity_ s1 = C ∧ nodeMap_ s1 !! k = None ∧
            chain_keys s1 = reverse (take c (distinct_recent tr)))
    as (s1 & -> & Hwf1 & Hc1 & Hnone1 & Hk1).
  { case_decide as Hfull.
    - destruct (chain s) as [|p0 rest] eqn:Hch; [simpl in *; lia|].
      destruct (LRUwf_evictLeastRecent s p0 rest Hwf Hch)
        as (s1 & He & Hwf1 & Hc1 & Hks & Hm1 & Hl1).
      exists s1. split_and!; [done|done|congruence| |].
      + rewrite Hm1, lookup_delete. by case_decide.
      + rewrite Hks in Hk. eapply reverse_take_S; [by rewrite <- Hk|].
        rewrite <- (length_reverse (take _ _)), <- Hk. simpl.
        rewrite Hks in Hklen. simpl in *. lia.
    - exists s. split_and!; try done.
      rewrite Hk. f_equal. symmetry. apply take_pred_short.
      rewrite <- (length_reverse (take _ _)), <- Hk. lia. }
  destruct (LRUwf_link_new s1 k v Hwf1 Hnone1) as (Hwf' & Hk' & Hnew).
  eexists. split; [reflexivity|].
  unfold insertNode; simpl. split.
  - split_and!; [done|exact Hwf'|].
    etrans; [exact Hk'|]. rewrite Hk1. simpl. rewrite HeqC. simpl. rewrite reverse_cons.
    by rewrite take_filter_notin.
  - exists (length (nodes s1)). split; [simpl; by rewrite lookup_insert_eq|].
    etrans; [exact (f_equal value_ Hnew)|done].
Qed.

Lemma LRUInv_put C tr s k v :
  1 ≤ C < 2 ^ 64 → LRUInv C tr s →
  ∃ s', put k v s = Some s' ∧ LRUInv C (k :: tr) s' ∧
    ∃ p, nodeMap_ s' !! k = Some p ∧ value_ (node_at s' p) = v.
Proof.
  intros HC Hinv. pose proof Hinv as (Hc & Hwf & Hk).
  unfold put. rewrite decide_False by lia.
  destruct (nodeMap_ s !! k) as [p|] eqn:Hkp.
  - eexists. split; [done|]. split.
    + unfold updateExistingNode. apply LRUInv_hit; [lia| |done].
      split_and!; [done|by apply LRUwf_setValue|by rewrite chain_keys_setValue].
    + exists p. split; [done|].
      change (node_at (updateExistingNode p v s) p)
        with (node_at (setValue p v s) p).
      apply value_setValue. apply (wf_alloc _ Hwf).
      apply (wf_map _ Hwf) in Hkp. tauto.
  - by apply LRUInv_addNewNode.
Qed.

Lemma LRUInv_exec C tr s o :
  1 ≤ C < 2 ^ 64 → LRUInv C tr s →
  ∃ s' t, exec o s = Some (s', t) ∧ LRUInv C (reverse t ++ tr) s'.
Proof.
  intros HC Hinv. destruct o as [k v|k]; simpl.
  - destruct (LRUInv_put C tr s k v HC Hinv) as (s' & -> & Hinv' & _).
    by exists s', [k].
  - unfold get_ref. destruct (nodeMap_ s !! k) as [p|] eqn:Hkp.
    + eexists _, _. split; [done|]. apply LRUInv_hit; [lia|done..].
    + by exists s, [].
Qed.

Lemma LRUInv_run C ops : ∀ tr s,
  1 ≤ C < 2 ^ 64 → LRUInv C tr s →
  ∃ s' t, run ops s = Some (s', t) ∧ LRUInv C (reverse t ++ tr) s'.
Proof.
  induction ops as [|o ops IH]; intros tr s HC Hinv; simpl.
  - by exists s, [].
  - destruct (LRUInv_exec C tr s o HC Hinv) as (s1 & t1 & -> & Hinv1).
    simpl.
    destruct (IH _ s1 HC Hinv1) as (s2 & t2 & -> & Hinv2).
    exists s2, (t1 ++ t2). split; [done|].
    by rewrite reverse_app, <- (assoc_L (++)).
Qed.

Lemma LRUwf_dom s : LRUwf s → dom (nodeMap_ s) = list_to_set (chain_keys s).
Proof.
  intros Hwf. apply set_eq. intros k.
  rewrite elem_of_dom, elem_of_list_to_set. unfold chain_keys, is_Some.
  rewrite list_elem_of_fmap. split.
  - intros [p Hp]. apply (wf_map _ Hwf) in Hp as [? ?]. by exists p.
  - intros (p & -> & Hp). exists p. by apply (wf_map _ Hwf).
Qed.

(** C1. After any workload of [put] and [get] on an [LRUCache] of capacity
    [C >= 1], the run completes, the index holds at most [C] keys, and its
    keys are exactly the last [C] distinct keys touched by a [put] or by a
    [get] that hit (all of them when fewer than [C] were touched). *)
Theorem LRU_index_is_last_distinct (C : Z) (ops : list (op (Key:=Key) (Value:=Value))) :
  1 ≤ C < 2 ^ 31 →
  ∃ s touched,
    run ops (LRUCache_new C) = Some (s, touched) ∧
    Z.of_nat (size (nodeMap_ s)) ≤ C ∧
    dom (nodeMap_ s) = list_to_set (last_distinct (Z.to_nat C) touched) ∧
    size (nodeMap_ s) = length (last_distinct (Z.to_nat C) touched).
Proof.
  intros HC.
  destruct (LRUInv_run C ops [] (LRUCache_new C) ltac:(lia) (LRUInv_new C))
    as (s & t & Hrun & Hinv).
  exists s, t. split; [done|].
  rewrite app_nil_r in Hinv. pose proof Hinv as (Hc & Hwf & Hk).
  rewrite (wf_size _ Hwf). split_and!.
  - apply (LRUInv_length C (reverse t) s); [lia|done].
  - rewrite (LRUwf_dom s Hwf), Hk. unfold last_distinct.
    apply set_eq. intros k. by rewrite !elem_of_list_to_set, elem_of_reverse.
  - unfold last_distinct. rewrite <- (length_reverse (take _ _)), <- Hk.
    unfold chain_keys. by rewrite length_fmap.
Qed.

(** A [put] followed by a [get] of the same key on a well-formed cache. *)
Lemma LRU_put_get C tr s k v d :
  1 ≤ C < 2 ^ 64 → LRUInv C tr s →
  ∃ s1, put k v s = Some s1 ∧ LRUInv C (k :: tr) s1 ∧
    (get_ref k d s1).1 = (true, v).
Proof.
  intros HC Hinv.
  destruct (LRUInv_put C tr s k v HC Hinv) as (s1 & Hput & Hinv1 & p & Hkp & Hv).
  exists s1. split_and!; [done|done|].
  unfold get_ref. rewrite Hkp. cbn. f_equal. exact Hv.
Qed.

(** Supporting fact for C2 (the part that holds): with a capacity of 0 or
    less every [put] of an [LRUCache] returns at once and every [get]
    misses, so a workload leaves the empty cache as it is. *)
Lemma LRU_nonpositive_capacity_noop C (ops : list (op (Key:=Key) (Value:=Value))) k d :
  C ≤ 0 →
  (∃ t, run ops (LRUCache_new C) = Some (LRUCache_new C, t)) ∧
  get_ref k d (LRUCache_new C) = (false, d, LRUCache_new C).
Proof.
  intros HC. split; [|done].
  induction ops as [|[k' v'|k'] ops [t IH]]; cbn [run].
  - by eexists.
  - cbn [exec]. unfold put. cbn [capacity_ LRUCache_new].
    rewrite decide_True by done. cbn [mbind option_bind].
    rewrite IH. cbn. by eexists.
  - cbn [exec]. unfold get_ref. cbn [nodeMap_ LRUCache_new].
    rewrite lookup_empty. cbn [mbind option_bind].
    rewrite IH. cbn. by eexists.
Qed.
End LRUFacts.

Section LRUScenario.
Context {Key : Type} `{Countable Key} `{DefaultCtor Key}.
Import LRU.

(** C8. On an [LRUCache] of capacity 2, for distinct keys [A], [B], [C]:
    after [put(A,1); put(B,2); get(A); put(C,3)] the calls [get(B)],
    [get(A)], [get(C)] made in this order miss, hit with 1 and hit with
    3: the [put] of [C] evicted [B]. *)
Theorem LRU_eviction_order (A B C : Key) :
  A ≠ B → A ≠ C → B ≠ C →
  ∃ s1 s2 s4,
    put A 1 (LRUCache_new 2) = Some s1 ∧
    put B 2 s1 = Some s2 ∧
    put C 3 (get_ref A 0 s2).2 = Some s4 ∧
    let '(rB, s5) := get_ref B 0 s4 in
    let '(rA, s6) := get_ref A 0 s5 in
    let '(rC, _) := get_ref C 0 s6 in
    rB = (false, 0) ∧ rA = (true, 1) ∧ rC = (true, 3).
Proof.
  intros HAB HAC HBC.
  eexists _, _, _. split_and!.
  - unfold put, addNewNode; simpl. rewrite lookup_empty, map_size_empty.
    rewrite to_size_t_small by lia. simpl. reflexivity.
  - unfold put, addNewNode; simpl. rewrite lookup_insert_ne, lookup_empty by done.
    rewrite map_size_insert_None, map_size_empty by apply lookup_empty.
    rewrite to_size_t_small by lia. simpl. reflexivity.
  - unfold get_ref; simpl. rewrite lookup_insert_ne, lookup_insert_eq by done.
    unfold put, addNewNode; simpl.
    rewrite !lookup_insert_ne, lookup_empty by done.
    rewrite !map_size_insert_None, map_size_empty
      by (by rewrite ?lookup_insert_ne, lookup_empty).
    rewrite to_size_t_small by lia. simpl. reflexivity.
  - unfold get_ref; simpl.
    rewrite lookup_insert_ne, lookup_delete_eq by done. simpl.
    rewrite lookup_insert_ne, lookup_delete_ne, lookup_insert_ne,
      lookup_insert_eq by done.
    simpl. rewrite lookup_insert_eq. done.
Qed.
End LRUScenario.


(* ================================================================== *)
(** * LRUKCache *)

Section LRUKFacts.
Context {Key : Type} `{Countable Key} `{DefaultCtor Key}.
Import LRUK.

Lemma bumpHistory_first (Hc : Z) (A : Key) :
  1 ≤ Hc < 2 ^ 31 →
  bumpHistory A (LRU.LRUCache_new Hc) = Some (1, history_of Hc A 1).
Proof.
  intros HH. unfold bumpHistory, LRU.get, LRU.get_ref; simpl.
  rewrite lookup_empty. unfold default_ctor, Z_DefaultCtor.
  rewrite to_int_small by lia. simpl.
  unfold LRU.put, LRU.addNewNode; simpl.
  rewrite decide_False by lia. rewrite lookup_empty, map_size_empty.
  rewrite !to_size_t_small by lia. rewrite decide_False by lia. simpl.
  reflexivity.
Qed.

Lemma bumpHistory_next (Hc : Z) (A : Key) (n : Z) :
  1 ≤ Hc < 2 ^ 31 → 0 ≤ n < 2 ^ 31 - 1 →
  bumpHistory A (history_of Hc A n) = Some (n + 1, history_of Hc A (n + 1)).
Proof.
  intros HH Hn. unfold bumpHistory, LRU.get, LRU.get_ref; simpl.
  rewrite lookup_singleton_eq. simpl.
  rewrite to_int_small by lia.
  unfold LRU.put; simpl. rewrite decide_False by lia.
  rewrite lookup_singleton_eq. simpl.
  rewrite to_size_t_small by lia. reflexivity.
Qed.

Lemma get_keeps_main (k : Key) (s s' : LRUKCache) (v : string) :
  get k s = Some (v, s') →
  LRU.nodeMap_ (base s') = LRU.nodeMap_ (base s) ∧
  LRU.nodes (base s') = LRU.nodes (base s).
Proof.
  unfold get. destruct (bumpHistory k (historyList_ s)) as [[c h]|]; [|done].
  simpl. unfold LRU.get, LRU.get_ref.
  destruct (LRU.nodeMap_ (base s) !! k); intros [= <- <-]; done.
Qed.

(** C7 (amended). Threshold 3, main capacity 2, any history capacity of
    at least 1, starting empty, for any key [A] and non-empty values:
    after two [get(A)] the key is absent from the main cache; after the
    third [get(A)] it is still absent, since [get] only counts; the
    [put(A, v)] that follows two [get(A)] brings the count to 3 and
    admits [A] with [v]; a first and a second [put(A, v)] leave the count
    below 3 and do not admit [A]; and once [A] is present, a [put(A, w)]
    overwrites its value although the count is below 3 again. *)
Theorem LRUK_admission_by_put (A : Key) (v w : string) (Hc : Z) :
  1 ≤ Hc < 2 ^ 31 → v ≠ EmptyString →
  let s0 := LRUKCache_new 2 Hc 3 in
  (∃ s2, get_n 2 A s0 = Some s2 ∧ in_main A s2 = false) ∧
  (∃ s3, get_n 3 A s0 = Some s3 ∧ in_main A s3 = false) ∧
  (∃ s2 s3 s4, get_n 2 A s0 = Some s2 ∧ put A v s2 = Some s3 ∧
     in_main A s3 = true ∧ (LRU.get A (base s3)).1 = v ∧
     put A w s3 = Some s4 ∧
     in_main A s4 = true ∧ (LRU.get A (base s4)).1 = w ∧
     (LRU.get A (historyList_ s4)).1 = 1) ∧
  (∃ s1 s2, put A v s0 = Some s1 ∧ in_main A s1 = false ∧
     put A v s1 = Some s2 ∧ in_main A s2 = false).
Proof.
  intros HH Hv s0.
  assert (Hg1 : get A s0 = Some (EmptyString,
             mkLRUKCache (LRU.LRUCache_new 2) 3 (history_of Hc A 1))).
  { unfold get, s0; simpl. rewrite bumpHistory_first by done. simpl.
    unfold LRU.get, LRU.get_ref; simpl. rewrite lookup_empty. reflexivity. }
  assert (Hgn : ∀ n, 0 ≤ n < 2 ^ 31 - 1 →
            get A (mkLRUKCache (LRU.LRUCache_new 2) 3 (history_of Hc A n))
            = Some (EmptyString,
                mkLRUKCache (LRU.LRUCache_new 2) 3 (history_of Hc A (n + 1)))).
  { intros n Hn. unfold get; simpl. rewrite bumpHistory_next by done. simpl.
    unfold LRU.get, LRU.get_ref; simpl. rewrite lookup_empty. reflexivity. }
  assert (Hempty : ∀ h, in_main A (mkLRUKCache (LRU.LRUCache_new 2) 3 h) = false).
  { intros h. unfold in_main; simpl. rewrite lookup_empty.
    apply bool_decide_eq_false. by intros [? ?]. }
  assert (Hg2 : get_n 2 A s0 = Some
             (mkLRUKCache (LRU.LRUCache_new 2) 3 (history_of Hc A 2))).
  { simpl. rewrite Hg1. simpl. rewrite Hgn by lia. reflexivity. }
  split_and!.
  - eexists. split; [exact Hg2|apply Hempty].
  - eexists. split; [|apply Hempty].
    simpl. rewrite Hg1. simpl. rewrite Hgn by lia. simpl.
    rewrite Hgn by lia. reflexivity.
  - assert (Hlk : ({[A := 0%nat]} : gmap Key nat) !! A = Some 0%nat)
      by apply lookup_singleton_eq.
    assert (Hp3 : put A v (mkLRUKCache (LRU.LRUCache_new 2) 3 (history_of Hc A 2))
              = Some (mkLRUKCache
                        (LRU.mkLRUCache 2 {[A := 0%nat]} [0%nat]
                           [LRU.mkLRUNode A v 1])
                        3 (LRU.mkLRUCache Hc ∅ [] [LRU.mkLRUNode A 3 1]))).
    { unfold put; simpl. unfold LRU.get at 1, LRU.get_ref; simpl.
      rewrite lookup_empty. simpl.
      rewrite bumpHistory_next by lia. simpl.
      unfold LRU.put, LRU.addNewNode; simpl.
      rewrite lookup_empty, map_size_empty. rewrite to_size_t_small by lia. simpl.
      unfold LRU.remove, history_of; cbn [LRU.nodeMap_].
      rewrite Hlk. simpl.
      rewrite delete_singleton_eq, insert_empty. reflexivity. }
    set (b3 := LRU.mkLRUCache 2 {[A := 0%nat]} [0%nat] [LRU.mkLRUNode A v 1]) in *.
    set (h3 := LRU.mkLRUCache Hc (∅ : gmap Key nat) [] [LRU.mkLRUNode A 3 1]) in *.
    assert (Hget3 : LRU.get A b3 = (v, b3)).
    { unfold LRU.get, LRU.get_ref, b3. cbn [LRU.nodeMap_]. rewrite Hlk. reflexivity. }
    assert (Hput3 : LRU.put A w b3
              = Some (LRU.mkLRUCache 2 {[A := 0%nat]} [0%nat] [LRU.mkLRUNode A w 1])).
    { unfold LRU.put, b3. cbn [LRU.capacity_ LRU.nodeMap_].
      rewrite decide_False by lia. rewrite Hlk. reflexivity. }
    assert (Hbump3 : bumpHistory A h3
              = Some (1, LRU.mkLRUCache Hc {[A := 1%nat]} [1%nat]
                           [LRU.mkLRUNode A 3 1; LRU.mkLRUNode A 1 1])).
    { unfold bumpHistory, LRU.get, LRU.get_ref, h3. cbn [LRU.nodeMap_].
      rewrite lookup_empty. unfold default_ctor, Z_DefaultCtor.
      rewrite to_int_small by lia. cbn [Z.add].
      unfold LRU.put, LRU.addNewNode. cbn [LRU.capacity_ LRU.nodeMap_].
      rewrite decide_False by lia. rewrite lookup_empty, map_size_empty.
      rewrite !to_size_t_small by lia. rewrite decide_False by lia.
      cbn. rewrite insert_empty. reflexivity. }
    eexists _, _, _. split; [exact Hg2|]. split; [exact Hp3|].
    split; [unfold in_main, b3; cbn [base LRU.nodeMap_]; rewrite Hlk;
            apply bool_decide_eq_true; eauto|].
    split; [cbn [base]; by rewrite Hget3|].
    split.
    + unfold put. cbn [base historyList_ k_]. rewrite Hget3.
      rewrite decide_True by done. rewrite Hput3. cbn [mbind option_bind].
      rewrite Hbump3. cbn [mbind option_bind].
      rewrite decide_False by lia. reflexivity.
    + cbn [base historyList_]. split_and!.
      * unfold in_main. cbn [base LRU.nodeMap_]. rewrite Hlk.
        apply bool_decide_eq_true; eauto.
      * unfold LRU.get, LRU.get_ref. cbn [LRU.nodeMap_]. rewrite Hlk. reflexivity.
      * unfold LRU.get, LRU.get_ref. cbn [LRU.nodeMap_].
        rewrite lookup_singleton_eq. reflexivity.
  - assert (Hp1 : put A v s0 = Some
               (mkLRUKCache (LRU.LRUCache_new 2) 3 (history_of Hc A 1))).
    { unfold put, s0; simpl. unfold LRU.get at 1, LRU.get_ref; simpl.
      rewrite lookup_empty. simpl.
      simpl. rewrite bumpHistory_first by lia. simpl. reflexivity. }
    eexists _, _. split_and!; [exact Hp1|apply Hempty| |apply Hempty].
    unfold put; simpl. unfold LRU.get at 1, LRU.get_ref; simpl.
    rewrite lookup_empty. simpl.
    simpl. rewrite bumpHistory_next by lia. simpl. reflexivity.
Qed.
End LRUKFacts.


(* ================================================================== *)
(** * LFUCache *)

Section LFUFacts.
Context {Key Value : Type} `{Countable Key}.
Context `{DefaultCtor Key} `{DefaultCtor Value}.
Import LFU.
Implicit Types (s : LFUCache (Key:=Key) (Value:=Value)) (k : Key) (v : Value).
Implicit Types (p q : NodePtr) (f : Z).

Lemma lfu_frame_refl s : lfu_frame s s.
Proof. unfold lfu_frame. tauto. Qed.

Lemma lfu_frame_trans s1 s2 s3 :
  lfu_frame s1 s2 → lfu_frame s2 s3 → lfu_frame s1 s3.
Proof.
  intros (Hm & Hc & Ha & Hl & Hkv & Hd) (Hm' & Hc' & Ha' & Hl' & Hkv' & Hd').
  unfold lfu_frame. split_and!; try congruence.
  - intros q. destruct (Hkv q), (Hkv' q). split; congruence.
  - intros f Hf. by apply Hd', Hd.
Qed.

Lemma node_at_set_freq_eq p f s :
  (p < length (nodes s))%nat →
  node_at (set_freq p f s) p = mkNode f (key (node_at s p)) (value (node_at s p)).
Proof.
  intros Hp. unfold node_at, set_freq; simpl.
  by rewrite list_lookup_insert_eq.
Qed.

Lemma node_at_set_freq_ne p q f s :
  q ≠ p → node_at (set_freq p f s) q = node_at s q.
Proof.
  intros Hne. unfold node_at, set_freq; simpl.
  by rewrite list_lookup_insert_ne.
Qed.

Lemma node_at_set_value_eq p v s :
  (p < length (nodes s))%nat →
  node_at (set_value p v s) p = mkNode (freq (node_at s p)) (key (node_at s p)) v.
Proof.
  intros Hp. unfold node_at, set_value; simpl.
  by rewrite list_lookup_insert_eq.
Qed.

Lemma node_at_set_value_ne p q v s :
  q ≠ p → node_at (set_value p v s) q = node_at s q.
Proof.
  intros Hne. unfold node_at, set_value; simpl.
  by rewrite list_lookup_insert_ne.
Qed.

Lemma in_own_list_alloc s p :
  LFUok s → in_own_list s p → (p < length (nodes s))%nat.
Proof. intros Hok (l & Hl & Hp). by eapply (ok_alloc _ Hok). Qed.

(** Unlinking a node, giving it frequency [f'] and linking it again: the
    common core of a hit and of the aging of one node. *)
Lemma relink_ok s p f' :
  LFUok s → in_own_list s p → 1 ≤ f' →
  ∃ s1, removeFromFreqList p s = Some s1 ∧
    let s3 := addToFreqList p (set_freq p f' s1) in
    LFUok s3 ∧ lfu_frame s s3 ∧ in_own_list s3 p ∧
    freq (node_at s3 p) = f' ∧
    (∀ q, q ≠ p → node_at s3 q = node_at s q) ∧
    (∀ q, q ≠ p → in_own_list s q → in_own_list s3 q) ∧
    minFreq_ s3 = minFreq_ s ∧ curTotalNum_ s3 = curTotalNum_ s ∧
    curAverageNum_ s3 = curAverageNum_ s ∧
    (∀ f l, f ≠ f' → freqToFreqList_ s !! f = Some l →
            freqToFreqList_ s3 !! f = Some (unlink p l)).
Proof.
  intros Hok Hown Hf'. pose proof (in_own_list_alloc s p Hok Hown) as Halloc.
  destruct Hown as (l0 & Hl0 & Hpl0).
  unfold removeFromFreqList. rewrite Hl0.
  eexists. split; [reflexivity|]. cbv zeta.
  set (s1 := set_lists (unlink p <$> freqToFreqList_ s) s).
  set (s2 := set_freq p f' s1). set (s3 := addToFreqList p s2).
  assert (Hn2p : node_at s2 p = mkNode f' (key (node_at s p)) (value (node_at s p))).
  { unfold s2. by rewrite node_at_set_freq_eq. }
  assert (Hn2q : ∀ q, q ≠ p → node_at s2 q = node_at s q).
  { intros q Hq. unfold s2. by rewrite node_at_set_freq_ne. }
  assert (Hlists : ∀ f, freqToFreqList_ s3 !! f =
            if decide (f = f')
            then Some (default [] (unlink p <$> freqToFreqList_ s !! f') ++ [p])
            else unlink p <$> freqToFreqList_ s !! f).
  { intros f. unfold s3, addToFreqList. rewrite Hn2p. simpl.
    rewrite lookup_insert. rewrite !lookup_fmap.
    destruct (decide (f' = f)) as [->|]; [by rewrite decide_True|].
    by rewrite decide_False by congruence. }
  assert (Hn3 : ∀ q, node_at s3 q = node_at s2 q) by done.
  assert (Hmem : ∀ f l q, freqToFreqList_ s3 !! f = Some l →
            q ∈ l → (q = p ∧ f = f') ∨
                    (q ≠ p ∧ ∃ l', freqToFreqList_ s !! f = Some l' ∧ q ∈ l')).
  { intros f l q. rewrite Hlists. case_decide as Hd.
    - subst f. intros [= <-]. rewrite elem_of_app, list_elem_of_singleton.
      intros [Hq| ->]; [|by left]. right.
      destruct (freqToFreqList_ s !! f') as [l'|] eqn:Hl'; simpl in Hq.
      + apply elem_of_unlink in Hq as [? ?]. split; [done|]. by exists l'.
      + by apply elem_of_nil in Hq.
    - destruct (freqToFreqList_ s !! f) as [l'|] eqn:Hl'; [|done].
      simpl. intros [= <-] Hq. apply elem_of_unlink in Hq as [? ?].
      right. split; [done|]. by exists l'. }
  assert (Hown3 : in_own_list s3 p).
  { unfold in_own_list. rewrite Hn3, Hn2p. simpl. rewrite Hlists, decide_True by done.
    eexists. split; [done|]. rewrite elem_of_app, list_elem_of_singleton. by right. }
  assert (Hpres : ∀ q, q ≠ p → in_own_list s q → in_own_list s3 q).
  { intros q Hq (l & Hl & Hql). unfold in_own_list.
    rewrite Hn3, Hn2q by done. rewrite Hlists. case_decide as Hd.
    - eexists. split; [done|]. rewrite Hd in Hl. rewrite Hl. simpl.
      rewrite elem_of_app, elem_of_unlink. by left.
    - rewrite Hl. simpl. eexists. split; [done|]. by apply elem_of_unlink. }
  split_and!.
  - split.
    + intros f l q Hl Hq. change (length (nodes s3))
        with (length (nodes s2)). unfold s2, set_freq; simpl.
      rewrite length_insert.
      destruct (Hmem f l q Hl Hq) as [[-> _]|[_ (l' & Hl' & Hq')]]; [done|].
      by eapply (ok_alloc _ Hok).
    + intros f l q Hl Hq. rewrite Hn3.
      destruct (Hmem f l q Hl Hq) as [[-> ->]|[Hne (l' & Hl' & Hq')]].
      * by rewrite Hn2p.
      * rewrite Hn2q by done. by eapply (ok_list_freq _ Hok).
    + intros k q Hkq. change (nodeMap_ s3) with (nodeMap_ s) in Hkq.
      destruct (decide (q = p)) as [->|Hne]; [done|].
      apply Hpres; [done|]. by eapply (ok_cached _ Hok).
    + intros k q Hkq. change (nodeMap_ s3) with (nodeMap_ s) in Hkq.
      rewrite Hn3. destruct (decide (q = p)) as [->|Hne].
      * rewrite Hn2p. simpl. by apply (ok_key _ Hok).
      * rewrite Hn2q by done. by apply (ok_key _ Hok).
    + intros f [l Hl]. rewrite Hlists in Hl. case_decide as Hd; [lia|].
      apply (ok_freq_pos _ Hok). destruct (freqToFreqList_ s !! f); [eauto|done].
    + apply (ok_minFreq_pos _ Hok).
    + intros f l. rewrite Hlists. case_decide as Hd.
      * intros [= <-]. apply NoDup_app. split_and!.
        -- destruct (freqToFreqList_ s !! f') as [l'|] eqn:Hl'; cbn.
           ++ apply NoDup_filter. by eapply (ok_nodup _ Hok).
           ++ constructor.
        -- intros q Hq Hq'. apply list_elem_of_singleton in Hq'. subst q.
           destruct (freqToFreqList_ s !! f') as [l'|]; cbn in Hq.
           ++ by apply elem_of_unlink in Hq as [_ ?].
           ++ by apply elem_of_nil in Hq.
        -- apply NoDup_singleton.
      * destruct (freqToFreqList_ s !! f) as [l'|] eqn:Hl'; [|done].
        cbn. intros [= <-]. apply NoDup_filter. by eapply (ok_nodup _ Hok).
  - unfold lfu_frame. split_and!; try done.
    + change (nodes s3) with (nodes s2).
      unfold s2, set_freq; simpl. by rewrite length_insert.
    + intros q. rewrite Hn3. destruct (decide (q = p)) as [->|Hne].
      * by rewrite Hn2p.
      * by rewrite Hn2q.
    + intros f [l Hl]. rewrite Hlists. case_decide; [eauto|].
      rewrite Hl. simpl. eauto.
  - exact Hown3.
  - by rewrite Hn3, Hn2p.
  - intros q Hq. by rewrite Hn3, Hn2q.
  - exact Hpres.
  - done.
  - done.
  - done.
  - intros f l Hne Hl. rewrite Hlists, decide_False by done. by rewrite Hl.
Qed.

Lemma node_at_ext s s' q : nodes s' = nodes s → node_at s' q = node_at s q.
Proof. intros Hn. unfold node_at. by rewrite Hn. Qed.

Lemma in_own_list_ext s s' q :
  nodes s' = nodes s → freqToFreqList_ s' = freqToFreqList_ s →
  in_own_list s q → in_own_list s' q.
Proof.
  intros Hn Hl. unfold in_own_list. by rewrite (node_at_ext s s' q Hn), Hl.
Qed.

Lemma LFUok_ext s s' :
  nodes s' = nodes s → freqToFreqList_ s' = freqToFreqList_ s →
  nodeMap_ s' = nodeMap_ s → 1 ≤ minFreq_ s' →
  LFUok s → LFUok s'.
Proof.
  intros Hn Hl Hm Hmin [Ha Hf Hc Hk Hp _ Hnd].
  split; try done.
  - intros f l p. rewrite Hl, Hn. apply Ha.
  - intros f l p. rewrite Hl, (node_at_ext s s' p Hn). apply Hf.
  - intros k p. rewrite Hm. intros Hkp.
    apply (in_own_list_ext s s'); [done|done|by eapply Hc].
  - intros k p. rewrite Hm, (node_at_ext s s' p Hn). apply Hk.
  - intros f. rewrite Hl. apply Hp.
  - intros f l. rewrite Hl. apply Hnd.
Qed.

Lemma lfu_frame_ext s s' :
  nodes s' = nodes s → freqToFreqList_ s' = freqToFreqList_ s →
  nodeMap_ s' = nodeMap_ s → capacity_ s' = capacity_ s →
  maxAverageNum_ s' = maxAverageNum_ s → lfu_frame s s'.
Proof.
  intros Hn Hl Hm Hc Ha. unfold lfu_frame. split_and!; try done.
  - by rewrite Hn.
  - intros q. by rewrite (node_at_ext s s' q Hn).
  - intros f. by rewrite Hl.
Qed.

Lemma bumpFreq_ok s p :
  LFUok s → in_own_list s p →
  ∃ s', bumpFreq p s = Some s' ∧ LFUok s' ∧ lfu_frame s s' ∧
    freq (node_at s' p) = freq (node_at s p) + 1 ∧
    (∀ q, q ≠ p → node_at s' q = node_at s q) ∧
    curTotalNum_ s' = curTotalNum_ s ∧
    (minFreq_ s' = minFreq_ s ∨ is_Some (freqToFreqList_ s' !! minFreq_ s')).
Proof.
  intros Hok Hown.
  assert (1 ≤ freq (node_at s p)) as Hpos.
  { destruct Hown as (l & Hl & _). apply (ok_freq_pos _ Hok). eauto. }
  assert (1 ≤ freq (node_at s p) + 1) as Hpos' by lia.
  destruct (relink_ok s p (freq (node_at s p) + 1) Hok Hown Hpos')
    as (s1 & Hrem & Hok3 & Hfr3 & Hown3 & Hf3 & Hq3 & _ & Hmin3 & Htot3 & _ & _).
  assert (node_at s1 p = node_at s p) as Hn1.
  { unfold removeFromFreqList in Hrem.
    destruct (freqToFreqList_ s !! freq (node_at s p)); [|done].
    simpl in Hrem. by injection Hrem as <-. }
  assert (bumpFreq p s =
    let s3 := addToFreqList p (set_freq p (freq (node_at s p) + 1) s1) in
    if decide (freq (node_at s3 p) - 1 = minFreq_ s3)
    then l ← freqToFreqList_ s3 !! (freq (node_at s3 p) - 1);
         Some (if isEmpty l then set_minFreq (minFreq_ s3 + 1) s3 else s3)
    else Some s3) as ->.
  { unfold bumpFreq. rewrite Hrem. cbn [mbind option_bind]. by rewrite Hn1. }
  cbv zeta.
  set (s3 := addToFreqList p (set_freq p (freq (node_at s p) + 1) s1)) in *.
  case_decide as Hd.
  - assert (is_Some (freqToFreqList_ s3 !! (freq (node_at s3 p) - 1))) as [l Hl].
    { rewrite Hf3. replace (freq (node_at s p) + 1 - 1) with (freq (node_at s p)) by lia.
      apply Hfr3. destruct Hown as (l & Hl & _). eauto. }
    rewrite Hl. cbn [mbind option_bind]. destruct (isEmpty l).
    + eexists. split; [done|]. split_and!.
      * eapply (LFUok_ext s3); try done. unfold set_minFreq; cbn [minFreq_].
        pose proof (ok_minFreq_pos _ Hok3). lia.
      * eapply lfu_frame_trans; [exact Hfr3|]. by apply lfu_frame_ext.
      * done.
      * done.
      * done.
      * right. unfold set_minFreq; cbn [minFreq_ freqToFreqList_]. rewrite <- Hd.
        replace (freq (node_at s3 p) - 1 + 1) with (freq (node_at s3 p)) by lia.
        destruct Hown3 as (l3 & Hl3 & _). eauto.
    + eexists. split; [done|]. split_and!; try done. by left.
  - eexists. split; [done|]. split_and!; try done. by left.
Qed.

Lemma ageNode_ok s p :
  LFUok s → in_own_list s p →
  ∃ s', ageNode p s = Some s' ∧ LFUok s' ∧ lfu_frame s s' ∧
    minFreq_ s' = minFreq_ s ∧ curTotalNum_ s' = curTotalNum_ s ∧
    curAverageNum_ s' = curAverageNum_ s ∧
    freq (node_at s' p) = aged s (freq (node_at s p)) ∧
    (∀ q, q ≠ p → node_at s' q = node_at s q).
Proof.
  intros Hok Hown. unfold aged.
  set (f := freq (node_at s p) - maxAverageNum_ s `quot` 2).
  assert (1 ≤ (if decide (f < 1) then 1 else f)) as Hpos' by (case_decide; lia).
  destruct (relink_ok s p (if decide (f < 1) then 1 else f) Hok Hown Hpos')
    as (s1 & Hrem & Hok3 & Hfr3 & _ & Hf3 & Hq3 & _ & Hmin3 & Htot3 & Havg3 & _).
  assert (node_at s1 p = node_at s p ∧ maxAverageNum_ s1 = maxAverageNum_ s)
    as [Hn1 Hm1].
  { unfold removeFromFreqList in Hrem.
    destruct (freqToFreqList_ s !! freq (node_at s p)); [|done].
    simpl in Hrem. by injection Hrem as <-. }
  unfold ageNode. rewrite Hrem. cbn [mbind option_bind]. rewrite Hn1, Hm1.
  eexists. split; [reflexivity|]. done.
Qed.

Lemma min_fold_spec (m0 : gmap Z (list NodePtr)) :
  let r := map_fold (λ f (l : list NodePtr) m, if isEmpty l then m else Z.min m f)
             INT8_MAX m0 in
  (r = INT8_MAX ∨ is_Some (m0 !! r)) ∧
  (∀ f l, m0 !! f = Some l → isEmpty l = false → r ≤ f) ∧ r ≤ INT8_MAX.
Proof.
  cbv zeta. apply (map_fold_weak_ind (λ r m,
    (r = INT8_MAX ∨ is_Some (m !! r)) ∧
    (∀ f l, m !! f = Some l → isEmpty l = false → r ≤ f) ∧ r ≤ INT8_MAX)).
  - split_and!; [by left| |done]. intros f l. by rewrite lookup_empty.
  - intros i x m r Hi (Hr & Hmin & Hle).
    assert (Hkeep : r = INT8_MAX ∨ is_Some (<[i:=x]> m !! r)).
    { destruct Hr as [->|[y Hy]]; [by left|right].
      rewrite lookup_insert. case_decide; eauto. }
    destruct (isEmpty x) eqn:Hx.
    + split_and!; [done| |done].
      intros f l. rewrite lookup_insert. case_decide as Hd.
      * intros [= <-]. congruence.
      * apply Hmin.
    + split_and!; [|intros f l|lia].
      * destruct (Z.min_spec r i) as [[_ ->]|[_ ->]]; [done|].
        right. rewrite lookup_insert_eq. eauto.
      * rewrite lookup_insert. case_decide as Hd.
        -- intros _ _. subst. lia.
        -- intros Hl He. pose proof (Hmin f l Hl He). lia.
Qed.

Lemma updateMinFreq_ok s :
  LFUok s →
  LFUok (updateMinFreq s) ∧ lfu_frame s (updateMinFreq s) ∧
  curTotalNum_ (updateMinFreq s) = curTotalNum_ s ∧
  curAverageNum_ (updateMinFreq s) = curAverageNum_ s ∧
  (minFreq_ (updateMinFreq s) = 1 ∨
   is_Some (freqToFreqList_ (updateMinFreq s) !! minFreq_ (updateMinFreq s))).
Proof.
  intros Hok. unfold updateMinFreq. cbv zeta.
  destruct (min_fold_spec (freqToFreqList_ s)) as (Hr & _ & _).
  cbv zeta in Hr.
  set (r := map_fold _ INT8_MAX (freqToFreqList_ s)) in *.
  set (m := if decide (r = INT8_MAX) then 1 else r).
  assert (Hm : m = 1 ∨ is_Some (freqToFreqList_ s !! m)).
  { unfold m. case_decide; [by left|]. right. by destruct Hr. }
  assert (1 ≤ m) as Hpos.
  { destruct Hm as [->|Hm]; [done|]. by apply (ok_freq_pos _ Hok). }
  split_and!.
  - by apply (LFUok_ext s).
  - by apply lfu_frame_ext.
  - done.
  - done.
  - exact Hm.
Qed.

Lemma age_fold_ok s (m : gmap Key NodePtr) :
  LFUok s → m ⊆ nodeMap_ s →
  ∃ s', map_fold (λ _ p acc, acc ≫= ageNode p) (Some s) m = Some s' ∧
    LFUok s' ∧ lfu_frame s s' ∧ minFreq_ s' = minFreq_ s ∧
    curTotalNum_ s' = curTotalNum_ s ∧ curAverageNum_ s' = curAverageNum_ s ∧
    (∀ k p, nodeMap_ s !! k = Some p →
       freq (node_at s' p) =
         match m !! k with
           | Some _ => aged s (freq (node_at s p))
           | None => freq (node_at s p)
           end).
Proof.
  intros Hok. revert m.
  apply (map_fold_weak_ind (λ acc (m : gmap Key NodePtr),
    m ⊆ nodeMap_ s →
    ∃ s', acc = Some s' ∧ LFUok s' ∧ lfu_frame s s' ∧ minFreq_ s' = minFreq_ s ∧
      curTotalNum_ s' = curTotalNum_ s ∧ curAverageNum_ s' = curAverageNum_ s ∧
      (∀ k p, nodeMap_ s !! k = Some p →
         freq (node_at s' p) =
           match m !! k with
           | Some _ => aged s (freq (node_at s p))
           | None => freq (node_at s p)
           end))).
  - intros _. exists s.
    split_and!;
      first [done|apply lfu_frame_refl|by intros k p _; rewrite lookup_empty].
  - intros k p m acc Hk IH Hsub.
    destruct IH as (s1 & -> & Hok1 & Hfr1 & Hmin1 & Htot1 & Havg1 & Hfreq1);
      [etrans; [|exact Hsub]; by apply insert_subseteq|].
    assert (nodeMap_ s !! k = Some p) as Hkp.
    { eapply lookup_weaken; [|exact Hsub]. apply lookup_insert_eq. }
    assert (in_own_list s1 p) as Hown.
    { apply (ok_cached _ Hok1 k). destruct Hfr1 as (-> & _). done. }
    destruct (ageNode_ok s1 p Hok1 Hown)
      as (s2 & Hage & Hok2 & Hfr2 & Hmin2 & Htot2 & Havg2 & Hf2 & Hq2).
    exists s2. simpl.
    split_and!; try first [congruence|by eapply lfu_frame_trans].
    intros k' q Hk'q. rewrite lookup_insert. case_decide as Hd.
    + subst k'. assert (q = p) as -> by congruence.
      rewrite Hf2, (Hfreq1 k p Hkp), Hk. unfold aged.
      destruct Hfr1 as (_ & _ & -> & _). done.
    + assert (q ≠ p) as Hne.
      { intros ->. apply Hd.
        rewrite <- (ok_key _ Hok k p Hkp). by apply (ok_key _ Hok). }
      rewrite Hq2 by done. by apply Hfreq1.
Qed.

Lemma handleOverMaxAverageNum_ok s :
  LFUok s →
  ∃ s', handleOverMaxAverageNum s = Some s' ∧ LFUok s' ∧ lfu_frame s s' ∧
    curTotalNum_ s' = curTotalNum_ s ∧ curAverageNum_ s' = curAverageNum_ s ∧
    (minFreq_ s' = minFreq_ s ∨ minFreq_ s' = 1 ∨
     is_Some (freqToFreqList_ s' !! minFreq_ s')) ∧
    (∀ k p, nodeMap_ s !! k = Some p →
       freq (node_at s' p) = aged s (freq (node_at s p))).
Proof.
  intros Hok. unfold handleOverMaxAverageNum. case_decide as Hd.
  - exists s. split_and!; [done|done|apply lfu_frame_refl|done|done|by left|].
    intros k p. by rewrite Hd, lookup_empty.
  - destruct (age_fold_ok s (nodeMap_ s) Hok ltac:(done))
      as (s1 & -> & Hok1 & Hfr1 & Hmin1 & Htot1 & Havg1 & Hfreq1).
    cbn [mbind option_bind].
    destruct (updateMinFreq_ok s1 Hok1) as (Hok2 & Hfr2 & Htot2 & Havg2 & Hm2).
    eexists. split; [done|].
    split_and!; try first [done|congruence|by eapply lfu_frame_trans|by right].
    intros k p Hkp. change (node_at (updateMinFreq s1) p) with (node_at s1 p).
    by rewrite (Hfreq1 k p Hkp), Hkp.
Qed.

Lemma addFreqNum_ok s :
  LFUok s →
  ∃ s', addFreqNum s = Some s' ∧ LFUok s' ∧ lfu_frame s s' ∧
    curTotalNum_ s' = curTotalNum_ s + 1 ∧
    curAverageNum_ s' = average s (curTotalNum_ s + 1) ∧
    (minFreq_ s' = minFreq_ s ∨ minFreq_ s' = 1 ∨
     is_Some (freqToFreqList_ s' !! minFreq_ s')).
Proof.
  intros Hok. unfold addFreqNum. cbv zeta.
  set (s1 := set_counters _ _ s).
  assert (LFUok s1) as Hok1.
  { apply (LFUok_ext s); try done. apply (ok_minFreq_pos _ Hok). }
  assert (lfu_frame s s1) as Hfr1 by (by apply lfu_frame_ext).
  case_decide as Hd.
  - destruct (handleOverMaxAverageNum_ok s1 Hok1)
      as (s2 & -> & Hok2 & Hfr2 & Htot2 & Havg2 & Hm2 & _).
    exists s2. split_and!; first [done|by eapply lfu_frame_trans].
  - exists s1. split_and!; first [done|by left].
Qed.

Lemma getInternal_ok s p :
  LFUok s → in_own_list s p →
  ∃ s', getInternal p s = Some (value (node_at s p), s') ∧
    LFUok s' ∧ lfu_frame s s' ∧
    curTotalNum_ s' = curTotalNum_ s + 1 ∧
    (minFreq_ s' = minFreq_ s ∨ minFreq_ s' = 1 ∨
     is_Some (freqToFreqList_ s' !! minFreq_ s')).
Proof.
  intros Hok Hown.
  destruct (bumpFreq_ok s p Hok Hown)
    as (s4 & Hb & Hok4 & Hfr4 & _ & _ & Htot4 & Hm4).
  destruct (addFreqNum_ok s4 Hok4) as (s5 & Ha & Hok5 & Hfr5 & Htot5 & _ & Hm5).
  unfold getInternal. rewrite Hb. cbn [mbind option_bind].
  rewrite Ha. cbn [mbind option_bind].
  eexists. split; [done|].
  split_and!; [done|by eapply lfu_frame_trans|congruence|].
  destruct Hm5 as [Hm5|Hm5]; [|by right].
  rewrite Hm5. destruct Hm4 as [Hm4|Hm4]; [by left|].
  right; right. apply Hfr5. done.
Qed.

Lemma kickOut_ok s :
  LFUok s → is_Some (freqToFreqList_ s !! minFreq_ s) →
  is_Some (freqToFreqList_ s !! 1) →
  ∃ s' kx, kickOut s = Some s' ∧ LFUok s' ∧
    nodeMap_ s' = delete kx (nodeMap_ s) ∧ nodes s' = nodes s ∧
    capacity_ s' = capacity_ s ∧ maxAverageNum_ s' = maxAverageNum_ s ∧
    (∀ f, is_Some (freqToFreqList_ s !! f) → is_Some (freqToFreqList_ s' !! f)).
Proof.
  intros Hok [l Hl] H1'. unfold kickOut. rewrite Hl. cbn [mbind option_bind].
  destruct l as [|p l']; cbn [getFirstNode head].
  - unfold removeFromFreqList_sentinel. cbn [freq Node_sentinel].
    destruct H1' as [l1 ->]. cbn [mbind option_bind].
    eexists _, (key Node_sentinel). split; [reflexivity|].
    split_and!; try done.
    destruct Hok as [Ha Hf Hc Hk Hp Hm Hnd]. split; try done.
    + intros k q. cbn. rewrite lookup_delete. case_decide; [done|]. apply Hc.
    + intros k q. cbn. rewrite lookup_delete. case_decide; [done|]. apply Hk.
  - assert (freq (node_at s p) = minFreq_ s) as Hfp.
    { eapply (ok_list_freq _ Hok); [exact Hl|by left]. }
    unfold removeFromFreqList. rewrite Hfp, Hl. cbn [mbind option_bind].
    eexists _, (key (node_at s p)). split; [reflexivity|].
    split_and!; try done.
    + destruct Hok as [Ha Hf Hc Hk Hp Hm Hnd]. split.
      * intros f l q. cbn. rewrite lookup_fmap.
        destruct (freqToFreqList_ s !! f) as [l0|] eqn:Hl0; [|done].
        cbn. intros [= <-] [Hq _]%elem_of_unlink. by eapply Ha.
      * intros f l q. cbn. rewrite lookup_fmap.
        destruct (freqToFreqList_ s !! f) as [l0|] eqn:Hl0; [|done].
        cbn. intros [= <-] [Hq _]%elem_of_unlink. by eapply Hf.
      * intros k q. cbn. rewrite lookup_delete. case_decide as Hd; [done|].
        intros Hkq. destruct (Hc k q Hkq) as (l0 & Hl0 & Hq).
        unfold in_own_list. cbn. rewrite lookup_fmap.
        change (node_at _ q) with (node_at s q). rewrite Hl0. cbn.
        eexists. split; [done|]. apply elem_of_unlink. split; [done|].
        intros ->. apply Hd. change (node_at _ p) with (node_at s p).
        by apply Hk.
      * intros k q. cbn. rewrite lookup_delete. case_decide; [done|]. apply Hk.
      * intros f. cbn. rewrite lookup_fmap. intros [l0 Hl0]. apply Hp.
        destruct (freqToFreqList_ s !! f); [eauto|done].
      * done.
      * intros f l. cbn. rewrite lookup_fmap.
        destruct (freqToFreqList_ s !! f) as [l0|] eqn:Hl0; [|done].
        cbn. intros [= <-]. apply NoDup_filter. by eapply Hnd.
    + intros f [l0 Hl0]. cbn. rewrite lookup_fmap, Hl0. cbn. eauto.
Qed.

(** The allocation, indexing and linking steps of [putInternal]. *)
Lemma link_new_ok s k v :
  LFUok s →
  let n := length (nodes s) in
  let s4 := addToFreqList n
              (set_nodeMap (<[k := n]> (nodeMap_ s))
                 (set_nodes (nodes s ++ [Node_new k v]) s)) in
  LFUok s4 ∧ node_at s4 n = Node_new k v ∧
  is_Some (freqToFreqList_ s4 !! 1) ∧
  nodeMap_ s4 = <[k := n]> (nodeMap_ s) ∧
  capacity_ s4 = capacity_ s ∧ maxAverageNum_ s4 = maxAverageNum_ s.
Proof.
  intros Hok n s4. pose proof Hok as [Ha Hf Hc Hk Hp Hm Hnd].
  assert (Hnew : node_at s4 n = Node_new k v).
  { unfold node_at, s4, n. cbn. rewrite lookup_app_r, Nat.sub_diag by lia. done. }
  assert (Hold : ∀ q, (q < length (nodes s))%nat → node_at s4 q = node_at s q).
  { intros q Hq. unfold node_at, s4. cbn. by rewrite lookup_app_l. }
  assert (Hlists : ∀ f, freqToFreqList_ s4 !! f =
            if decide (f = 1) then Some (default [] (freqToFreqList_ s !! 1) ++ [n])
            else freqToFreqList_ s !! f).
  { intros f. unfold s4, addToFreqList. cbn [freqToFreqList_ set_lists].
    change (node_at (set_nodeMap _ _) n) with (node_at s4 n). rewrite Hnew.
    cbn [freq Node_new set_nodeMap set_nodes freqToFreqList_].
    rewrite lookup_insert. destruct (decide (1 = f)) as [<-|];
      [by rewrite decide_True|by rewrite decide_False]. }
  assert (Hmem : ∀ f l q, freqToFreqList_ s4 !! f = Some l → q ∈ l →
            (q = n ∧ f = 1) ∨ (∃ l', freqToFreqList_ s !! f = Some l' ∧ q ∈ l')).
  { intros f l q. rewrite Hlists. case_decide as Hd.
    - subst f. intros [= <-]. rewrite elem_of_app, list_elem_of_singleton.
      intros [Hq| ->]; [|by left]. right.
      destruct (freqToFreqList_ s !! 1) as [l'|]; cbn in Hq; [eauto|].
      by apply elem_of_nil in Hq.
    - intros Hl Hq. right. eauto. }
  assert (Hown : ∀ q, in_own_list s q → in_own_list s4 q).
  { intros q (l & Hl & Hq). unfold in_own_list.
    rewrite Hold by (by eapply Ha). rewrite Hlists. case_decide as Hd.
    - rewrite Hd in Hl. rewrite Hl. cbn. eexists. split; [done|].
      apply elem_of_app. by left.
    - eauto. }
  assert (Hownn : in_own_list s4 n).
  { unfold in_own_list. rewrite Hnew. cbn [freq Node_new].
    rewrite Hlists, decide_True by done. eexists. split; [done|].
    apply elem_of_app. right. by apply list_elem_of_singleton. }
  split_and!; try done.
  - split.
    + intros f l q Hl Hq. change (nodes s4) with (nodes s ++ [Node_new k v]).
      rewrite length_app. cbn.
      destruct (Hmem f l q Hl Hq) as [[-> _]|(l' & Hl' & Hq')]; [unfold n; lia|].
      pose proof (Ha f l' q Hl' Hq'). lia.
    + intros f l q Hl Hq.
      destruct (Hmem f l q Hl Hq) as [[-> ->]|(l' & Hl' & Hq')].
      * by rewrite Hnew.
      * rewrite Hold by (by eapply Ha). by eapply Hf.
    + intros k' q. change (nodeMap_ s4) with (<[k := n]> (nodeMap_ s)).
      rewrite lookup_insert. case_decide.
      * by intros [= <-].
      * intros Hkq. apply Hown. by eapply Hc.
    + intros k' q. change (nodeMap_ s4) with (<[k := n]> (nodeMap_ s)).
      rewrite lookup_insert. case_decide as Hd.
      * intros [= <-]. by rewrite Hnew.
      * intros Hkq. rewrite Hold; [by apply Hk|].
        destruct (Hc k' q Hkq) as (l & Hl & Hq). by eapply Ha.
    + intros f [l Hl]. rewrite Hlists in Hl. case_decide; [lia|]. apply Hp. eauto.
    + done.
    + intros f l. rewrite Hlists. case_decide as Hd; [|apply Hnd].
      intros [= <-]. apply NoDup_app. split_and!.
      * destruct (freqToFreqList_ s !! 1) as [l'|] eqn:Hl'; cbn;
          [by eapply Hnd|constructor].
      * intros q Hq Hq'. apply list_elem_of_singleton in Hq'. subst q.
        destruct (freqToFreqList_ s !! 1) as [l'|] eqn:Hl'; cbn in Hq.
        -- pose proof (Ha 1 l' n Hl' Hq). unfold n in *. lia.
        -- by apply elem_of_nil in Hq.
      * apply NoDup_singleton.
  - rewrite Hlists, decide_True by done. eauto.
Qed.

Lemma LFUwf_new C M : LFUwf (LFUCache_new (Key:=Key) (Value:=Value) C M).
Proof.
  split; [split|]; cbn.
  - intros f l p. by rewrite lookup_empty.
  - intros f l p. by rewrite lookup_empty.
  - intros k p. by rewrite lookup_empty.
  - intros k p. by rewrite lookup_empty.
  - intros f [l Hl]. by rewrite lookup_empty in Hl.
  - done.
  - intros f l. by rewrite lookup_empty.
  - done.
Qed.

Lemma LFUwf_purge s : LFUwf s → LFUwf (purge s).
Proof.
  intros [Hok _]. split; [split|]; cbn.
  - intros f l p. by rewrite lookup_empty.
  - intros f l p. by rewrite lookup_empty.
  - intros k p. by rewrite lookup_empty.
  - intros k p. by rewrite lookup_empty.
  - intros f [l Hl]. by rewrite lookup_empty in Hl.
  - apply (ok_minFreq_pos _ Hok).
  - intros f l. by rewrite lookup_empty.
  - done.
Qed.

Lemma putInternal_ok s k v :
  LFUwf s → to_size_t (capacity_ s) ≠ 0 →
  ∃ s' p, putInternal k v s = Some s' ∧ LFUwf s' ∧
    capacity_ s' = capacity_ s ∧ maxAverageNum_ s' = maxAverageNum_ s ∧
    nodeMap_ s' !! k = Some p ∧ value (node_at s' p) = v ∧
    (Z.of_nat (size (nodeMap_ s)) ≠ to_size_t (capacity_ s) →
     curTotalNum_ s' = curTotalNum_ s + 1 ∧
     curAverageNum_ s' =
       to_int (to_size_t (curTotalNum_ s + 1) /
               Z.of_nat (size (<[k := length (nodes s)]> (nodeMap_ s))))).
Proof.
  intros [Hok Hlists] Hcap.
  assert (∃ s1, (if decide (Z.of_nat (size (nodeMap_ s)) = to_size_t (capacity_ s))
                 then kickOut s else Some s) = Some s1 ∧ LFUok s1 ∧
            capacity_ s1 = capacity_ s ∧ maxAverageNum_ s1 = maxAverageNum_ s ∧
            (Z.of_nat (size (nodeMap_ s)) ≠ to_size_t (capacity_ s) → s1 = s))
    as (s1 & Hs1 & Hok1 & Hc1 & Hm1 & Hsame).
  { case_decide as Hfull; [|by exists s].
    destruct Hlists as [Hmin H1'].
    { intros Hempty. rewrite Hempty, map_size_empty in Hfull. by apply Hcap. }
    destruct (kickOut_ok s Hok Hmin H1') as (s1 & kx & -> & Hok1 & _ & _ & ? & ? & _).
    by exists s1. }
  unfold putInternal. rewrite Hs1. cbn [mbind option_bind]. cbv zeta.
  destruct (link_new_ok s1 k v Hok1) as (Hok4 & Hnew & H14 & Hmap4 & Hc4 & Hm4).
  cbv zeta in Hok4, Hnew, H14, Hmap4, Hc4, Hm4.
  set (n := length (nodes s1)) in *.
  set (s4 := addToFreqList n _) in *.
  destruct (addFreqNum_ok s4 Hok4) as (s5 & -> & Hok5 & Hfr5 & Htot5 & Havg5 & _).
  cbn [mbind option_bind].
  destruct Hfr5 as (Hmap5 & Hc5 & Hm5 & _ & Hkv5 & Hdom5).
  assert (Z.min (minFreq_ s5) 1 = 1) as ->
    by (pose proof (ok_minFreq_pos _ Hok5); lia).
  eexists _, n. split; [reflexivity|]. split_and!.
  - split.
    + by apply (LFUok_ext s5).
    + intros _. cbn. split; by apply Hdom5.
  - cbn. congruence.
  - cbn. congruence.
  - cbn. rewrite Hmap5, Hmap4. apply lookup_insert_eq.
  - change (node_at (set_minFreq 1 s5) n) with (node_at s5 n).
    destruct (Hkv5 n) as [_ ->]. by rewrite Hnew.
  - intros Hnotfull. specialize (Hsame Hnotfull). subst s1.
    cbn [curTotalNum_ curAverageNum_ set_minFreq]. split; [exact Htot5|].
    rewrite Havg5. unfold average. rewrite Hmap4.
    rewrite decide_False by apply insert_non_empty. done.
Qed.

Lemma LFUok_set_value s p v : LFUok s → LFUok (set_value p v s).
Proof.
  intros [Ha Hf Hc Hk Hp Hm Hnd].
  assert (Hfk : ∀ q, freq (node_at (set_value p v s) q) = freq (node_at s q) ∧
                     key (node_at (set_value p v s) q) = key (node_at s q)).
  { intros q. destruct (decide (q = p)) as [->|Hne].
    - destruct (decide (p < length (nodes s))%nat).
      + by rewrite node_at_set_value_eq.
      + unfold set_value, set_nodes, node_at. cbn. by rewrite list_insert_ge by lia.
    - by rewrite node_at_set_value_ne. }
  split; try done.
  - intros f l q Hl Hq. cbn. rewrite length_insert. by eapply Ha.
  - intros f l q Hl Hq. destruct (Hfk q) as [-> _]. by eapply Hf.
  - intros k q Hkq. unfold in_own_list. destruct (Hfk q) as [-> _]. by eapply Hc.
  - intros k q Hkq. destruct (Hfk q) as [_ ->]. by eapply Hk.
Qed.

Lemma put_ok s k v :
  LFUwf s → - 2 ^ 31 ≤ capacity_ s < 2 ^ 31 → capacity_ s ≠ 0 →
  ∃ s' p, put k v s = Some s' ∧ LFUwf s' ∧
    capacity_ s' = capacity_ s ∧ maxAverageNum_ s' = maxAverageNum_ s ∧
    nodeMap_ s' !! k = Some p ∧ value (node_at s' p) = v.
Proof.
  intros Hwf Hrange Hne. unfold put. rewrite decide_False by done.
  destruct (nodeMap_ s !! k) as [p|] eqn:Hkp.
  - destruct Hwf as [Hok Hlists].
    pose proof (LFUok_set_value s p v Hok) as Hok1.
    assert (in_own_list (set_value p v s) p) as Hown1.
    { by apply (ok_cached _ Hok1 k). }
    assert ((p < length (nodes s))%nat) as Halloc.
    { eapply in_own_list_alloc; [exact Hok|]. by eapply (ok_cached _ Hok). }
    destruct (getInternal_ok _ p Hok1 Hown1) as (s' & -> & Hok' & Hfr' & _ & Hm').
    cbn [mbind option_bind]. destruct Hfr' as (Hmap' & Hc' & Ha' & _ & Hkv' & Hdom').
    exists s', p. split; [done|]. split_and!; try done.
    + split; [done|]. rewrite Hmap'. intros Hnonempty.
      destruct (Hlists Hnonempty) as [Hmin H1']. split; [|by apply Hdom'].
      destruct Hm' as [->|[->|?]]; [| |done]; by apply Hdom'.
    + rewrite Hmap'. done.
    + destruct (Hkv' p) as [_ ->]. by rewrite node_at_set_value_eq.
  - destruct (putInternal_ok s k v Hwf (to_size_t_int_nonzero _ Hrange Hne))
      as (s' & p & ? & ? & ? & ? & ? & ? & _).
    by exists s', p.
Qed.

Lemma get_ref_ok s k d :
  LFUwf s →
  ∃ hit v s', get_ref k d s = Some (hit, v, s') ∧ LFUwf s' ∧
    capacity_ s' = capacity_ s ∧ maxAverageNum_ s' = maxAverageNum_ s ∧
    (∀ p, nodeMap_ s !! k = Some p →
          hit = true ∧ v = value (node_at s p) ∧
          curTotalNum_ s' = curTotalNum_ s + 1) ∧
    (nodeMap_ s !! k = None → hit = false ∧ v = d ∧ s' = s).
Proof.
  intros [Hok Hlists]. unfold get_ref.
  destruct (nodeMap_ s !! k) as [p|] eqn:Hkp.
  - assert (in_own_list s p) as Hown by (by apply (ok_cached _ Hok k)).
    destruct (getInternal_ok s p Hok Hown) as (s' & -> & Hok' & Hfr' & Htot' & Hm').
    cbn [mbind option_bind]. destruct Hfr' as (Hmap' & Hc' & Ha' & _ & Hkv' & Hdom').
    eexists _, _, _. split; [done|]. split_and!; try done.
    + split; [done|]. rewrite Hmap'. intros Hnonempty.
      destruct (Hlists Hnonempty) as [Hmin H1']. split; [|by apply Hdom'].
      destruct Hm' as [->|[->|?]]; [| |done]; by apply Hdom'.
    + by intros ? [= <-].
  - eexists _, _, _. split; [done|]. by split_and!.
Qed.

Lemma exec_ok s o :
  LFUwf s → - 2 ^ 31 ≤ capacity_ s < 2 ^ 31 →
  ∃ s', exec o s = Some s' ∧ LFUwf s' ∧
    capacity_ s' = capacity_ s ∧ maxAverageNum_ s' = maxAverageNum_ s.
Proof.
  intros Hwf Hrange. destruct o as [k v|k|]; cbn [exec].
  - destruct (decide (capacity_ s = 0)) as [Hz|Hnz].
    + exists s. unfold put. by rewrite decide_True.
    + destruct (put_ok s k v Hwf Hrange Hnz) as (s' & p & -> & ? & ? & ? & _).
      by exists s'.
  - unfold get.
    destruct (get_ref_ok s k default_ctor Hwf) as (hit & v & s' & -> & ? & ? & ? & _).
    by exists s'.
  - exists (purge s). split_and!; try done. by apply LFUwf_purge.
Qed.

Lemma run_ok ops : ∀ s,
  LFUwf s → - 2 ^ 31 ≤ capacity_ s < 2 ^ 31 →
  ∃ s', run ops s = Some s' ∧ LFUwf s' ∧
    capacity_ s' = capacity_ s ∧ maxAverageNum_ s' = maxAverageNum_ s.
Proof.
  induction ops as [|o ops IH]; intros s Hwf Hrange; cbn [run].
  - by exists s.
  - destruct (exec_ok s o Hwf Hrange) as (s1 & -> & Hwf1 & Hc1 & Hm1).
    cbn [mbind option_bind].
    destruct (IH s1 Hwf1 ltac:(by rewrite Hc1)) as (s2 & -> & ? & ? & ?).
    exists s2. split_and!; congruence.
Qed.

(** Supporting facts for C3 (the part that holds): a hit moves the node
    to the list of the next frequency, an increase by exactly 1, before
    [addFreqNum] runs. *)
Lemma LFU_hit_increments_frequency s k p :
  LFUwf s → nodeMap_ s !! k = Some p →
  ∃ s', bumpFreq p s = Some s' ∧
    freq_of s' k = Some (freq (node_at s p) + 1) ∧ in_own_list s' p.
Proof.
  intros [Hok _] Hkp.
  assert (in_own_list s p) as Hown by (by apply (ok_cached _ Hok k)).
  destruct (bumpFreq_ok s p Hok Hown) as (s' & Hb & Hok' & Hfr' & Hf' & _).
  exists s'. split; [done|]. destruct Hfr' as (Hmap' & _).
  unfold freq_of. rewrite Hmap', Hkp. cbn. rewrite Hf'. split; [done|].
  apply (ok_cached _ Hok' k). by rewrite Hmap'.
Qed.

(** Supporting fact for C3: [kickOut] takes the oldest node of the list
    of [minFreq_] when that list is not empty. *)
Lemma LFU_kickOut_takes_head_of_minFreq_list s p l :
  LFUwf s → freqToFreqList_ s !! minFreq_ s = Some (p :: l) →
  ∃ s', kickOut s = Some s' ∧ freq (node_at s p) = minFreq_ s ∧
    nodeMap_ s' = delete (key (node_at s p)) (nodeMap_ s).
Proof.
  intros [Hok _] Hl.
  assert (freq (node_at s p) = minFreq_ s) as Hfp.
  { eapply (ok_list_freq _ Hok); [exact Hl|by left]. }
  unfold kickOut. rewrite Hl. cbn [mbind option_bind getFirstNode head].
  unfold removeFromFreqList. rewrite Hfp, Hl. cbn [mbind option_bind].
  eexists. split; [reflexivity|]. done.
Qed.

(** Supporting fact for C4 (the part that holds): an age-down of a
    well-formed cache completes, gives every cached entry its previous
    frequency less [maxAverageNum_ / 2], at least 1, and leaves every
    cached entry in the list keyed by its frequency. *)
Lemma LFU_age_down_rebuckets s :
  LFUwf s →
  ∃ s', handleOverMaxAverageNum s = Some s' ∧ nodeMap_ s' = nodeMap_ s ∧
    ∀ k p, nodeMap_ s !! k = Some p →
      freq (node_at s' p) = aged s (freq (node_at s p)) ∧
      1 ≤ freq (node_at s' p) ∧ in_own_list s' p.
Proof.
  intros [Hok _].
  destruct (handleOverMaxAverageNum_ok s Hok)
    as (s' & Hh & Hok' & Hfr' & _ & _ & _ & Hfreq).
  exists s'. destruct Hfr' as (Hmap' & _). split_and!; [done|done|].
  intros k p Hkp. split_and!.
  - by apply (Hfreq k).
  - rewrite (Hfreq k p Hkp). unfold aged. case_decide; lia.
  - apply (ok_cached _ Hok' k). by rewrite Hmap'.
Qed.

(** Supporting fact for C4: what [updateMinFreq] computes.  The smallest
    frequency with a non-empty list is found only below [INT8_MAX]. *)
Lemma LFU_updateMinFreq_below_INT8_MAX s :
  let m := minFreq_ (updateMinFreq s) in
  (∀ f l, freqToFreqList_ s !! f = Some l → isEmpty l = false → f < INT8_MAX →
          m ≤ f ∧ ∃ l', freqToFreqList_ s !! m = Some l') ∧
  ((∀ f l, freqToFreqList_ s !! f = Some l → isEmpty l = false → INT8_MAX ≤ f) →
   m = 1).
Proof.
  cbv zeta. unfold updateMinFreq. cbn [minFreq_ set_minFreq].
  destruct (min_fold_spec (freqToFreqList_ s)) as (Hr & Hmin & Hle).
  cbv zeta in Hr, Hmin, Hle.
  set (r := map_fold _ INT8_MAX (freqToFreqList_ s)) in *.
  split.
  - intros f l Hl He Hlt. pose proof (Hmin f l Hl He).
    rewrite decide_False by lia. split; [done|].
    destruct Hr as [Hr|[l' Hl']]; [lia|eauto].
  - intros Hall. case_decide as Hd; [done|]. exfalso.
    destruct Hr as [Hr|Hr]; [done|]. apply Hd.
    assert (INT8_MAX ≤ r); [|lia].
    revert Hall Hd. unfold r. clear.
    apply (map_fold_weak_ind (λ r (m : gmap Z (list nat)),
      (∀ f l, m !! f = Some l → isEmpty l = false → INT8_MAX ≤ f) →
      r ≠ INT8_MAX → INT8_MAX ≤ r)); [done|].
    intros i x m r Hi IH Hall Hne.
    assert (Hall' : ∀ f l, m !! f = Some l → isEmpty l = false → INT8_MAX ≤ f).
    { intros f l Hl He. apply (Hall f l); [|done].
      rewrite lookup_insert_ne; [done|]. intros ->. congruence. }
    destruct (isEmpty x) eqn:Hx; [by apply IH|].
    pose proof (Hall i x (lookup_insert_eq _ _ _) Hx).
    destruct (decide (r = INT8_MAX)) as [->|Hr]; [lia|].
    specialize (IH Hall' Hr). lia.
Qed.
End LFUFacts.


(* ================================================================== *)
(** * ARCCache *)

Section ARCFacts.
Context {Key Value : Type} `{Countable Key}.
Context `{DefaultCtor Key} `{DefaultCtor Value}.
Import ARC.
Implicit Types (l : ARCLRUPart (Key:=Key) (Value:=Value)).
Implicit Types (g : ARCLFUPart (Key:=Key) (Value:=Value)).
Implicit Types (s : ARCCache (Key:=Key) (Value:=Value)).
Implicit Types (k : Key) (v : Value).














Lemma removeOldestGhost_nil l : ghostList l = [] → removeOldestGhost l = l.
Proof. intros Hg. unfold removeOldestGhost. by rewrite Hg. Qed.

(** With an empty ghost list the test on [ghostCapacity_] makes no
    difference to an eviction. *)
Lemma evictLeastRecent_ghost_nil l :
  ghostList l = [] →
  evictLeastRecent l =
    match last (mainList l) with
    | None => l
    | Some p =>
        let s3 := addToGhost p (removeFromMain p l) in
        set_mainCache (delete (key_ (node_at s3 p)) (mainCache_ s3)) s3
    end.
Proof.
  intros Hg. unfold evictLeastRecent. destruct (last (mainList l)) as [p|]; [|done].
  case_decide; [|done]. rewrite removeOldestGhost_nil; [done|].
  cbn. by rewrite Hg.
Qed.

(** Supporting fact for C6: no operation of [ARCLRUPart] ever links a
    node into the ghost list. *)
Lemma ARCLRU_ghost_list_stays_empty l k v t :
  ghostList l = [] →
  ghostList (lru_put k v l).2 = [] ∧ ghostList (lru_get k v t l).2 = [] ∧
  ghostList (lru_checkGhost k l).2 = [] ∧
  ghostList (lru_decreaseCapacity l).2 = [] ∧
  ghostList (lru_increaseCapacity l) = [].
Proof.
  intros Hg.
  assert (He : ghostList (evictLeastRecent l) = []).
  { rewrite evictLeastRecent_ghost_nil by done.
    destruct (last (mainList l)); [|done]. cbn. by rewrite Hg. }
  split_and!.
  - unfold lru_put. case_decide; [done|].
    destruct (mainCache_ l !! k); cbn; [by rewrite Hg|].
    case_decide; [exact He|done].
  - unfold lru_get. destruct (mainCache_ l !! k); cbn; [by rewrite Hg|done].
  - unfold lru_checkGhost. destruct (ghostCache_ l !! k); cbn; [by rewrite Hg|done].
  - unfold lru_decreaseCapacity. case_decide; [done|]. cbn.
    case_decide; [exact He|done].
  - done.
Qed.

End ARCFacts.



(** C6: the failing input.  On an [ARCLRUPart] of capacity 1, whatever
    [ghostCapacity_] holds, [put(A)] then [put(B)] evicts [A]: its access
    count is 1 and its key is in [ghostCache_] and no longer in
    [mainCache_], but its node is linked in the main list again, behind
    the new node, and the ghost list is empty.  The next insertion then
    finds that node at the least recent end and evicts no real entry. *)
Theorem ARC_evicted_node_relinked_in_main_list (T G : Z) :
  let s0 := ARC.ARCLRUPart_new (Key:=string) (Value:=Z) 1 T G in
  let s2 := (ARC.lru_put "B"%string 2 (ARC.lru_put "A"%string 1 s0).2).2 in
  let s3 := (ARC.lru_put "C"%string 3 s2).2 in
  ARC.keys_of s2 (ARC.mainList s2) = ["B"; "A"]%string ∧
  ARC.ghostList s2 = [] ∧
  ARC.mainCache_ s2 !! "A"%string = None ∧
  ARC.ghostCache_ s2 !! "A"%string = Some 0%nat ∧
  ARC.accessCount_ (ARC.node_at s2 0%nat) = 1 ∧
  ARC.keys_of s3 (ARC.mainList s3) = ["C"; "A"; "B"]%string ∧
  ARC.ghostList s3 = [] ∧
  Z.of_nat (size (ARC.mainCache_ s3)) = 2 ∧ ARC.capacity_ s3 = 1.
Proof.
  intros s0 s2 s3.
  assert (Hs2 : s2 = ARC.mkARCLRUPart 1 G T {["B"%string := 1%nat]}
                       {["A"%string := 0%nat]} [1%nat; 0%nat] []
                       [ARC.mkARCNode "A"%string 1 1; ARC.mkARCNode "B"%string 2 1]).
  { unfold s2, s0. unfold ARC.lru_put at 1. unfold ARC.addNewNode at 1.
    rewrite evictLeastRecent_ghost_nil by (vm_compute; reflexivity).
    vm_compute. reflexivity. }
  assert (Hs3 : s3 = ARC.mkARCLRUPart 1 G T {["C"%string := 2%nat; "B"%string := 1%nat]}
                       {["A"%string := 0%nat]} [2%nat; 0%nat; 1%nat] []
                       [ARC.mkARCNode "A"%string 1 1; ARC.mkARCNode "B"%string 2 1;
                        ARC.mkARCNode "C"%string 3 1]).
  { unfold s3. rewrite Hs2. unfold ARC.lru_put at 1. unfold ARC.addNewNode at 1.
    rewrite evictLeastRecent_ghost_nil by reflexivity.
    vm_compute. reflexivity. }
  rewrite Hs3, Hs2. split_and!; vm_compute; reflexivity.
Qed.


(* ================================================================== *)
(** * LFUCache of capacity 0 and below *)

Section LFUCapacities.
Context {Key Value : Type} `{Countable Key}.
Context `{DefaultCtor Key} `{DefaultCtor Value}.

(** Supporting fact for C2: an [LFUCache] of capacity 0 is left as it is
    by every workload, and every [get] misses. *)
Lemma LFU_zero_capacity_noop (M : Z) (ops : list (LFU.op (Key:=Key) (Value:=Value)))
    (k : Key) (d : Value) :
  LFU.run ops (LFU.LFUCache_new 0 M) = Some (LFU.LFUCache_new 0 M) ∧
  LFU.get_ref k d (LFU.LFUCache_new 0 M) = Some (false, d, LFU.LFUCache_new 0 M).
Proof.
  split; [|done].
  induction ops as [|[k' v'|k'|] ops IH]; cbn [LFU.run LFU.exec]; [done|..].
  - unfold LFU.put. cbn. exact IH.
  - unfold LFU.get, LFU.get_ref. cbn [LFU.nodeMap_ LFU.LFUCache_new].
    rewrite lookup_empty. cbn. exact IH.
  - cbn. exact IH.
Qed.

(** Supporting fact for C2: an [LFUCache] of negative capacity stores
    every [put], in any reachable state. *)
Lemma LFU_negative_capacity_stores (C M : Z)
    (ops : list (LFU.op (Key:=Key) (Value:=Value))) (k : Key) (v d : Value) :
  - 2 ^ 31 ≤ C < 0 →
  ∃ s s1 s2, LFU.run ops (LFU.LFUCache_new C M) = Some s ∧
    LFU.put k v s = Some s1 ∧ LFU.get_ref k d s1 = Some (true, v, s2).
Proof.
  intros HC.
  destruct (run_ok ops (LFU.LFUCache_new C M) (LFUwf_new C M)
              ltac:(cbn; lia)) as (s & Hrun & Hwf & Hc & _).
  cbn in Hc.
  destruct (put_ok s k v Hwf ltac:(lia) ltac:(lia))
    as (s1 & p & Hput & Hwf1 & Hc1 & _ & Hkp & Hv).
  destruct (get_ref_ok s1 k d Hwf1)
    as (hit & w' & s2 & Hget & _ & _ & _ & Hhit & _).
  destruct (Hhit p Hkp) as (-> & -> & _).
  exists s, s1, s2. split_and!; [done|done|by rewrite Hget, Hv].
Qed.
End LFUCapacities.


(* ================================================================== *)
(** * Scenarios and instances *)

Local Open Scope string_scope.
Local Open Scope Z_scope.

Lemma LRU_index_is_last_distinct_witness :
  1 ≤ 2 < 2 ^ 31 ∧
  ∃ s touched,
    LRU.run [LRU.Put "A" 1; LRU.Put "B" 2; LRU.Get "A"; LRU.Put "C" 3]
      (LRU.LRUCache_new 2) = Some (s, touched) ∧
    Z.of_nat (size (LRU.nodeMap_ s)) ≤ 2 ∧
    dom (LRU.nodeMap_ s) = list_to_set (last_distinct (Z.to_nat 2) touched) ∧
    size (LRU.nodeMap_ s) = length (last_distinct (Z.to_nat 2) touched).
Proof.
  split; [lia|].
  apply (LRU_index_is_last_distinct (Key:=string) (Value:=Z) 2
           [LRU.Put "A" 1; LRU.Put "B" 2; LRU.Get "A"; LRU.Put "C" 3]).
  lia.
Defined.

Lemma LRU_eviction_order_witness :
  ∃ s1 s2 s4,
    LRU.put "A" 1 (LRU.LRUCache_new 2) = Some s1 ∧
    LRU.put "B" 2 s1 = Some s2 ∧
    LRU.put "C" 3 (LRU.get_ref "A" 0 s2).2 = Some s4 ∧
    let '(rB, s5) := LRU.get_ref "B" 0 s4 in
    let '(rA, s6) := LRU.get_ref "A" 0 s5 in
    let '(rC, _) := LRU.get_ref "C" 0 s6 in
    rB = (false, 0) ∧ rA = (true, 1) ∧ rC = (true, 3).
Proof. apply (LRU_eviction_order "A" "B" "C"); discriminate. Defined.

(** C7, as stated, fails at its second step: with threshold 3 and main
    capacity 2 the third [get(A)] leaves [A] out of the main cache. *)
Lemma LRUK_third_get_does_not_admit :
  LRUK.in_main "A" <$> LRUK.get_n 3 "A" (LRUK.LRUKCache_new 2 2 3) = Some false.
Proof. vm_compute. reflexivity. Qed.

Lemma LRUK_admission_by_put_witness :
  1 ≤ 2 < 2 ^ 31 ∧ "v" ≠ "" ∧
  let s0 := LRUK.LRUKCache_new 2 2 3 in
  (∃ s2, LRUK.get_n 2 "A" s0 = Some s2 ∧ LRUK.in_main "A" s2 = false) ∧
  (∃ s3, LRUK.get_n 3 "A" s0 = Some s3 ∧ LRUK.in_main "A" s3 = false) ∧
  (∃ s2 s3 s4, LRUK.get_n 2 "A" s0 = Some s2 ∧ LRUK.put "A" "v" s2 = Some s3 ∧
     LRUK.in_main "A" s3 = true ∧ (LRU.get "A" (LRUK.base s3)).1 = "v" ∧
     LRUK.put "A" "w" s3 = Some s4 ∧
     LRUK.in_main "A" s4 = true ∧ (LRU.get "A" (LRUK.base s4)).1 = "w" ∧
     (LRU.get "A" (LRUK.historyList_ s4)).1 = 1) ∧
  (∃ s1 s2, LRUK.put "A" "v" s0 = Some s1 ∧ LRUK.in_main "A" s1 = false ∧
     LRUK.put "A" "v" s1 = Some s2 ∧ LRUK.in_main "A" s2 = false).
Proof.
  split; [lia|]. split; [discriminate|].
  apply (LRUK_admission_by_put "A" "v" "w" 2); [lia|discriminate].
Defined.

(** C9, as stated for every policy, fails on [LRUKCache]: with threshold 3
    a first [put(A, v)] is not admitted and the [get(A)] that follows
    misses. *)
Lemma LRUK_put_then_get_misses :
  ∃ s, LRUK.put "A" "v" (LRUK.LRUKCache_new 2 2 3) = Some s ∧
    (LRU.get_ref "A" "" (LRUK.base s)).1 = (false, "") ∧
    fst <$> LRUK.get "A" s = Some "".
Proof. eexists. split; [vm_compute; reflexivity|]. vm_compute. done. Qed.

(** The retained total at work: twelve accesses, a purge, then [put(B)]
    and [get(B)].  On the purged cache the averages computed from the
    retained total exceed [maxAverageNum_ = 10], the age-down runs and [B]
    stays at frequency 1; on a fresh cache the same two calls leave [B] at
    frequency 2. *)
Example LFU_retained_total_ages_new_entries :
  (s ← LFU.put "A" 1 (LFU.LFUCache_new 2 10);
   s ← LFU.get_n 11 "A" s;
   s ← LFU.put "B" 2 (LFU.purge s);
   s ← LFU.get_n 1 "B" s;
   Some (LFU.curTotalNum_ s, LFU.freq_of s "B")) = Some (14, Some 1) ∧
  (s ← LFU.put "B" 2 (LFU.LFUCache_new 2 10);
   s ← LFU.get_n 1 "B" s;
   Some (LFU.curTotalNum_ s, LFU.freq_of s "B")) = Some (2, Some 2).
Proof. split; vm_compute; reflexivity. Qed.

(** C2: the failing input.  An [LFUCache] constructed with capacity [-1]
    passes the guard [capacity_ == 0]: [put(A, 1)] stores the entry and
    [get(A)] hits with 1. *)
Theorem LFU_negative_capacity_put_stores :
  ∃ s1 s2,
    LFU.put "A" 1 (LFU.LFUCache_new (-1) 10) = Some s1 ∧
    LFU.nodeMap_ s1 !! "A" = Some 0%nat ∧
    s1 ≠ LFU.LFUCache_new (-1) 10 ∧
    LFU.get_ref "A" 0 s1 = Some (true, 1, s2).
Proof.
  eexists _, _. split; [vm_compute; reflexivity|].
  split; [vm_compute; reflexivity|]. split; [|vm_compute; reflexivity].
  intros Heq. apply (f_equal LFU.curTotalNum_) in Heq. vm_compute in Heq.
  discriminate.
Qed.

(** C4: the failing input.  Before the last [get] the entry has frequency
    252 and [minFreq_] is 252.  The last [get] raises the average to 253,
    above 252, and the age-down leaves the entry at frequency 127 in the
    list of 127, the only non-empty list; [updateMinFreq] leaves [minFreq_]
    at 1, not at 127. *)
Theorem LFU_age_down_minFreq_falls_back_to_1 :
  ∃ s0 s,
    LFU.put "A" 1 (LFU.LFUCache_new 1 252) ≫= LFU.get_n 251 "A" = Some s0 ∧
    LFU.freq_of s0 "A" = Some 252 ∧ LFU.minFreq_ s0 = 252 ∧
    LFU.curAverageNum_ s0 = 252 ∧
    LFU.get_n 1 "A" s0 = Some s ∧
    LFU.curAverageNum_ s = 253 ∧
    LFU.freq_of s "A" = Some 127 ∧
    LFU.bucket_keys s 127 = ["A"] ∧
    filter (λ fl, LFU.isEmpty fl.2 = false) (map_to_list (LFU.freqToFreqList_ s))
      = [(127, [0%nat])] ∧
    LFU.minFreq_ s = 1.
Proof.
  assert (Hrun :
    (s0 ← LFU.put "A" 1 (LFU.LFUCache_new 1 252) ≫= LFU.get_n 251 "A";
     s ← LFU.get_n 1 "A" s0;
     Some (LFU.freq_of s0 "A", LFU.minFreq_ s0, LFU.curAverageNum_ s0,
           (LFU.curAverageNum_ s, LFU.freq_of s "A", LFU.bucket_keys s 127,
            filter (λ fl, LFU.isEmpty fl.2 = false)
              (map_to_list (LFU.freqToFreqList_ s)),
            LFU.minFreq_ s)))
    = Some (Some 252, 252, 252, (253, Some 127, ["A"], [(127, [0%nat])], 1)))
    by (vm_compute; reflexivity).
  destruct (LFU.put "A" 1 (LFU.LFUCache_new 1 252) ≫= LFU.get_n 251 "A")
    as [s0|]; [|discriminate].
  cbn [mbind option_bind] in Hrun.
  destruct (LFU.get_n 1 "A" s0) as [s|] eqn:Hget; [|discriminate].
  cbn [mbind option_bind] in Hrun.
  exists s0, s. injection Hrun as ? ? ? ? ? ? ? ?. by split_and!.
Qed.

(** C3: the failing input, the state above.  The cache is full with its
    single entry [A] of frequency 127, the minimum; [put(B, 2)] runs
    [kickOut] on the empty list of frequency 1, no entry leaves the index,
    and [A] and [B] are both cached in a cache of capacity 1. *)
Theorem LFU_eviction_misses_minimum_frequency :
  ∃ s s', LFU_aged_to_127 = Some s ∧
    Z.of_nat (size (LFU.nodeMap_ s)) = 1 ∧ LFU.capacity_ s = 1 ∧
    LFU.freq_of s "A" = Some 127 ∧ LFU.minFreq_ s = 1 ∧
    LFU.getFirstNode <$> LFU.freqToFreqList_ s !! LFU.minFreq_ s = Some None ∧
    LFU.put "B" 2 s = Some s' ∧
    LFU.freq_of s' "A" = Some 127 ∧ LFU.freq_of s' "B" = Some 1 ∧
    Z.of_nat (size (LFU.nodeMap_ s')) = 2 ∧ LFU.capacity_ s' = 1.
Proof.
  assert (Hrun :
    (s ← LFU_aged_to_127;
     s' ← LFU.put "B" 2 s;
     Some (Z.of_nat (size (LFU.nodeMap_ s)), LFU.capacity_ s, LFU.freq_of s "A",
           LFU.minFreq_ s,
           LFU.getFirstNode <$> LFU.freqToFreqList_ s !! LFU.minFreq_ s,
           (LFU.freq_of s' "A", LFU.freq_of s' "B",
            Z.of_nat (size (LFU.nodeMap_ s')), LFU.capacity_ s')))
    = Some (1, 1, Some 127, 1, Some None, (Some 127, Some 1, 2, 1)))
    by (vm_compute; reflexivity).
  destruct LFU_aged_to_127 as [s|]; [|discriminate].
  cbn [mbind option_bind] in Hrun.
  destruct (LFU.put "B" 2 s) as [s'|] eqn:Hput; [|discriminate].
  cbn [mbind option_bind] in Hrun.
  exists s, s'. injection Hrun as ? ? ? ? ? ? ? ? ?. by split_and!.
Qed.

(** Supporting fact for C3: in the state above both frequencies are at
    least 127 ([""] has 162, ["a"] has the minimum 140) and [minFreq_] is 1.
    [put("b", 3)] runs [kickOut] on the empty list of frequency 1; the node
    it takes is the tail sentinel, whose key is [Key()], so the entry of
    [""] leaves the index although ["a"] has the smaller frequency, and its
    node stays linked in the list of frequency 162. *)
Example LFU_eviction_removes_default_key_entry :
  ∃ s s', LFU_default_key_cached = Some s ∧
    LFU.freq_of s "" = Some 162 ∧ LFU.freq_of s "a" = Some 140 ∧
    LFU.minFreq_ s = 1 ∧ size (LFU.nodeMap_ s) = 2%nat ∧
    LFU.put "b" 3 s = Some s' ∧
    LFU.nodeMap_ s' !! "" = None ∧ is_Some (LFU.nodeMap_ s' !! "a") ∧
    is_Some (LFU.nodeMap_ s' !! "b") ∧
    LFU.bucket_keys s' 162 = [""].
Proof.
  assert (Hrun :
    (s ← LFU_default_key_cached;
     s' ← LFU.put "b" 3 s;
     Some (LFU.freq_of s "", LFU.freq_of s "a", LFU.minFreq_ s,
           size (LFU.nodeMap_ s),
           (LFU.nodeMap_ s' !! "",
            bool_decide (is_Some (LFU.nodeMap_ s' !! "a")),
            bool_decide (is_Some (LFU.nodeMap_ s' !! "b")),
            LFU.bucket_keys s' 162)))
    = Some (Some 162, Some 140, 1, 2%nat, (None, true, true, [""])))
    by (vm_compute; reflexivity).
  destruct LFU_default_key_cached as [s|]; [|discriminate].
  cbn [mbind option_bind] in Hrun.
  destruct (LFU.put "b" 3 s) as [s'|] eqn:Hput; [|discriminate].
  cbn [mbind option_bind] in Hrun.
  exists s, s'. injection Hrun as ? ? ? ? ? Ha Hb ?.
  apply bool_decide_eq_true in Ha, Hb. by split_and!.
Qed.


(* ================================================================== *)
(** * LRUCache against its reference model *)

Local Close Scope string_scope.

Section LRUModel.
Context {Key Value : Type} `{Countable Key}.
Context `{DefaultCtor Key} `{DefaultCtor Value}.
Import LRU.
Implicit Types (s : LRUCache (Key:=Key) (Value:=Value)) (k : Key) (v d : Value).
Implicit Types (p q : NodePtr) (l : list (Key * Value)) (C : Z).

Lemma model_lookup_None k l : model_lookup k l = None ↔ k ∉ l.*1.
Proof.
  induction l as [|[k' v'] l IH]; cbn.
  - split; [intros _; apply not_elem_of_nil|done].
  - rewrite not_elem_of_cons. case_decide as Hd; [split; [done|]|].
    + intros [? _]. congruence.
    + rewrite IH. split; [|tauto]. intros ?. split; [congruence|done].
Qed.

Lemma model_lookup_Some k v l :
  NoDup l.*1 → model_lookup k l = Some v ↔ (k, v) ∈ l.
Proof.
  induction l as [|[k' v'] l IH]; cbn; intros Hnd.
  - split; [done|]. intros Hin. by apply elem_of_nil in Hin.
  - apply NoDup_cons in Hnd as [Hk' Hnd]. rewrite elem_of_cons.
    case_decide as Hd.
    + subst k'. split; [intros [= ->]; by left|].
      intros [[= ->]|Hin]; [done|]. exfalso. apply Hk'.
      apply list_elem_of_fmap. by exists (k, v).
    + rewrite (IH Hnd). split; [by right|]. intros [[= ? ?]|?]; [congruence|done].
Qed.

Lemma filter_key_notin k l : k ∉ l.*1 → filter (λ e, e.1 ≠ k) l = l.
Proof.
  induction l as [|e l IH]; [done|]. rewrite fmap_cons, not_elem_of_cons.
  intros [Hne Hl]. rewrite filter_cons_True by congruence.
  by rewrite IH.
Qed.

(** Unlinking the one node of key [k] from a list of handles, seen on
    the entries. *)
Lemma fmap_unlink_key (g : NodePtr → Key * Value) p k (c : list NodePtr) :
  (∀ q, q ∈ c → (g q).1 = k ↔ q = p) →
  g <$> unlink p c = filter (λ e, e.1 ≠ k) (g <$> c).
Proof.
  unfold unlink. induction c as [|q c IH]; intros Hk; [done|].
  rewrite fmap_cons.
  assert (Hk' : ∀ q', q' ∈ c → (g q').1 = k ↔ q' = p).
  { intros q' Hq'. apply Hk. by right. }
  destruct (decide (q = p)) as [->|Hne].
  - rewrite filter_cons_False by tauto.
    rewrite (filter_cons_False (λ e, e.1 ≠ k)); [by apply IH|].
    intros Hn. apply Hn. apply Hk; [by left|done].
  - rewrite filter_cons_True by done.
    rewrite (filter_cons_True (λ e, e.1 ≠ k)).
    + rewrite fmap_cons. f_equal. by apply IH.
    + intros Hn. apply Hne. apply Hk; [by left|done].
Qed.

Lemma entries_keys s : (entries s).*1 = chain_keys s.
Proof.
  unfold entries, chain_keys. rewrite <- list_fmap_compose. done.
Qed.

Lemma length_entries s : length (entries s) = length (chain s).
Proof. unfold entries. by rewrite length_fmap. Qed.

Lemma LRUwf_keys_inj s p q :
  LRUwf s → p ∈ chain s → q ∈ chain s →
  key_ (node_at s q) = key_ (node_at s p) → q = p.
Proof.
  intros Hwf Hp Hq Hk.
  assert (nodeMap_ s !! key_ (node_at s p) = Some p) as Hm1
    by (by apply (wf_map _ Hwf)).
  assert (nodeMap_ s !! key_ (node_at s p) = Some q) as Hm2
    by (by apply (wf_map _ Hwf)).
  congruence.
Qed.

Lemma LRUwf_NoDup_keys s : LRUwf s → NoDup (entries s).*1.
Proof.
  intros Hwf. rewrite entries_keys. unfold chain_keys.
  apply NoDup_fmap_2_strong; [|apply (wf_nodup _ Hwf)].
  intros p q Hp Hq Hk. symmetry. by apply (LRUwf_keys_inj s p q).
Qed.

(** The index and the model agree on every key. *)
Lemma lookup_entries s k :
  LRUwf s →
  model_lookup k (entries s) = (λ p, value_ (node_at s p)) <$> nodeMap_ s !! k.
Proof.
  intros Hwf. destruct (nodeMap_ s !! k) as [p|] eqn:Hkp; cbn.
  - apply model_lookup_Some; [by apply LRUwf_NoDup_keys|].
    apply (wf_map _ Hwf) in Hkp as [Hp Hk]. unfold entries.
    apply list_elem_of_fmap. exists p. by rewrite Hk.
  - apply model_lookup_None. rewrite entries_keys. by apply LRUwf_notin.
Qed.

Lemma entries_moveToMostRecent s k p :
  LRUwf s → nodeMap_ s !! k = Some p →
  LRUwf (moveToMostRecent p s) ∧
  entries (moveToMostRecent p s) = model_touch k (value_ (node_at s p)) (entries s).
Proof.
  intros Hwf Hkp. split; [by apply (LRUwf_moveToMostRecent s k p)|].
  apply (wf_map _ Hwf) in Hkp as Hp. destruct Hp as [Hp Hk].
  change (entries (moveToMostRecent p s)) with
    ((λ q, (key_ (node_at s q), value_ (node_at s q))) <$>
       (unlink p (chain s) ++ [p])).
  unfold model_touch. rewrite fmap_app. cbn [fmap list_fmap].
  rewrite Hk. f_equal.
  apply (fmap_unlink_key (λ q, (key_ (node_at s q), value_ (node_at s q)))).
  intros q Hq. cbn. split.
  - intros Hq'. apply (LRUwf_keys_inj s p q); [done..|congruence].
  - by intros ->.
Qed.

Lemma entries_setValue s k p v :
  LRUwf s → nodeMap_ s !! k = Some p →
  filter (λ e, e.1 ≠ k) (entries (setValue p v s)) =
  filter (λ e, e.1 ≠ k) (entries s).
Proof.
  intros Hwf Hkp. apply (wf_map _ Hwf) in Hkp as Hp. destruct Hp as [Hp Hk].
  unfold entries. cbn [chain setValue].
  pose proof (wf_nodup _ Hwf) as Hnd.
  assert (Hinj : ∀ q, q ∈ chain s → key_ (node_at s q) = k → q = p).
  { intros q Hq Hq'. apply (LRUwf_keys_inj s p q); [done..|congruence]. }
  revert Hinj. generalize (chain s). intros c.
  induction c as [|q c IH]; intros Hinj; [done|]. rewrite !fmap_cons.
  assert (IH' : ∀ q', q' ∈ c → key_ (node_at s q') = k → q' = p).
  { intros q' Hq'. apply Hinj. by right. }
  destruct (decide (q = p)) as [->|Hne].
  - rewrite !filter_cons_False; [by apply IH| |].
    + cbn. intros Hn. by apply Hn.
    + cbn. rewrite key_setValue. intros Hn. by apply Hn.
  - assert (node_at (setValue p v s) q = node_at s q) as ->.
    { unfold node_at, setValue. cbn. by rewrite list_lookup_insert_ne. }
    destruct (decide (key_ (node_at s q) = k)) as [Hq|Hq].
    + exfalso. apply Hne. apply Hinj; [by left|done].
    + rewrite !filter_cons_True by done. f_equal. by apply IH.
Qed.

(** Simulation: the cache and the recency list, step by step. *)
Lemma sim_get s k d :
  LRUwf s →
  let '(hit, v, s1) := get_ref k d s in
  LRUwf s1 ∧ capacity_ s1 = capacity_ s ∧
  model_get k d (entries s) = (hit, v, entries s1).
Proof.
  intros Hwf. unfold get_ref, model_get. rewrite (lookup_entries s k Hwf).
  destruct (nodeMap_ s !! k) as [p|] eqn:Hkp;
    cbn [fmap option_fmap option_map]; [|done].
  destruct (entries_moveToMostRecent s k p Hwf Hkp) as [Hwf1 ->].
  done.
Qed.

Lemma sim_remove s k :
  LRUwf s →
  LRUwf (remove k s) ∧ capacity_ (remove k s) = capacity_ s ∧
  entries (remove k s) = model_remove k (entries s).
Proof.
  intros Hwf. unfold remove, model_remove.
  destruct (nodeMap_ s !! k) as [p|] eqn:Hkp.
  - pose proof Hwf as [Hnd Hm Ha Hsz].
    apply Hm in Hkp as Hp. destruct Hp as [Hp Hk].
    split_and!; [split; cbn|done|].
    + by apply NoDup_unlink.
    + intros k' q. unfold node_at. cbn. fold (node_at s q).
      rewrite lookup_delete, elem_of_unlink. case_decide as Hd.
      * subst k'. split; [done|]. intros [[Hq Hne] Hkq]. exfalso. apply Hne.
        apply (LRUwf_keys_inj s p q); [done..|congruence].
      * rewrite Hm. split; [|tauto]. intros [Hq Hkq]. split; [|done].
        split; [done|]. intros ->. congruence.
    + intros q [Hq _]%elem_of_unlink. by apply Ha.
    + rewrite map_size_delete_Some by eauto.
      rewrite <- (length_unlink_in p (chain s)) in Hsz by done. lia.
    + unfold entries. cbn.
      apply (fmap_unlink_key (λ q, (key_ (node_at s q), value_ (node_at s q)))).
      intros q Hq. cbn. split.
      * intros Hq'. apply (LRUwf_keys_inj s p q); [done..|congruence].
      * by intros ->.
  - split_and!; [done..|]. symmetry. apply filter_key_notin.
    rewrite entries_keys. by apply LRUwf_notin.
Qed.

Lemma sim_put s k v :
  LRUwf s → - 2 ^ 31 ≤ capacity_ s < 2 ^ 31 →
  ∃ s1, put k v s = Some s1 ∧ LRUwf s1 ∧ capacity_ s1 = capacity_ s ∧
    entries s1 = model_put (capacity_ s) k v (entries s).
Proof.
  intros Hwf HC. unfold put, model_put. case_decide as Hz; [by exists s|].
  rewrite (lookup_entries s k Hwf).
  destruct (nodeMap_ s !! k) as [p|] eqn:Hkp; cbn [fmap option_fmap option_map].
  - eexists. split; [done|]. unfold updateExistingNode.
    pose proof (LRUwf_setValue s p v Hwf) as Hwf1.
    destruct (entries_moveToMostRecent (setValue p v s) k p Hwf1 Hkp) as [Hwf2 ->].
    split_and!; [done|done|]. unfold model_touch.
    rewrite (entries_setValue s k p v Hwf Hkp). f_equal.
    rewrite value_setValue; [done|]. apply (wf_alloc _ Hwf).
    apply (wf_map _ Hwf) in Hkp. tauto.
  - unfold addNewNode. rewrite to_size_t_small by lia.
    rewrite (wf_size _ Hwf), length_entries.
    assert (∃ s1, (if decide (capacity_ s ≤ Z.of_nat (length (chain s)))
                   then evictLeastRecent s else Some s) = Some s1 ∧
              LRUwf s1 ∧ capacity_ s1 = capacity_ s ∧ nodeMap_ s1 !! k = None ∧
              entries s1 = (if decide (capacity_ s ≤ Z.of_nat (length (chain s)))
                            then tail (entries s) else entries s))
      as (s1 & -> & Hwf1 & Hc1 & Hnone1 & He1).
    { case_decide as Hfull; [|by exists s].
      destruct (chain s) as [|p0 rest] eqn:Hch; [cbn in Hfull; lia|].
      destruct (LRUwf_evictLeastRecent s p0 rest Hwf Hch)
        as (s1 & He & Hwf1 & Hc1 & _ & Hm1 & _).
      exists s1. split_and!; [done..| |].
      - rewrite Hm1, lookup_delete. by case_decide.
      - unfold evictLeastRecent in He. rewrite Hch in He.
        injection He as <-. unfold entries. cbn. rewrite Hch.
        pose proof (wf_nodup _ Hwf) as Hnd. rewrite Hch in Hnd.
        rewrite unlink_head; [done|]. by apply NoDup_cons in Hnd as [? _]. }
    cbn [mbind option_bind].
    destruct (LRUwf_link_new s1 k v Hwf1 Hnone1) as (Hwf' & _ & Hnew).
    cbv zeta in Hwf', Hnew.
    eexists. split; [reflexivity|]. split_and!; [exact Hwf'|done|].
    rewrite <- He1. unfold entries, insertNode. cbn [chain nodes].
    rewrite fmap_app. cbn [fmap list_fmap]. f_equal.
    + apply list_fmap_ext. intros i q Hq. unfold node_at. cbn [nodes].
      rewrite lookup_app_l; [done|]. apply (wf_alloc _ Hwf1).
      by eapply list_elem_of_lookup_2.
    + unfold insertNode in Hnew. cbn in Hnew. unfold node_at in *. cbn in *.
      by rewrite Hnew.
Qed.

Lemma sim_serve s r :
  LRUwf s → - 2 ^ 31 ≤ capacity_ s < 2 ^ 31 →
  ∃ s1, serve r s = Some (s1, (model_serve (capacity_ s) r (entries s)).2) ∧
    LRUwf s1 ∧ capacity_ s1 = capacity_ s ∧
    entries s1 = (model_serve (capacity_ s) r (entries s)).1.
Proof.
  intros Hwf HC. destruct r as [k v|k|k]; cbn [serve model_serve].
  - destruct (sim_put s k v Hwf HC) as (s1 & -> & ? & ? & ?). by exists s1.
  - pose proof (sim_get s k default_ctor Hwf) as Hg.
    destruct (get_ref k default_ctor s) as [[hit v] s1].
    destruct Hg as (? & ? & ->). by exists s1.
  - destruct (sim_remove s k Hwf) as (? & ? & ?). by eexists.
Qed.

Lemma sim_serve_all rs : ∀ s,
  LRUwf s → - 2 ^ 31 ≤ capacity_ s < 2 ^ 31 →
  ∃ s1, serve_all rs s = Some (s1, (model_serve_all (capacity_ s) rs (entries s)).2) ∧
    LRUwf s1 ∧ capacity_ s1 = capacity_ s ∧
    entries s1 = (model_serve_all (capacity_ s) rs (entries s)).1.
Proof.
  induction rs as [|r rs IH]; intros s Hwf HC; cbn [serve_all model_serve_all].
  - by exists s.
  - destruct (sim_serve s r Hwf HC) as (s1 & -> & Hwf1 & Hc1 & He1).
    cbn [mbind option_bind].
    destruct (IH s1 Hwf1 ltac:(by rewrite Hc1)) as (s2 & -> & Hwf2 & Hc2 & He2).
    cbn [mbind option_bind]. rewrite Hc1, He1 in *.
    destruct (model_serve (capacity_ s) r (entries s)) as [l1 o].
    cbn [fst snd] in *.
    destruct (model_serve_all (capacity_ s) rs l1) as [l2 os].
    exists s2. split_and!; [done|done|congruence|done].
Qed.

(** X1. Every workload of [put], [get] and [remove] on an [LRUCache]
    whose capacity is any [int] completes, and the cache behaves as the
    recency list of the reference model: the results of the [get]
    requests are those of the model, the linked entries are the model's
    list, least recently used first, and the key index holds exactly the
    entries of that list. *)
Theorem LRU_refines_recency_list (C : Z) (rs : list (request (Key:=Key) (Value:=Value))) :
  - 2 ^ 31 ≤ C < 2 ^ 31 →
  ∃ s, serve_all rs (LRUCache_new C) = Some (s, (model_serve_all C rs []).2) ∧
    entries s = (model_serve_all C rs []).1 ∧
    size (nodeMap_ s) = length (entries s) ∧
    ∀ k, (λ p, value_ (node_at s p)) <$> nodeMap_ s !! k
         = model_lookup k (entries s).
Proof.
  intros HC.
  destruct (sim_serve_all rs (LRUCache_new C) (LRUwf_new C) HC)
    as (s & Hrun & Hwf & _ & He).
  exists s. split_and!; [exact Hrun|exact He| |].
  - rewrite length_entries. apply (wf_size _ Hwf).
  - intros k. symmetry. by apply lookup_entries.
Qed.

(** ** Properties of the reference model *)

Lemma elem_of_model_touch k v l e :
  e ∈ model_touch k v l ↔ (e ∈ l ∧ e.1 ≠ k) ∨ e = (k, v).
Proof.
  unfold model_touch.
  rewrite elem_of_app, list_elem_of_filter, list_elem_of_singleton. tauto.
Qed.

Lemma NoDup_filter_keys k l :
  NoDup l.*1 → NoDup (filter (λ e, e.1 ≠ k) l).*1 ∧ k ∉ (filter (λ e, e.1 ≠ k) l).*1.
Proof.
  intros Hnd. split.
  - eapply sublist_NoDup; [exact Hnd|]. apply fmap_sublist, sublist_filter.
  - intros Hin. apply list_elem_of_fmap in Hin as (e & -> & He).
    apply list_elem_of_filter in He as [He _]. done.
Qed.

Lemma NoDup_model_touch k v l : NoDup l.*1 → NoDup (model_touch k v l).*1.
Proof.
  intros Hnd. unfold model_touch. rewrite fmap_app. cbn.
  destruct (NoDup_filter_keys k l Hnd) as [Hf Hk].
  apply NoDup_app. split_and!; [done| |apply NoDup_singleton].
  intros x Hx Hx'. apply list_elem_of_singleton in Hx'. by subst x.
Qed.

Lemma length_model_touch k v l :
  k ∈ l.*1 → Z.of_nat (length (model_touch k v l)) ≤ Z.of_nat (length l).
Proof.
  intros Hk. apply list_elem_of_fmap in Hk as (e & -> & He).
  unfold model_touch. rewrite length_app. cbn.
  assert (length (filter (λ e', e'.1 ≠ e.1) l) < length l)%nat as Hlt.
  { apply (length_filter_lt _ l e He). intros Hn. by apply Hn. }
  lia.
Qed.

Lemma model_serve_inv C m l r :
  model_inv C m l → model_inv C (written_step m r) (model_serve C r l).1.
Proof.
  intros (Hnd & Hlen & Hsub). destruct r as [k v|k|k]; cbn [model_serve written_step].
  - cbn [fst]. unfold model_put. case_decide as Hz.
    { split_and!; [done|done|]. assert (l = []) as -> by (destruct l; [done|cbn in Hlen; lia]).
      intros k' v' Hin. by apply elem_of_nil in Hin. }
    destruct (model_lookup k l) as [w|] eqn:Hl.
    + split_and!.
      * by apply NoDup_model_touch.
      * etrans; [|exact Hlen]. apply length_model_touch.
        apply model_lookup_Some in Hl; [|done].
        apply list_elem_of_fmap. by exists (k, w).
      * intros k' v'. rewrite elem_of_model_touch, lookup_insert.
        intros [[Hin Hne]|[= -> ->]]; [|by rewrite decide_True].
        rewrite decide_False by (cbn in Hne; congruence). by apply Hsub.
    + apply model_lookup_None in Hl.
      set (l0 := if decide (C ≤ Z.of_nat (length l)) then tail l else l).
      assert (Hsl : l0 `sublist_of` l).
      { unfold l0. case_decide; [|done]. destruct l; [done|]. by apply sublist_cons. }
      split_and!.
      * rewrite fmap_app. cbn. apply NoDup_app. split_and!.
        -- eapply sublist_NoDup; [exact Hnd|]. by apply fmap_sublist.
        -- intros x Hx Hx'. apply list_elem_of_singleton in Hx'. subst x.
           apply Hl. eapply elem_of_sublist; [exact Hx|]. by apply fmap_sublist.
        -- apply NoDup_singleton.
      * rewrite length_app. cbn. unfold l0. case_decide as Hfull.
        -- destruct l; cbn in *; lia.
        -- lia.
      * intros k' v'. rewrite elem_of_app, list_elem_of_singleton, lookup_insert.
        intros [Hin|[= -> ->]]; [|by rewrite decide_True].
        assert ((k', v') ∈ l) as Hin' by (by eapply elem_of_sublist).
        rewrite decide_False; [by apply Hsub|].
        intros ->. apply Hl. apply list_elem_of_fmap. by exists (k', v').
  - unfold model_get. destruct (model_lookup k l) as [w|] eqn:Hl; cbn [fst]; [|done].
    apply model_lookup_Some in Hl; [|done].
    split_and!.
    + by apply NoDup_model_touch.
    + etrans; [|exact Hlen]. apply length_model_touch.
      apply list_elem_of_fmap. by exists (k, w).
    + intros k' v'. rewrite elem_of_model_touch.
      intros [[Hin _]|[= -> ->]]; by apply Hsub.
  - cbn [fst]. unfold model_remove. split_and!.
    + by apply NoDup_filter_keys.
    + etrans; [|exact Hlen]. apply Nat2Z.inj_le, length_filter.
    + intros k' v'. rewrite list_elem_of_filter, lookup_delete. cbn.
      intros [Hne Hin]. rewrite decide_False by congruence. by apply Hsub.
Qed.

Lemma model_serve_all_inv C rs : ∀ m l,
  model_inv C m l →
  model_inv C (foldl written_step m rs) (model_serve_all C rs l).1.
Proof.
  induction rs as [|r rs IH]; intros m l Hinv; cbn [model_serve_all foldl]; [done|].
  pose proof (model_serve_inv C m l r Hinv) as H1'.
  destruct (model_serve C r l) as [l1 o]. cbn [fst] in H1'.
  specialize (IH _ _ H1').
  destruct (model_serve_all C rs l1) as [l2 os]. done.
Qed.

Lemma model_inv_self C l :
  NoDup l.*1 → Z.of_nat (length l) ≤ Z.max C 0 → model_inv C (list_to_map l) l.
Proof.
  intros Hnd Hlen. split_and!; [done|done|].
  intros k v Hin. by apply elem_of_list_to_map_1.
Qed.

Lemma bounded_serve s r :
  LRUbounded s →
  ∃ s1, serve r s = Some (s1, (model_serve (capacity_ s) r (entries s)).2) ∧
    LRUbounded s1 ∧ capacity_ s1 = capacity_ s ∧
    entries s1 = (model_serve (capacity_ s) r (entries s)).1.
Proof.
  intros (Hwf & HC & Hlen).
  destruct (sim_serve s r Hwf HC) as (s1 & Hs & Hwf1 & Hc1 & He1).
  exists s1. split_and!; [done| |done|done].
  split; [done|]. split; [by rewrite Hc1|].
  rewrite (wf_size _ Hwf1), <- length_entries, He1, Hc1.
  eapply (model_serve_inv (capacity_ s) (list_to_map (entries s))).
  apply model_inv_self; [by apply LRUwf_NoDup_keys|].
  by rewrite length_entries, <- (wf_size _ Hwf).
Qed.

Lemma bounded_put s k v :
  LRUbounded s →
  ∃ s1, put k v s = Some s1 ∧ LRUbounded s1 ∧ capacity_ s1 = capacity_ s ∧
    entries s1 = model_put (capacity_ s) k v (entries s).
Proof.
  intros Hb. destruct (bounded_serve s (ReqPut k v) Hb) as (s1 & Hs & ? & ? & ?).
  exists s1. split_and!; [|done..]. cbn [serve] in Hs.
  destruct (put k v s) as [s'|]; [|done]. cbn in Hs. congruence.
Qed.

Lemma bounded_get_ref s k d :
  LRUbounded s →
  ∃ hit v s1, get_ref k d s = (hit, v, s1) ∧
    LRUbounded s1 ∧ capacity_ s1 = capacity_ s ∧
    nodeMap_ s1 = nodeMap_ s ∧ nodes s1 = nodes s ∧
    model_get k d (entries s) = (hit, v, entries s1).
Proof.
  intros (Hwf & HC & Hlen). pose proof (sim_get s k d Hwf) as Hg.
  assert (nodeMap_ (get_ref k d s).2 = nodeMap_ s ∧
          nodes (get_ref k d s).2 = nodes s) as [Hm Hn].
  { unfold get_ref. by destruct (nodeMap_ s !! k). }
  destruct (get_ref k d s) as [[hit v] s1]. destruct Hg as (Hwf1 & Hc1 & Hg).
  cbn [fst snd] in *. exists hit, v, s1. split_and!; [done| |done..].
  split; [done|]. split; [by rewrite Hc1|by rewrite Hm, Hc1].
Qed.

Lemma bounded_remove s k :
  LRUbounded s →
  LRUbounded (remove k s) ∧ capacity_ (remove k s) = capacity_ s ∧
  entries (remove k s) = model_remove k (entries s).
Proof.
  intros Hb. destruct (bounded_serve s (ReqRemove k) Hb) as (s1 & Hs & ? & ? & ?).
  cbn [serve] in Hs. injection Hs as <-. done.
Qed.

Lemma LRUbounded_new C :
  - 2 ^ 31 ≤ C < 2 ^ 31 → LRUbounded (LRUCache_new (Key:=Key) (Value:=Value) C).
Proof.
  intros HC. split; [apply LRUwf_new|]. split; [done|].
  cbn. rewrite map_size_empty. lia.
Qed.

Lemma model_lookup_touch k v l :
  NoDup l.*1 → model_lookup k (model_touch k v l) = Some v.
Proof.
  intros Hnd. apply model_lookup_Some; [by apply NoDup_model_touch|].
  apply elem_of_model_touch. by right.
Qed.

Lemma model_lookup_put k v l C :
  0 < C → NoDup l.*1 → model_lookup k (model_put C k v l) = Some v.
Proof.
  intros HC Hnd. unfold model_put. rewrite decide_False by lia.
  destruct (model_lookup k l) eqn:Hl; [by apply model_lookup_touch|].
  apply model_lookup_None in Hl.
  set (l0 := if decide (C ≤ Z.of_nat (length l)) then tail l else l).
  assert (Hsl : l0 `sublist_of` l).
  { unfold l0. case_decide; [|done]. destruct l; [done|]. by apply sublist_cons. }
  apply model_lookup_Some.
  - rewrite fmap_app. cbn. apply NoDup_app. split_and!.
    + eapply sublist_NoDup; [exact Hnd|]. by apply fmap_sublist.
    + intros x Hx Hx'. apply list_elem_of_singleton in Hx'. subst x.
      apply Hl. eapply elem_of_sublist; [exact Hx|]. by apply fmap_sublist.
    + apply NoDup_singleton.
  - apply elem_of_app. right. by apply list_elem_of_singleton.
Qed.

(** A [put] followed by a [get] of the same key on a bounded cache of
    positive capacity. *)
Lemma bounded_put_get s k v d :
  LRUbounded s → 1 ≤ capacity_ s →
  ∃ s1, put k v s = Some s1 ∧ LRUbounded s1 ∧ capacity_ s1 = capacity_ s ∧
    (get_ref k d s1).1 = (true, v).
Proof.
  intros Hb HC. destruct (bounded_put s k v Hb) as (s1 & Hput & Hb1 & Hc1 & He1).
  exists s1. split_and!; [done..|].
  destruct (bounded_get_ref s1 k d Hb1) as (hit & w & s2 & -> & _ & _ & _ & _ & Hg).
  unfold model_get in Hg. rewrite He1, model_lookup_put in Hg; [|lia|].
  - cbn. congruence.
  - apply LRUwf_NoDup_keys, Hb.
Qed.

(** X2. After any workload of [put], [get] and [remove] on an [LRUCache]
    of capacity [C], the index holds at most [C] entries (none when
    [C <= 0]), and a [get] never returns a stale value: when it hits, the
    value is the one most recently [put] under that key, and the key was
    not removed since. *)
Theorem LRU_get_returns_last_written (C : Z)
    (rs : list (request (Key:=Key) (Value:=Value))) :
  - 2 ^ 31 ≤ C < 2 ^ 31 →
  ∃ s outs, serve_all rs (LRUCache_new C) = Some (s, outs) ∧
    Z.of_nat (size (nodeMap_ s)) ≤ Z.max C 0 ∧
    ∀ k d v, (get_ref k d s).1 = (true, v) → written rs !! k = Some v.
Proof.
  intros HC.
  destruct (sim_serve_all rs (LRUCache_new C) (LRUwf_new C) HC)
    as (s & Hrun & Hwf & _ & He).
  assert (model_inv (Key:=Key) (Value:=Value) C ∅ []) as Hinv0.
  { split_and!; [constructor|cbn; lia|]. intros k v Hin. by apply elem_of_nil in Hin. }
  pose proof (model_serve_all_inv C rs ∅ [] Hinv0) as (Hnd & Hlen & Hsub).
  change (entries (LRUCache_new C)) with (@nil (Key * Value)) in He.
  cbn [capacity_ LRUCache_new] in He. rewrite <- He in Hnd, Hlen, Hsub.
  eexists s, _. split_and!; [exact Hrun| |].
  - rewrite (wf_size _ Hwf), <- length_entries. exact Hlen.
  - intros k d v Hget. apply Hsub. apply model_lookup_Some; [done|].
    pose proof (sim_get s k d Hwf) as Hg.
    destruct (get_ref k d s) as [[hit v'] s1]. cbn in Hget.
    injection Hget as -> ->. destruct Hg as (_ & _ & Hg).
    unfold model_get in Hg. destruct (model_lookup k (entries s)); congruence.
Qed.
End LRUModel.


(* ================================================================== *)
(** * Round trips over the public interfaces *)

Section RoundTripAll.
Context {Key Value : Type} `{Countable Key}.
Context `{DefaultCtor Key} `{DefaultCtor Value}.

(** Every workload on the public interface of [LRUCache], [remove]
    included, completes and keeps the cache well formed and within its
    capacity. *)
Lemma bounded_serve_all (rs : list (LRU.request (Key:=Key) (Value:=Value))) :
  ∀ s, LRU.LRUbounded s →
    ∃ s1 outs, LRU.serve_all rs s = Some (s1, outs) ∧
      LRU.LRUbounded s1 ∧ LRU.capacity_ s1 = LRU.capacity_ s.
Proof.
  induction rs as [|r rs IH]; intros s Hb; cbn [LRU.serve_all].
  - by exists s, [].
  - destruct (bounded_serve s r Hb) as (s1 & -> & Hb1 & Hc1 & _).
    cbn [mbind option_bind].
    destruct (IH s1 Hb1) as (s2 & outs & -> & Hb2 & Hc2).
    cbn [mbind option_bind]. eexists _, _. split; [done|].
    split; [done|congruence].
Qed.

(** C9 (amended). For an [LRUCache] and for an [LFUCache] of capacity
    [C >= 1], in every state reached by a workload on the public
    interface ([put], [get] and [remove] for the first, [put], [get] and
    [purge] for the second): [put(k, v)] followed at once by [get(k)] hits
    and returns [v], and [put(k, v1)], [put(k, v2)], [get(k)] hits and
    returns [v2]. *)
Theorem put_then_get_hits (C M : Z)
    (lru_reqs : list (LRU.request (Key:=Key) (Value:=Value)))
    (lfu_ops : list (LFU.op (Key:=Key) (Value:=Value)))
    (k : Key) (v v1 v2 d : Value) :
  1 ≤ C < 2 ^ 31 →
  (∃ s outs, LRU.serve_all lru_reqs (LRU.LRUCache_new C) = Some (s, outs) ∧
     (∃ s1, LRU.put k v s = Some s1 ∧ (LRU.get_ref k d s1).1 = (true, v)) ∧
     (∃ s1 s2, LRU.put k v1 s = Some s1 ∧ LRU.put k v2 s1 = Some s2 ∧
        (LRU.get_ref k d s2).1 = (true, v2))) ∧
  (∃ s, LFU.run lfu_ops (LFU.LFUCache_new C M) = Some s ∧
     (∃ s1 s2, LFU.put k v s = Some s1 ∧
        LFU.get_ref k d s1 = Some (true, v, s2)) ∧
     (∃ s1 s2 s3, LFU.put k v1 s = Some s1 ∧ LFU.put k v2 s1 = Some s2 ∧
        LFU.get_ref k d s2 = Some (true, v2, s3))).
Proof.
  intros HC. split.
  - destruct (bounded_serve_all lru_reqs (LRU.LRUCache_new C)
                (LRUbounded_new C ltac:(lia))) as (s & outs & Hrun & Hb & Hc).
    cbn in Hc. exists s, outs. split; [done|]. split.
    + destruct (bounded_put_get s k v d Hb ltac:(lia)) as (s1 & ? & _ & _ & ?).
      by exists s1.
    + destruct (bounded_put_get s k v1 d Hb ltac:(lia)) as (s1 & ? & Hb1 & Hc1 & _).
      destruct (bounded_put_get s1 k v2 d Hb1 ltac:(lia)) as (s2 & ? & _ & _ & ?).
      by exists s1, s2.
  - destruct (run_ok lfu_ops (LFU.LFUCache_new C M) (LFUwf_new C M)
                ltac:(cbn; lia)) as (s & Hrun & Hwf & Hc & _).
    cbn in Hc. exists s. split; [done|].
    assert (Hstep : ∀ s0 w, LFU.LFUwf s0 → LFU.capacity_ s0 = C →
              ∃ s1 s2, LFU.put k w s0 = Some s1 ∧ LFU.LFUwf s1 ∧
                LFU.capacity_ s1 = C ∧
                LFU.get_ref k d s1 = Some (true, w, s2)).
    { intros s0 w Hwf0 Hc0.
      destruct (put_ok s0 k w Hwf0 ltac:(lia) ltac:(lia))
        as (s1 & p & Hput & Hwf1 & Hc1 & _ & Hkp & Hv).
      destruct (get_ref_ok s1 k d Hwf1)
        as (hit & w' & s2 & Hget & _ & _ & _ & Hhit & _).
      destruct (Hhit p Hkp) as (-> & -> & _).
      exists s1, s2. split_and!; [done|done|congruence|by rewrite Hget, Hv]. }
    split.
    + destruct (Hstep s v Hwf Hc) as (s1 & s2 & ? & _ & _ & ?). by exists s1, s2.
    + destruct (Hstep s v1 Hwf Hc) as (s1 & _ & ? & Hwf1 & Hc1 & _).
      destruct (Hstep s1 v2 Hwf1 Hc1) as (s2 & s3 & ? & _ & _ & ?).
      by exists s1, s2, s3.
Qed.
End RoundTripAll.


(* ================================================================== *)
(** * LRUKCache workloads *)

Section LRUKWorkloads.
Context {Key : Type} `{Countable Key} `{DefaultCtor Key}.
Import LRUK.
Implicit Types (s : LRUKCache (Key:=Key)) (k : Key) (v w : string).

Lemma LRUK_bumpHistory_ok (h : LRU.LRUCache (Key:=Key) (Value:=Z)) k :
  LRU.LRUbounded h →
  ∃ c h', bumpHistory k h = Some (c, h') ∧ LRU.LRUbounded h' ∧
    LRU.capacity_ h' = LRU.capacity_ h.
Proof.
  intros Hb. unfold bumpHistory, LRU.get.
  destruct (bounded_get_ref h k default_ctor Hb)
    as (hit & c & h1 & -> & Hb1 & Hc1 & _).
  destruct (bounded_put h1 k (to_size_t (to_int c + 1)) Hb1)
    as (h2 & -> & Hb2 & Hc2 & _).
  cbn. eexists _, _. split; [done|]. split; [done|congruence].
Qed.

(** [LRUCache::get] on the main cache: the value is the cached one, or
    the empty string. *)
Lemma LRUK_main_get_ok s k :
  LRU.LRUbounded (base s) →
  ∃ b, LRU.get k (base s) = (default EmptyString (main_value k s), b) ∧
    LRU.LRUbounded b ∧ LRU.capacity_ b = LRU.capacity_ (base s) ∧
    LRU.nodeMap_ b = LRU.nodeMap_ (base s) ∧ LRU.nodes b = LRU.nodes (base s) ∧
    LRU.model_lookup k (LRU.entries b) = main_value k s.
Proof.
  intros Hb. unfold LRU.get, main_value.
  destruct (bounded_get_ref (base s) k default_ctor Hb)
    as (hit & v & b & -> & Hb1 & Hc1 & Hm1 & Hn1 & Hg).
  exists b. unfold LRU.model_get in Hg.
  destruct (LRU.model_lookup k (LRU.entries (base s))) as [w|] eqn:Hl.
  - injection Hg as <- <- <-. split_and!; try done.
    apply model_lookup_touch. apply LRUwf_NoDup_keys, Hb.
  - injection Hg as <- <- <-. by rewrite Hl.
Qed.

Lemma LRUK_get_ok s k :
  LRUKwf s →
  ∃ s', get k s = Some (default EmptyString (main_value k s), s') ∧
    LRUKwf s' ∧ k_ s' = k_ s ∧
    LRU.capacity_ (base s') = LRU.capacity_ (base s) ∧
    LRU.capacity_ (historyList_ s') = LRU.capacity_ (historyList_ s) ∧
    LRU.nodeMap_ (base s') = LRU.nodeMap_ (base s) ∧
    LRU.nodes (base s') = LRU.nodes (base s) ∧
    main_value k s' = main_value k s.
Proof.
  intros [Hb Hh]. unfold get.
  destruct (LRUK_bumpHistory_ok (historyList_ s) k Hh) as (c & h' & -> & Hh' & Hch).
  cbn [mbind option_bind].
  destruct (LRUK_main_get_ok s k Hb) as (b & -> & Hb' & Hcb & Hm & Hn & Hl).
  eexists. split; [done|]. by split_and!.
Qed.

Lemma LRUK_put_ok s k v :
  LRUKwf s →
  ∃ s', put k v s = Some s' ∧ LRUKwf s' ∧ k_ s' = k_ s ∧
    LRU.capacity_ (base s') = LRU.capacity_ (base s) ∧
    LRU.capacity_ (historyList_ s') = LRU.capacity_ (historyList_ s).
Proof.
  intros [Hb Hh]. unfold put.
  destruct (LRUK_main_get_ok s k Hb) as (b0 & -> & Hb0 & Hc0 & _).
  assert (∃ b1, (if decide (default EmptyString (main_value k s) ≠ EmptyString)
                 then LRU.put k v b0 else Some b0) = Some b1 ∧
            LRU.LRUbounded b1 ∧ LRU.capacity_ b1 = LRU.capacity_ (base s))
    as (b1 & -> & Hb1 & Hc1).
  { case_decide.
    - destruct (bounded_put b0 k v Hb0) as (b1 & -> & ? & ? & _).
      exists b1. split_and!; [done|done|congruence].
    - by exists b0. }
  cbn [mbind option_bind].
  destruct (LRUK_bumpHistory_ok (historyList_ s) k Hh) as (c & h' & -> & Hh' & Hch).
  cbn [mbind option_bind]. case_decide.
  - destruct (bounded_put b1 k v Hb1) as (b2 & -> & Hb2 & Hc2 & _).
    cbn [mbind option_bind].
    destruct (bounded_remove h' k Hh') as (Hh2 & Hch2 & _).
    eexists. split; [done|]. split_and!; [by split|done|cbn; congruence|cbn; congruence].
  - eexists. split; [done|]. split_and!; [by split|done..].
Qed.

Lemma LRUK_run_ok ops : ∀ s,
  LRUKwf s →
  ∃ s', run ops s = Some s' ∧ LRUKwf s' ∧ k_ s' = k_ s ∧
    LRU.capacity_ (base s') = LRU.capacity_ (base s) ∧
    LRU.capacity_ (historyList_ s') = LRU.capacity_ (historyList_ s).
Proof.
  induction ops as [|o ops IH]; intros s Hwf; cbn [run].
  - by exists s.
  - assert (∃ s1, exec o s = Some s1 ∧ LRUKwf s1 ∧ k_ s1 = k_ s ∧
              LRU.capacity_ (base s1) = LRU.capacity_ (base s) ∧
              LRU.capacity_ (historyList_ s1) = LRU.capacity_ (historyList_ s))
      as (s1 & -> & Hwf1 & Hk1 & Hc1 & Hh1).
    { destruct o as [k v|k]; cbn [exec].
      - by apply LRUK_put_ok.
      - destruct (LRUK_get_ok s k Hwf) as (s1 & -> & ? & ? & ? & ? & _).
        by exists s1. }
    cbn [mbind option_bind].
    destruct (IH s1 Hwf1) as (s2 & -> & ? & ? & ? & ?).
    exists s2. split_and!; [done|done|congruence..].
Qed.

Lemma LRUKwf_new C Hc K :
  - 2 ^ 31 ≤ C < 2 ^ 31 → - 2 ^ 31 ≤ Hc < 2 ^ 31 →
  LRUKwf (LRUKCache_new (Key:=Key) C Hc K).
Proof. intros. split; by apply LRUbounded_new. Qed.

(** X3. Every workload of [put] and [get] on an [LRUKCache] whose two
    capacities are [int]s completes, and afterwards the main cache holds
    at most [capacity] entries and the history list at most
    [historyCapacity] entries (none for a capacity of 0 or less). *)
Theorem LRUK_capacity_bounds (C Hc K : Z) (ops : list (op (Key:=Key))) :
  - 2 ^ 31 ≤ C < 2 ^ 31 → - 2 ^ 31 ≤ Hc < 2 ^ 31 →
  ∃ s, run ops (LRUKCache_new C Hc K) = Some s ∧
    Z.of_nat (size (LRU.nodeMap_ (base s))) ≤ Z.max C 0 ∧
    Z.of_nat (size (LRU.nodeMap_ (historyList_ s))) ≤ Z.max Hc 0.
Proof.
  intros HC HH.
  destruct (LRUK_run_ok ops _ (LRUKwf_new C Hc K HC HH))
    as (s & Hrun & [(_ & _ & Hb) (_ & _ & Hh)] & _ & Hcb & Hch).
  exists s. split; [done|]. rewrite Hcb in Hb. rewrite Hch in Hh. done.
Qed.

(** X4. In every state reached by a workload, [LRUKCache::get] completes,
    returns the value the main cache holds under the key, or the empty
    string when the key is not cached, and admits nothing: the key index
    and the nodes of the main cache are the same afterwards. *)
Theorem LRUK_get_only_reads_main (C Hc K : Z) (ops : list (op (Key:=Key))) k :
  - 2 ^ 31 ≤ C < 2 ^ 31 → - 2 ^ 31 ≤ Hc < 2 ^ 31 →
  ∃ s s', run ops (LRUKCache_new C Hc K) = Some s ∧
    get k s = Some (default EmptyString (main_value k s), s') ∧
    LRU.nodeMap_ (base s') = LRU.nodeMap_ (base s) ∧
    LRU.nodes (base s') = LRU.nodes (base s) ∧
    main_value k s' = main_value k s.
Proof.
  intros HC HH.
  destruct (LRUK_run_ok ops _ (LRUKwf_new C Hc K HC HH)) as (s & Hrun & Hwf & _).
  destruct (LRUK_get_ok s k Hwf) as (s' & Hget & _ & _ & _ & _ & ? & ? & ?).
  by exists s, s'.
Qed.

(** X5. With a history capacity of 0 or less and a threshold of 2 or
    more no access is ever counted, so nothing is ever admitted: every
    workload leaves the cache in its initial state, and every [get]
    returns the empty string. *)
Theorem LRUK_without_history_admits_nothing (C Hc K : Z)
    (ops : list (op (Key:=Key))) k :
  Hc ≤ 0 → 2 ≤ K →
  run ops (LRUKCache_new C Hc K) = Some (LRUKCache_new C Hc K) ∧
  get k (LRUKCache_new C Hc K) = Some (EmptyString, LRUKCache_new C Hc K).
Proof.
  intros HH HK.
  assert (Hbump : ∀ k', bumpHistory k' (LRU.LRUCache_new (Key:=Key) Hc)
                        = Some (1, LRU.LRUCache_new Hc)).
  { intros k'. unfold bumpHistory, LRU.get, LRU.get_ref. cbn.
    rewrite lookup_empty. unfold LRU.put. cbn. by rewrite decide_True. }
  assert (Hget : ∀ k', get k' (LRUKCache_new C Hc K)
                       = Some (EmptyString, LRUKCache_new C Hc K)).
  { intros k'. unfold get. cbn [historyList_ LRUKCache_new]. rewrite Hbump.
    cbn. unfold LRU.get, LRU.get_ref. cbn. by rewrite lookup_empty. }
  split; [|apply Hget].
  induction ops as [|[k' v'|k'] ops IH]; cbn [run exec]; [done|..].
  - assert (put k' v' (LRUKCache_new C Hc K) = Some (LRUKCache_new C Hc K)) as ->.
    { unfold put. cbn [base historyList_ LRUKCache_new k_].
      unfold LRU.get at 1, LRU.get_ref. cbn [LRU.nodeMap_ LRU.LRUCache_new].
      rewrite lookup_empty. rewrite decide_False by (intros Hn; by apply Hn).
      cbn [mbind option_bind]. rewrite Hbump. cbn [mbind option_bind].
      by rewrite decide_False by lia. }
    exact IH.
  - rewrite Hget. exact IH.
Qed.

(** X6. In every state reached by a workload, a [put(k, v)] on a key
    that the main cache holds with a non-empty value overwrites that
    value, whatever the history count of the key. *)
Theorem LRUK_put_overwrites_cached_value (C Hc K : Z) (ops : list (op (Key:=Key)))
    k v w :
  - 2 ^ 31 ≤ C < 2 ^ 31 → - 2 ^ 31 ≤ Hc < 2 ^ 31 →
  run ops (LRUKCache_new C Hc K) ≫= main_value k = Some w → w ≠ EmptyString →
  ∃ s s', run ops (LRUKCache_new C Hc K) = Some s ∧
    put k v s = Some s' ∧ main_value k s' = Some v.
Proof.
  intros HC HH Hw Hne.
  destruct (LRUK_run_ok ops _ (LRUKwf_new C Hc K HC HH))
    as (s & Hrun & [Hb Hh] & _ & Hcb & _).
  rewrite Hrun in Hw. cbn [mbind option_bind] in Hw. cbn in Hcb.
  exists s. cut (∃ s', put k v s = Some s' ∧ main_value k s' = Some v).
  { intros (s' & ? & ?). by exists s'. }
  assert (1 ≤ C) as Hpos.
  { destruct Hb as (Hwf & _ & Hlen). rewrite Hcb in Hlen.
    unfold main_value in Hw. rewrite (lookup_entries _ k Hwf) in Hw.
    destruct (LRU.nodeMap_ (base s) !! k) as [p|] eqn:Hkp; [|done].
    assert (size (LRU.nodeMap_ (base s)) ≠ 0%nat); [|lia].
    intros Hz. apply map_size_empty_inv in Hz. by rewrite Hz, lookup_empty in Hkp. }
  unfold put.
  destruct (LRUK_main_get_ok s k Hb) as (b0 & -> & Hb0 & Hc0 & _).
  rewrite Hw. cbn [default]. rewrite decide_True by done.
  destruct (bounded_put b0 k v Hb0) as (b1 & -> & Hb1 & Hc1 & He1).
  cbn [mbind option_bind].
  destruct (LRUK_bumpHistory_ok (historyList_ s) k Hh) as (c & h' & -> & Hh' & Hch).
  cbn [mbind option_bind].
  assert (LRU.model_lookup k (LRU.entries b1) = Some v) as Hl1.
  { rewrite He1. apply model_lookup_put; [lia|]. apply LRUwf_NoDup_keys, Hb0. }
  case_decide.
  - destruct (bounded_put b1 k v Hb1) as (b2 & -> & Hb2 & Hc2 & He2).
    cbn [mbind option_bind]. eexists. split; [done|].
    unfold main_value. cbn [base]. rewrite He2.
    apply model_lookup_put; [lia|]. apply LRUwf_NoDup_keys, Hb1.
  - eexists. split; [done|]. done.
Qed.

(** X7. The empty string doubles as the miss value of
    [LRUCache::get]: in every state reached by a workload, a [put(k, v)]
    on a key that the main cache holds with the empty string as its
    value does not overwrite it as long as the history count of the key
    stays below the threshold. *)
Theorem LRUK_put_skips_key_cached_with_empty_value (C Hc K : Z)
    (ops : list (op (Key:=Key))) k v c :
  - 2 ^ 31 ≤ C < 2 ^ 31 → - 2 ^ 31 ≤ Hc < 2 ^ 31 →
  run ops (LRUKCache_new C Hc K) ≫= main_value k = Some EmptyString →
  (s ← run ops (LRUKCache_new C Hc K); fst <$> bumpHistory k (historyList_ s))
    = Some c →
  c < K →
  ∃ s s', run ops (LRUKCache_new C Hc K) = Some s ∧
    put k v s = Some s' ∧ main_value k s' = Some EmptyString.
Proof.
  intros HC HH Hw Hbump Hlt.
  destruct (LRUK_run_ok ops _ (LRUKwf_new C Hc K HC HH))
    as (s & Hrun & [Hb Hh] & Hk & _).
  rewrite Hrun in Hw, Hbump. cbn [mbind option_bind] in Hw, Hbump. cbn in Hk.
  destruct (bumpHistory k (historyList_ s)) as [[c' h]|] eqn:Hbump'; [|done].
  cbn in Hbump. injection Hbump as ->. rename Hbump' into Hbump.
  exists s. cut (∃ s', put k v s = Some s' ∧ main_value k s' = Some EmptyString).
  { intros (s' & ? & ?). by exists s'. }
  unfold put.
  destruct (LRUK_main_get_ok s k Hb) as (b0 & -> & Hb0 & Hc0 & _ & _ & Hl0).
  rewrite Hw. cbn [default]. rewrite decide_False by (intros Hn; by apply Hn).
  cbn [mbind option_bind]. rewrite Hbump. cbn [mbind option_bind].
  rewrite decide_False by lia.
  eexists. split; [done|]. unfold main_value. cbn [base]. by rewrite Hl0.
Qed.


(** X19. The other half of the admission rule, in every state reached
    by a workload: a [put] of a key that is not in the main cache whose
    increment leaves the history count of the key below the threshold
    does not admit the key; the value passed to it is dropped. *)
Theorem LRUK_put_below_threshold_does_not_admit (C Hc K : Z)
    (ops : list (op (Key:=Key))) k v c :
  - 2 ^ 31 ≤ C < 2 ^ 31 → - 2 ^ 31 ≤ Hc < 2 ^ 31 →
  run ops (LRUKCache_new C Hc K) ≫= main_value k = None →
  (s ← run ops (LRUKCache_new C Hc K); fst <$> bumpHistory k (historyList_ s))
    = Some c →
  c < K →
  ∃ s s', run ops (LRUKCache_new C Hc K) = Some s ∧
    put k v s = Some s' ∧ main_value k s' = None ∧
    LRU.nodeMap_ (base s') = LRU.nodeMap_ (base s).
Proof.
  intros HC HH Hw Hbump Hlt.
  destruct (LRUK_run_ok ops _ (LRUKwf_new C Hc K HC HH))
    as (s & Hrun & [Hb Hh] & Hk & _).
  rewrite Hrun in Hw, Hbump. cbn [mbind option_bind] in Hw, Hbump. cbn in Hk.
  destruct (bumpHistory k (historyList_ s)) as [[c' h]|] eqn:Hbump'; [|done].
  cbn in Hbump. injection Hbump as ->.
  exists s.
  cut (∃ s', put k v s = Some s' ∧ main_value k s' = None ∧
             LRU.nodeMap_ (base s') = LRU.nodeMap_ (base s)).
  { intros (s' & ? & ? & ?). by exists s'. }
  unfold put.
  destruct (LRUK_main_get_ok s k Hb) as (b0 & -> & Hb0 & Hc0 & Hm0 & _ & Hl0).
  rewrite Hw. cbn [default]. rewrite decide_False by (intros Hn; by apply Hn).
  cbn [mbind option_bind]. rewrite Hbump'. cbn [mbind option_bind].
  rewrite decide_False by lia.
  eexists. split; [done|]. unfold main_value. cbn [base]. by rewrite Hl0, Hw.
Qed.
End LRUKWorkloads.


(* ================================================================== *)
(** * Sharded caches *)

Lemma slice_size_range capacity n :
  0 < n → 0 ≤ capacity →
  0 ≤ slice_size capacity n ≤ capacity ∧ (1 ≤ capacity → 1 ≤ slice_size capacity n) ∧
  capacity ≤ n * slice_size capacity n.
Proof.
  intros Hn Hc. unfold slice_size.
  pose proof (Z.div_mod (capacity + n - 1) n ltac:(lia)) as Hdm.
  pose proof (Z.mod_pos_bound (capacity + n - 1) n Hn) as Hm.
  set (q := (capacity + n - 1) `div` n) in *.
  set (r := (capacity + n - 1) `mod` n) in *.
  assert (0 ≤ q) by (apply Z.div_pos; lia).
  assert (capacity ≤ n * q) by lia.
  assert (q ≤ capacity).
  { destruct (decide (q ≤ capacity)); [done|]. exfalso.
    assert (n * (capacity + 1) ≤ n * q) by (apply Z.mul_le_mono_nonneg_l; lia).
    assert (1 * capacity ≤ n * capacity) by (apply Z.mul_le_mono_nonneg_r; lia).
    lia. }
  split; [lia|]. split; [|done]. intros Hpos.
  destruct (decide (1 ≤ q)); [done|]. exfalso.
  assert (n * q ≤ n * 0) by (apply Z.mul_le_mono_nonneg_l; lia). lia.
Qed.

(** The per-slice capacities add up to the capacity exactly when the
    number of slices divides it, and to more otherwise. *)
Lemma slice_size_total capacity n :
  0 < n → 0 ≤ capacity →
  (capacity `mod` n = 0 → n * slice_size capacity n = capacity) ∧
  (capacity `mod` n ≠ 0 → capacity < n * slice_size capacity n).
Proof.
  intros Hn Hc. unfold slice_size.
  pose proof (Z.div_mod capacity n ltac:(lia)) as Hdm.
  pose proof (Z.mod_pos_bound capacity n Hn) as Hm.
  set (q := capacity `div` n) in *. set (r := capacity `mod` n) in *.
  split; intros Hr.
  - assert ((capacity + n - 1) `div` n = q) as ->; [|lia].
    symmetry. apply (Z.div_unique _ _ _ (n - 1)); lia.
  - assert ((capacity + n - 1) `div` n = q + 1) as ->; [|lia].
    symmetry. apply (Z.div_unique _ _ _ (r - 1)); lia.
Qed.

Lemma sum_list_with_bound {A} (f : A → nat) (b : nat) (l : list A) :
  Forall (λ x, (f x ≤ b)%nat) l → (sum_list_with f l ≤ length l * b)%nat.
Proof. induction 1 as [|x l Hx _ IH]; cbn; lia. Qed.

Section HashLRUFacts.
Context {Key Value : Type} `{Countable Key}.
Context `{DefaultCtor Key} `{DefaultCtor Value}.
Context (hashFunc : Key → Z) (hardware_concurrency : Z).
Import HashLRU.
Implicit Types (s : HashLRUCaches (Key:=Key) (Value:=Value)) (k : Key) (v d : Value).
Implicit Types (n sz : Z).

Lemma HashLRU_new_ok capacity n :
  0 < n < 2 ^ 31 → 0 ≤ capacity < 2 ^ 31 →
  ∃ s0, HashLRUCaches_new hardware_concurrency capacity n = Some s0 ∧
    slices_ok n (slice_size capacity n) s0.
Proof.
  intros Hn Hc. unfold HashLRUCaches_new.
  destruct (decide (n > 0)); [|lia]. rewrite decide_False by lia.
  eexists. split; [done|].
  destruct (slice_size_range capacity n) as (Hr & _); [lia..|].
  rewrite to_int_small by lia.
  split_and!; [done|cbn; by rewrite length_replicate|].
  cbn. apply Forall_replicate. split; [|done]. apply LRUbounded_new. lia.
Qed.

Lemma HashLRU_sliceIndex_ok n sz s k :
  0 < n < 2 ^ 31 → slices_ok n sz s →
  ∃ i c, sliceIndex hashFunc k s = Some i ∧ LRUSliceCaches_ s !! i = Some c ∧
    i = Z.to_nat (Hash hashFunc k `mod` n) ∧
    LRU.LRUbounded c ∧ LRU.capacity_ c = sz.
Proof.
  intros Hn (Hsn & Hlen & Hall). unfold sliceIndex.
  rewrite Hsn, to_size_t_small by lia. rewrite decide_False by lia.
  pose proof (Z.mod_pos_bound (Hash hashFunc k) n ltac:(lia)) as Hm.
  destruct (lookup_lt_is_Some_2 (LRUSliceCaches_ s)
              (Z.to_nat (Hash hashFunc k `mod` n))) as [c Hc]; [lia|].
  pose proof (Forall_lookup_1 _ _ _ _ Hall Hc) as [? ?].
  eexists _, c. by split_and!.
Qed.

Lemma slices_ok_set_slice n sz s i c :
  slices_ok n sz s → LRU.LRUbounded c → LRU.capacity_ c = sz →
  slices_ok n sz (set_slice i c s).
Proof.
  intros (Hsn & Hlen & Hall) Hb Hc. split_and!; [done|cbn; by rewrite length_insert|].
  cbn. by apply Forall_insert.
Qed.

Lemma HashLRU_put_ok n sz s k v :
  0 < n < 2 ^ 31 → slices_ok n sz s →
  ∃ s1, put hashFunc k v s = Some s1 ∧ slices_ok n sz s1.
Proof.
  intros Hn Hok. unfold put.
  destruct (HashLRU_sliceIndex_ok n sz s k Hn Hok) as (i & c & Hi & Hci & _ & Hb & Hc).
  rewrite Hi. cbn [mbind option_bind]. rewrite Hci. cbn [mbind option_bind].
  destruct (bounded_put c k v Hb) as (c1 & -> & Hb1 & Hc1 & _).
  cbn [mbind option_bind]. eexists. split; [done|].
  apply slices_ok_set_slice; [done|done|congruence].
Qed.

Lemma HashLRU_get_ref_ok n sz s k d :
  0 < n < 2 ^ 31 → slices_ok n sz s →
  ∃ r s1, get_ref hashFunc k d s = Some (r, s1) ∧ slices_ok n sz s1.
Proof.
  intros Hn Hok. unfold get_ref.
  destruct (HashLRU_sliceIndex_ok n sz s k Hn Hok) as (i & c & Hi & Hci & _ & Hb & Hc).
  rewrite Hi. cbn [mbind option_bind]. rewrite Hci. cbn [mbind option_bind].
  destruct (bounded_get_ref c k d Hb) as (hit & w & c1 & -> & Hb1 & Hc1 & _).
  eexists _, _. split; [done|].
  apply slices_ok_set_slice; [done|done|congruence].
Qed.

Lemma HashLRU_run_ok n sz ops : ∀ s,
  0 < n < 2 ^ 31 → slices_ok n sz s →
  ∃ s1, run hashFunc ops s = Some s1 ∧ slices_ok n sz s1.
Proof.
  induction ops as [|o ops IH]; intros s Hn Hok; cbn [run].
  - by exists s.
  - assert (∃ s1, exec hashFunc o s = Some s1 ∧ slices_ok n sz s1)
      as (s1 & -> & Hok1).
    { destruct o as [k v|k]; cbn [exec].
      - by apply HashLRU_put_ok.
      - unfold get.
        destruct (HashLRU_get_ref_ok n sz s k default_ctor Hn Hok)
          as ([hit w] & s1 & -> & ?).
        by exists s1. }
    cbn [mbind option_bind]. by apply IH.
Qed.

(** X8. A sharded LRU cache built with a positive number of slices and a
    capacity of at least 1 completes every workload of [put] and [get],
    and in every state so reached a [put(k, v)] followed by [get(k)]
    hits and returns [v]: both calls reach the slice [Hash(k) % sliceNum_],
    whatever the hash function. *)
Theorem HashLRU_put_then_get_hits (capacity sliceNum : Z)
    (ops : list (op (Key:=Key) (Value:=Value))) k v d :
  0 < sliceNum < 2 ^ 31 → 1 ≤ capacity < 2 ^ 31 →
  ∃ s0 s s1 s2,
    HashLRUCaches_new hardware_concurrency capacity sliceNum = Some s0 ∧
    run hashFunc ops s0 = Some s ∧
    put hashFunc k v s = Some s1 ∧
    get_ref hashFunc k d s1 = Some (true, v, s2).
Proof.
  intros Hn Hc.
  destruct (HashLRU_new_ok capacity sliceNum Hn ltac:(lia)) as (s0 & Hnew & Hok0).
  destruct (HashLRU_run_ok _ _ ops s0 Hn Hok0) as (s & Hrun & Hok).
  destruct (slice_size_range capacity sliceNum) as (_ & Hpos & _); [lia..|].
  exists s0, s.
  destruct (HashLRU_sliceIndex_ok _ _ s k Hn Hok) as (i & c & Hi & Hci & _ & Hb & Hcc).
  specialize (Hpos ltac:(lia)).
  assert (1 ≤ LRU.capacity_ c) as Hc1' by lia.
  destruct (bounded_put_get c k v d Hb Hc1') as (c1 & Hput & Hb1 & Hc1 & Hget).
  destruct (LRU.get_ref k d c1) as [[hit w] c2] eqn:Hg. cbn in Hget.
  injection Hget as -> ->.
  exists (set_slice i c1 s), (set_slice i c2 (set_slice i c1 s)).
  unfold put. rewrite Hi. cbn [mbind option_bind]. rewrite Hci.
  cbn [mbind option_bind]. rewrite Hput. cbn [mbind option_bind].
  split_and!; [done..|].
  unfold get_ref.
  assert (sliceIndex hashFunc k (set_slice i c1 s) = Some i) as -> by done.
  cbn [mbind option_bind LRUSliceCaches_ set_slice].
  rewrite list_lookup_insert_eq by (by eapply lookup_lt_Some).
  cbn [mbind option_bind]. by rewrite Hg.
Qed.

Lemma get_ref_set_slice_ne s i j c k d :
  sliceIndex hashFunc k s = Some j → i ≠ j →
  (λ r, r.1) <$> get_ref hashFunc k d (set_slice i c s)
  = (λ r, r.1) <$> get_ref hashFunc k d s.
Proof.
  intros Hj Hne. unfold get_ref.
  assert (sliceIndex hashFunc k (set_slice i c s) = Some j) as -> by done.
  rewrite Hj. cbn [mbind option_bind LRUSliceCaches_ set_slice].
  rewrite list_lookup_insert_ne by done.
  destruct (LRUSliceCaches_ s !! j) as [c'|]; [|done]. cbn [mbind option_bind].
  by destruct (LRU.get_ref k d c') as [[hit w] c2].
Qed.

(** X9. Slices are independent: in every state reached by a workload, a
    [put] or a [get] on a key [k] leaves the answer of [get(k')]
    unchanged for every key [k'] whose hash selects another slice; in
    particular a [put] never evicts an entry of another slice. *)
Theorem HashLRU_other_slices_untouched (capacity sliceNum : Z)
    (ops : list (op (Key:=Key) (Value:=Value))) k k' v d :
  0 < sliceNum < 2 ^ 31 → 0 ≤ capacity < 2 ^ 31 →
  Hash hashFunc k `mod` sliceNum ≠ Hash hashFunc k' `mod` sliceNum →
  ∃ s0 s s1 r s2,
    HashLRUCaches_new hardware_concurrency capacity sliceNum = Some s0 ∧
    run hashFunc ops s0 = Some s ∧
    put hashFunc k v s = Some s1 ∧
    (λ r, r.1) <$> get_ref hashFunc k' d s1 = (λ r, r.1) <$> get_ref hashFunc k' d s ∧
    get_ref hashFunc k d s = Some (r, s2) ∧
    (λ r, r.1) <$> get_ref hashFunc k' d s2 = (λ r, r.1) <$> get_ref hashFunc k' d s.
Proof.
  intros Hn Hc Hne.
  destruct (HashLRU_new_ok capacity sliceNum Hn Hc) as (s0 & Hnew & Hok0).
  destruct (HashLRU_run_ok _ _ ops s0 Hn Hok0) as (s & Hrun & Hok).
  destruct (HashLRU_sliceIndex_ok _ _ s k Hn Hok) as (i & c & Hi & Hci & Hie & Hb & _).
  destruct (HashLRU_sliceIndex_ok _ _ s k' Hn Hok) as (j & c' & Hj & _ & Hje & _).
  assert (i ≠ j) as Hij.
  { subst i j. intros Heq. apply Hne.
    pose proof (Z.mod_pos_bound (Hash hashFunc k) sliceNum ltac:(lia)).
    pose proof (Z.mod_pos_bound (Hash hashFunc k') sliceNum ltac:(lia)).
    lia. }
  destruct (bounded_put c k v Hb) as (c1 & Hput & _).
  destruct (LRU.get_ref k d c) as [[hit w] c2] eqn:Hg.
  exists s0, s, (set_slice i c1 s), (hit, w), (set_slice i c2 s).
  unfold put. rewrite Hi. cbn [mbind option_bind]. rewrite Hci.
  cbn [mbind option_bind]. rewrite Hput. cbn [mbind option_bind].
  split_and!; [done|done|done| | |].
  - by apply (get_ref_set_slice_ne s i j).
  - unfold get_ref. rewrite Hi. cbn [mbind option_bind]. rewrite Hci.
    cbn [mbind option_bind]. by rewrite Hg.
  - by apply (get_ref_set_slice_ne s i j).
Qed.

(** X10. For a capacity below [2^31] and a positive [int] number of
    slices, after any workload every slice holds at most
    [ceil(capacity / sliceNum)] entries, so the whole cache holds at most
    [sliceNum * ceil(capacity / sliceNum)] entries.  This bound is
    [capacity] when [sliceNum] divides [capacity] and exceeds it
    otherwise. *)
Theorem HashLRU_total_size_bound (capacity sliceNum : Z)
    (ops : list (op (Key:=Key) (Value:=Value))) :
  0 < sliceNum < 2 ^ 31 → 0 ≤ capacity < 2 ^ 31 →
  ∃ s0 s,
    HashLRUCaches_new hardware_concurrency capacity sliceNum = Some s0 ∧
    run hashFunc ops s0 = Some s ∧
    Forall (λ c, Z.of_nat (size (LRU.nodeMap_ c)) ≤ slice_size capacity sliceNum)
      (LRUSliceCaches_ s) ∧
    Z.of_nat (total_size s) ≤ sliceNum * slice_size capacity sliceNum ∧
    (capacity `mod` sliceNum = 0 →
     sliceNum * slice_size capacity sliceNum = capacity) ∧
    (capacity `mod` sliceNum ≠ 0 →
     capacity < sliceNum * slice_size capacity sliceNum).
Proof.
  intros Hn Hc.
  destruct (slice_size_total capacity sliceNum) as [Hdiv Hndiv]; [lia..|].
  destruct (HashLRU_new_ok capacity sliceNum Hn Hc) as (s0 & Hnew & Hok0).
  destruct (HashLRU_run_ok _ _ ops s0 Hn Hok0) as (s & Hrun & Hok).
  destruct (slice_size_range capacity sliceNum) as (Hr & _ & Hge); [lia..|].
  exists s0, s. destruct Hok as (_ & Hlen & Hall).
  assert (Hall' : Forall (λ c, Z.of_nat (size (LRU.nodeMap_ c))
                               ≤ slice_size capacity sliceNum) (LRUSliceCaches_ s)).
  { eapply Forall_impl; [exact Hall|]. intros c [(_ & _ & Hb) Hcc]. cbn in *. lia. }
  split_and!; [done..| |done|done].
  unfold total_size.
  pose proof (sum_list_with_bound (λ c, size (LRU.nodeMap_ c))
                (Z.to_nat (slice_size capacity sliceNum)) (LRUSliceCaches_ s)) as Hs.
  rewrite Hlen in Hs. 
  assert ((sum_list_with (λ c, size (LRU.nodeMap_ c)) (LRUSliceCaches_ s)
           ≤ Z.to_nat sliceNum * Z.to_nat (slice_size capacity sliceNum))%nat); [|nia].
  apply Hs. eapply Forall_impl; [exact Hall'|]. intros c Hcb. cbn in *. lia.
Qed.
End HashLRUFacts.

Section HashLFUFacts.
Context {Key Value : Type} `{Countable Key}.
Context `{DefaultCtor Key} `{DefaultCtor Value}.
Context (hashFunc : Key → Z) (hardware_concurrency : Z).
Import HashLFU.
Implicit Types (s : HashLRUCache (Key:=Key) (Value:=Value)) (k : Key) (v d : Value).

Lemma HashLFU_new_ok capacity n M :
  0 < n < 2 ^ 31 → 0 ≤ capacity < 2 ^ 31 →
  ∃ s0, HashLRUCache_new hardware_concurrency capacity n M = Some s0 ∧
    slices_ok n (slice_size capacity n) s0.
Proof.
  intros Hn Hc. unfold HashLRUCache_new.
  destruct (decide (n > 0)); [|lia]. rewrite decide_False by lia.
  eexists. split; [done|].
  destruct (slice_size_range capacity n) as (Hr & _); [lia..|].
  rewrite to_int_small by lia.
  split_and!; [done|cbn; by rewrite length_replicate|].
  cbn. apply Forall_replicate. split; [|done]. apply LFUwf_new.
Qed.

Lemma HashLFU_sliceIndex_ok n sz s k :
  0 < n < 2 ^ 31 → slices_ok n sz s →
  ∃ i c, sliceIndex hashFunc k s = Some i ∧ LFUSliceCaches_ s !! i = Some c ∧
    LFU.LFUwf c ∧ LFU.capacity_ c = sz.
Proof.
  intros Hn (Hsn & Hlen & Hall). unfold sliceIndex.
  rewrite Hsn, to_size_t_small by lia. rewrite decide_False by lia.
  pose proof (Z.mod_pos_bound (Hash hashFunc k) n ltac:(lia)) as Hm.
  destruct (lookup_lt_is_Some_2 (LFUSliceCaches_ s)
              (Z.to_nat (Hash hashFunc k `mod` n))) as [c Hc]; [lia|].
  pose proof (Forall_lookup_1 _ _ _ _ Hall Hc) as [? ?].
  eexists _, c. by split_and!.
Qed.

Lemma HashLFU_exec_ok n sz s o :
  0 < n < 2 ^ 31 → - 2 ^ 31 ≤ sz < 2 ^ 31 → slices_ok n sz s →
  ∃ s1, exec hashFunc o s = Some s1 ∧ slices_ok n sz s1.
Proof.
  intros Hn Hsz Hok. pose proof Hok as (Hsn & Hlen & Hall).
  destruct o as [k v|k]; cbn [exec].
  - unfold put.
    destruct (HashLFU_sliceIndex_ok n sz s k Hn Hok) as (i & c & Hi & Hci & Hwf & Hc).
    rewrite Hi. cbn [mbind option_bind]. rewrite Hci. cbn [mbind option_bind].
    assert (- 2 ^ 31 ≤ LFU.capacity_ c < 2 ^ 31) as Hcr by lia.
    destruct (exec_ok c (LFU.Put k v) Hwf Hcr) as (c1 & Hput & Hwf1 & Hc1 & _).
    cbn [LFU.exec] in Hput. rewrite Hput. cbn [mbind option_bind].
    eexists. split; [done|].
    split_and!; [done|cbn; by rewrite length_insert|].
    cbn. apply Forall_insert; [done|]. split; [done|congruence].
  - unfold get, get_ref.
    destruct (HashLFU_sliceIndex_ok n sz s k Hn Hok) as (i & c & Hi & Hci & Hwf & Hc).
    rewrite Hi. cbn [mbind option_bind]. rewrite Hci. cbn [mbind option_bind].
    destruct (get_ref_ok c k default_ctor Hwf)
      as (hit & w & c1 & -> & Hwf1 & Hc1 & _).
    cbn [mbind option_bind]. eexists. split; [done|].
    split_and!; [done|cbn; by rewrite length_insert|].
    cbn. apply Forall_insert; [done|]. split; [done|congruence].
Qed.

Lemma HashLFU_run_ok n sz ops : ∀ s,
  0 < n < 2 ^ 31 → - 2 ^ 31 ≤ sz < 2 ^ 31 → slices_ok n sz s →
  ∃ s1, run hashFunc ops s = Some s1 ∧ slices_ok n sz s1.
Proof.
  induction ops as [|o ops IH]; intros s Hn Hsz Hok; cbn [run].
  - by exists s.
  - destruct (HashLFU_exec_ok n sz s o Hn Hsz Hok) as (s1 & -> & Hok1).
    cbn [mbind option_bind]. by apply IH.
Qed.

(** X11. The sharded LFU cache ([HashLRUCache] of LFUCache.h) built with
    a positive number of slices and a capacity of at least 1 completes
    every workload of [put] and [get], and in every state so reached a
    [put(k, v)] followed by [get(k)] hits and returns [v]. *)
Theorem HashLFU_put_then_get_hits (capacity sliceNum M : Z)
    (ops : list (op (Key:=Key) (Value:=Value))) k v d :
  0 < sliceNum < 2 ^ 31 → 1 ≤ capacity < 2 ^ 31 →
  ∃ s0 s s1 s2,
    HashLRUCache_new hardware_concurrency capacity sliceNum M = Some s0 ∧
    run hashFunc ops s0 = Some s ∧
    put hashFunc k v s = Some s1 ∧
    get_ref hashFunc k d s1 = Some (true, v, s2).
Proof.
  intros Hn Hc.
  destruct (HashLFU_new_ok capacity sliceNum M Hn ltac:(lia)) as (s0 & Hnew & Hok0).
  destruct (slice_size_range capacity sliceNum) as (Hr & Hpos & _); [lia..|].
  specialize (Hpos ltac:(lia)).
  assert (- 2 ^ 31 ≤ slice_size capacity sliceNum < 2 ^ 31) as Hsz by lia.
  destruct (HashLFU_run_ok _ _ ops s0 Hn Hsz Hok0) as (s & Hrun & Hok).
  exists s0, s.
  destruct (HashLFU_sliceIndex_ok _ _ s k Hn Hok) as (i & c & Hi & Hci & Hwf & Hcc).
  assert (- 2 ^ 31 ≤ LFU.capacity_ c < 2 ^ 31 ∧ LFU.capacity_ c ≠ 0)
    as [Hcr Hcz] by lia.
  destruct (put_ok c k v Hwf Hcr Hcz)
    as (c1 & p & Hput & Hwf1 & _ & _ & Hkp & Hv).
  destruct (get_ref_ok c1 k d Hwf1) as (hit & w & c2 & Hget & _ & _ & _ & Hhit & _).
  destruct (Hhit p Hkp) as (-> & -> & _).
  exists (set_slice i c1 s), (set_slice i c2 (set_slice i c1 s)).
  unfold put. rewrite Hi. cbn [mbind option_bind]. rewrite Hci.
  cbn [mbind option_bind]. rewrite Hput. cbn [mbind option_bind].
  split_and!; [done..|].
  unfold get_ref.
  assert (sliceIndex hashFunc k (set_slice i c1 s) = Some i) as -> by done.
  cbn [mbind option_bind LFUSliceCaches_ set_slice].
  rewrite list_lookup_insert_eq by (by eapply lookup_lt_Some).
  cbn [mbind option_bind]. rewrite Hget. cbn [mbind option_bind].
  by rewrite Hv.
Qed.
End HashLFUFacts.


(* ================================================================== *)
(** * ARCLRUPart workloads *)

Section ARCLRUFacts.
Context {Key Value : Type} `{Countable Key}.
Context `{DefaultCtor Key} `{DefaultCtor Value}.
Import ARC.
Implicit Types (s : ARCLRUPart (Key:=Key) (Value:=Value)) (k : Key) (v d : Value).
Implicit Types (p q : NodePtr) (T : Z).

Lemma ARCLRUok_frame T s s' :
  transformThreshold_ s' = transformThreshold_ s →
  (∀ k p, mainCache_ s' !! k = Some p → mainCache_ s !! k = Some p) →
  (length (nodes s) ≤ length (nodes s'))%nat →
  ARCLRUok T s → ARCLRUok T s'.
Proof.
  intros Ht Hm Hn [HT Ha]. split; [congruence|].
  intros k p Hkp. apply Hm, Ha in Hkp. lia.
Qed.

Lemma removeOldestGhost_frame s :
  transformThreshold_ (removeOldestGhost s) = transformThreshold_ s ∧
  mainCache_ (removeOldestGhost s) = mainCache_ s ∧
  nodes (removeOldestGhost s) = nodes s.
Proof. unfold removeOldestGhost. by destruct (last (ghostList s)). Qed.

Lemma evictLeastRecent_ok T s : ARCLRUok T s → ARCLRUok T (evictLeastRecent s).
Proof.
  intros Hok. unfold evictLeastRecent.
  destruct (last (mainList s)) as [p|]; [|done].
  set (s1 := removeFromMain p s).
  set (s2 := if decide (ghostCapacity_ s1 ≤ Z.of_nat (size (ghostCache_ s1)))
             then removeOldestGhost s1 else s1).
  assert (transformThreshold_ s2 = transformThreshold_ s ∧
          mainCache_ s2 = mainCache_ s ∧ nodes s2 = nodes s) as (Ht & Hm & Hn).
  { unfold s2. case_decide; [|done].
    by destruct (removeOldestGhost_frame s1) as (-> & -> & ->). }
  eapply ARCLRUok_frame; [| | |exact Hok].
  - cbn. exact Ht.
  - intros k q. cbn. rewrite lookup_delete. case_decide; [done|].
    by rewrite Hm.
  - cbn. rewrite length_insert, Hn. done.
Qed.

Lemma lru_put_ok T s k v : ARCLRUok T s → ARCLRUok T (lru_put k v s).2.
Proof.
  intros Hok. unfold lru_put. case_decide; [done|].
  destruct (mainCache_ s !! k) as [p|] eqn:Hkp.
  - eapply ARCLRUok_frame; [| | |exact Hok]; cbn; [done|done|].
    by rewrite length_insert.
  - unfold addNewNode. cbn [snd].
    set (s1 := if decide (capacity_ s ≤ Z.of_nat (size (mainCache_ s)))
               then evictLeastRecent s else s).
    assert (ARCLRUok T s1) as [Ht1 Ha1].
    { unfold s1. case_decide; [by apply evictLeastRecent_ok|done]. }
    split; [done|]. intros k' q. cbn. rewrite lookup_insert, length_app. cbn.
    case_decide.
    + intros [= <-]. lia.
    + intros Hq. apply Ha1 in Hq. lia.
Qed.

Lemma lru_get_ok T s k d t : ARCLRUok T s → ARCLRUok T (lru_get k d t s).2.
Proof.
  intros Hok. unfold lru_get. destruct (mainCache_ s !! k) as [p|]; [|done].
  eapply ARCLRUok_frame; [| | |exact Hok]; cbn; [done|done|].
  by rewrite length_insert.
Qed.

Lemma lru_exec_ok T s o : ARCLRUok T s → ARCLRUok T (lru_exec o s).
Proof.
  intros Hok. destruct o as [k v|k|k| |]; cbn [lru_exec].
  - by apply lru_put_ok.
  - by apply lru_get_ok.
  - unfold lru_checkGhost. by destruct (ghostCache_ s !! k).
  - done.
  - unfold lru_decreaseCapacity. case_decide; [done|]. cbn [snd].
    case_decide; [|done].
    destruct (evictLeastRecent_ok T s Hok) as [? ?]. by split.
Qed.

Lemma lru_run_ok T ops : ∀ s, ARCLRUok T s → ARCLRUok T (lru_run ops s).
Proof.
  induction ops as [|o ops IH]; intros s Hok; [done|].
  cbn. apply IH. by apply lru_exec_ok.
Qed.

(** X12. [ARCLRUPart], in every state reached by a workload on its
    public interface ([put], [get], [checkGhost], [increaseCapacity],
    [decreaseCapacity]) in which the capacity is not 0: [put(k, v)]
    reports success and a following [get(k)] hits and returns [v].  The
    [put] does not count as an access: the [get] raises the access count
    the node had ([1] for a key that was not cached) by one, and asks
    for the transfer to the frequency half exactly when the new count
    reaches the threshold. *)
Theorem ARCLRU_put_then_get (C T G : Z) (ops : list (lru_op (Key:=Key) (Value:=Value)))
    k v d (t : bool) :
  capacity_ (lru_run ops (ARCLRUPart_new C T G)) ≠ 0 →
  ∃ s c s1 s2, s = lru_run ops (ARCLRUPart_new C T G) ∧
    c = match mainCache_ s !! k with
        | Some p => accessCount_ (node_at s p)
        | None => 1
        end ∧
    lru_put k v s = (true, s1) ∧
    lru_get k d t s1 = (true, v, bool_decide (T ≤ size_t_succ c), s2) ∧
    (∃ p, mainCache_ s2 !! k = Some p ∧ accessCount_ (node_at s2 p) = size_t_succ c).
Proof.
  intros Hcap. set (s := lru_run ops (ARCLRUPart_new C T G)) in *.
  set (c := match mainCache_ s !! k with
            | Some p => accessCount_ (node_at s p)
            | None => 1
            end).
  cut (∃ s1 s2, lru_put k v s = (true, s1) ∧
         lru_get k d t s1 = (true, v, bool_decide (T ≤ size_t_succ c), s2) ∧
         (∃ p, mainCache_ s2 !! k = Some p ∧
               accessCount_ (node_at s2 p) = size_t_succ c)).
  { intros (s1 & s2 & ? & ? & ?). by exists s, c, s1, s2. }
  assert (ARCLRUok T s) as [HT Ha].
  { apply lru_run_ok. split; [done|]. intros k' p. cbn. by rewrite lookup_empty. }
  unfold lru_put. rewrite decide_False by done. subst c.
  destruct (mainCache_ s !! k) as [p|] eqn:Hkp.
  - pose proof (Ha k p Hkp) as Hp.
    eexists _, _. split; [done|]. unfold lru_get.
    cbn [mainCache_ moveToFront addToFront unlinkNode set_lists setValue set_nodes].
    rewrite Hkp. unfold updateNodeAccess.
    set (s3 := incrementAccessCount p _).
    assert (node_at s3 p = mkARCNode (key_ (node_at s p)) v
                             (size_t_succ (accessCount_ (node_at s p)))) as Hn3.
    { unfold s3, incrementAccessCount, setAccessCount, node_at. cbn.
      rewrite list_lookup_insert_eq by (by rewrite length_insert).
      rewrite list_lookup_insert_eq by done. cbn. done. }
    rewrite Hn3. cbn [value_ accessCount_].
    assert (transformThreshold_ s3 = T) as -> by done.
    split; [done|]. exists p. split; [done|]. exact (f_equal accessCount_ Hn3).
  - unfold addNewNode.
    set (s1 := if decide (capacity_ s ≤ Z.of_nat (size (mainCache_ s)))
               then evictLeastRecent s else s).
    assert (ARCLRUok T s1) as [Ht1 Ha1].
    { unfold s1. case_decide; [by apply evictLeastRecent_ok|done]. }
    eexists _, _. split; [done|]. unfold lru_get.
    cbn [mainCache_ addToFront set_lists set_mainCache set_nodes].
    rewrite lookup_insert_eq. unfold updateNodeAccess.
    set (n := length (nodes s1)).
    set (s3 := incrementAccessCount n _).
    assert (node_at s3 n = mkARCNode k v (size_t_succ 1)) as Hn3.
    { unfold s3, incrementAccessCount, setAccessCount, node_at. cbn.
      rewrite list_lookup_insert_eq by (rewrite length_app; cbn; lia).
      unfold n. rewrite lookup_app_r, Nat.sub_diag by lia. cbn. done. }
    rewrite Hn3. cbn [value_ accessCount_].
    assert (transformThreshold_ s3 = T) as -> by done.
    split; [done|]. exists n. split; [|exact (f_equal accessCount_ Hn3)].
    cbn. apply lookup_insert_eq.
Qed.
End ARCLRUFacts.


(* ================================================================== *)
(** * LFUCache workloads *)

Section LFUWorkloads.
Context {Key Value : Type} `{Countable Key}.
Context `{DefaultCtor Key} `{DefaultCtor Value}.
Import LFU.
Implicit Types (s : LFUCache (Key:=Key) (Value:=Value)) (k : Key) (v d : Value).
Implicit Types (p q : NodePtr) (f : Z) (m : gmap Key Value).

(** What [putInternal] leaves in the index: the new entry with its
    value, and entries that were cached before, with their values. *)
Lemma putInternal_shape s k v :
  LFUwf s → to_size_t (capacity_ s) ≠ 0 →
  ∃ s', putInternal k v s = Some s' ∧
    ∀ k' p', nodeMap_ s' !! k' = Some p' →
      (k' = k ∧ value (node_at s' p') = v) ∨
      (k' ≠ k ∧ nodeMap_ s !! k' = Some p' ∧
       value (node_at s' p') = value (node_at s p')).
Proof.
  intros [Hok Hlists] Hcap.
  assert (∃ s1, (if decide (Z.of_nat (size (nodeMap_ s)) = to_size_t (capacity_ s))
                 then kickOut s else Some s) = Some s1 ∧ LFUok s1 ∧
            nodes s1 = nodes s ∧
            (∀ k' p', nodeMap_ s1 !! k' = Some p' → nodeMap_ s !! k' = Some p'))
    as (s1 & Hs1 & Hok1 & Hn1 & Hsub).
  { case_decide as Hfull; [|by exists s].
    destruct Hlists as [Hmin H1'].
    { intros Hempty. rewrite Hempty, map_size_empty in Hfull. by apply Hcap. }
    destruct (kickOut_ok s Hok Hmin H1') as (s1 & kx & -> & Hok1 & Hm1 & Hn1 & _).
    exists s1. split_and!; [done..|]. intros k' p'. rewrite Hm1.
    rewrite lookup_delete. by case_decide. }
  unfold putInternal. rewrite Hs1. cbn [mbind option_bind]. cbv zeta.
  destruct (link_new_ok s1 k v Hok1) as (Hok4 & Hnew & _ & Hmap4 & _).
  cbv zeta in Hok4, Hnew, Hmap4.
  set (n := length (nodes s1)) in *.
  set (s4 := addToFreqList n _) in *.
  assert (Hold : ∀ q, (q < n)%nat → node_at s4 q = node_at s q).
  { intros q Hq. unfold node_at, s4. cbn. rewrite lookup_app_l by done.
    by rewrite Hn1. }
  destruct (addFreqNum_ok s4 Hok4) as (s5 & -> & Hok5 & Hfr5 & _).
  cbn [mbind option_bind]. destruct Hfr5 as (Hmap5 & _ & _ & _ & Hkv5 & _).
  eexists. split; [reflexivity|]. intros k' p'.
  change (nodeMap_ (set_minFreq _ s5)) with (nodeMap_ s5).
  change (node_at (set_minFreq _ s5) p') with (node_at s5 p').
  rewrite Hmap5, Hmap4, lookup_insert. destruct (Hkv5 p') as [_ ->].
  destruct (decide (k = k')) as [<-|Hd].
  - intros Heq. assert (p' = n) as -> by congruence. left. by rewrite Hnew.
  - intros Hk'. right. split_and!; [congruence|by apply Hsub|].
    rewrite Hold; [done|].
    eapply in_own_list_alloc; [exact Hok1|]. by eapply (ok_cached _ Hok1).
Qed.

Lemma put_cached_written s k v m :
  LFUwf s → - 2 ^ 31 ≤ capacity_ s < 2 ^ 31 → capacity_ s ≠ 0 →
  cached_written m s →
  ∃ s', put k v s = Some s' ∧ cached_written (<[k := v]> m) s'.
Proof.
  intros Hwf Hrange Hne Hcw. unfold put. rewrite decide_False by done.
  destruct (nodeMap_ s !! k) as [p|] eqn:Hkp.
  - destruct Hwf as [Hok Hlists].
    pose proof (LFUok_set_value s p v Hok) as Hok1.
    assert (in_own_list (set_value p v s) p) as Hown1.
    { by apply (ok_cached _ Hok1 k). }
    assert ((p < length (nodes s))%nat) as Halloc.
    { eapply in_own_list_alloc; [exact Hok|]. by eapply (ok_cached _ Hok). }
    destruct (getInternal_ok _ p Hok1 Hown1) as (s' & -> & _ & Hfr' & _).
    cbn [mbind option_bind]. destruct Hfr' as (Hmap' & _ & _ & _ & Hkv' & _).
    exists s'. split; [done|]. intros k' p'. rewrite Hmap'.
    change (nodeMap_ (set_value p v s)) with (nodeMap_ s). intros Hk'.
    destruct (Hkv' p') as [_ ->]. rewrite lookup_insert. case_decide as Hd.
    + subst k'. assert (p' = p) as -> by congruence.
      by rewrite node_at_set_value_eq.
    + rewrite node_at_set_value_ne; [by apply Hcw|].
      intros ->. apply Hd. rewrite <- (ok_key _ Hok k p Hkp).
      by apply (ok_key _ Hok).
  - destruct (putInternal_shape s k v Hwf (to_size_t_int_nonzero _ Hrange Hne))
      as (s' & -> & Hshape).
    exists s'. split; [done|]. intros k' p' Hk'.
    destruct (Hshape k' p' Hk') as [[-> ->]|(Hd & Hold & ->)].
    + by rewrite lookup_insert_eq.
    + rewrite lookup_insert_ne by done. by apply Hcw.
Qed.

Lemma exec_cached_written s o m :
  LFUwf s → - 2 ^ 31 ≤ capacity_ s < 2 ^ 31 → capacity_ s ≠ 0 →
  cached_written m s →
  ∃ s', exec o s = Some s' ∧ LFUwf s' ∧ capacity_ s' = capacity_ s ∧
    cached_written (written_step m o) s'.
Proof.
  intros Hwf Hrange Hne Hcw.
  destruct (exec_ok s o Hwf Hrange) as (s' & Hex & Hwf' & Hc' & _).
  exists s'. split_and!; [done..|].
  destruct o as [k v|k|]; cbn [exec written_step] in *.
  - destruct (put_cached_written s k v m Hwf Hrange Hne Hcw) as (s'' & Hput & ?).
    rewrite Hput in Hex. by injection Hex as <-.
  - unfold get in Hex.
    destruct (get_ref_ok s k default_ctor Hwf)
      as (hit & w & s1 & Hget & _ & _ & _ & Hhit & Hmiss).
    rewrite Hget in Hex. cbn in Hex. injection Hex as <-.
    destruct (nodeMap_ s !! k) as [p|] eqn:Hkp.
    + unfold get_ref in Hget. rewrite Hkp in Hget.
      destruct Hwf as [Hok _].
      destruct (getInternal_ok s p Hok (ok_cached _ Hok k p Hkp))
        as (s2 & Hgi & _ & Hfr & _).
      rewrite Hgi in Hget. cbn in Hget. injection Hget as _ _ <-.
      destruct Hfr as (Hmap' & _ & _ & _ & Hkv' & _).
      intros k' p'. rewrite Hmap'. destruct (Hkv' p') as [_ ->]. apply Hcw.
    + by destruct (Hmiss eq_refl) as (_ & _ & ->).
  - injection Hex as <-. intros k' p'. cbn. by rewrite lookup_empty.
Qed.

Lemma run_cached_written ops : ∀ s m,
  LFUwf s → - 2 ^ 31 ≤ capacity_ s < 2 ^ 31 → capacity_ s ≠ 0 →
  cached_written m s →
  ∃ s', run ops s = Some s' ∧ LFUwf s' ∧
    cached_written (foldl written_step m ops) s'.
Proof.
  induction ops as [|o ops IH]; intros s m Hwf Hrange Hne Hcw; cbn [run foldl].
  - by exists s.
  - destruct (exec_cached_written s o m Hwf Hrange Hne Hcw)
      as (s1 & -> & Hwf1 & Hc1 & Hcw1).
    cbn [mbind option_bind]. apply IH; [done|by rewrite Hc1..|done].
Qed.

(** X14. After any workload of [put], [get] and [purge] on an
    [LFUCache], a [get] never returns a stale value: when it hits, the
    value is the one most recently [put] under that key, and the cache
    was not purged since. *)
Theorem LFU_get_returns_last_written (C M : Z)
    (ops : list (op (Key:=Key) (Value:=Value))) :
  - 2 ^ 31 ≤ C < 2 ^ 31 →
  ∃ s, run ops (LFUCache_new C M) = Some s ∧
    ∀ k d v s', get_ref k d s = Some (true, v, s') → written ops !! k = Some v.
Proof.
  intros HC. destruct (decide (C = 0)) as [->|Hne].
  - destruct (LFU_zero_capacity_noop (Key:=Key) (Value:=Value) M ops default_ctor
                default_ctor) as [Hrun _].
    eexists. split; [exact Hrun|]. intros k d v s'.
    unfold get_ref. cbn. by rewrite lookup_empty.
  - destruct (run_cached_written ops (LFUCache_new C M) ∅ (LFUwf_new C M) HC Hne)
      as (s & Hrun & Hwf & Hcw).
    { intros k p. cbn. by rewrite lookup_empty. }
    exists s. split; [done|]. intros k d v s' Hget.
    destruct (get_ref_ok s k d Hwf) as (hit & w & s1 & Hget' & _ & _ & _ & Hhit & Hmiss).
    rewrite Hget' in Hget. injection Hget as -> -> ->.
    destruct (nodeMap_ s !! k) as [p|] eqn:Hkp.
    + destruct (Hhit p eq_refl) as (_ & -> & _). by apply Hcw.
    + by destruct (Hmiss eq_refl) as (? & _).
Qed.
End LFUWorkloads.


(* ================================================================== *)
(** * LFUCache before the first age-down *)

Section IndexSum.
Context {Key : Type} `{Countable Key}.
Implicit Types (g : NodePtr → Z) (m : gmap Key NodePtr).

Lemma index_sum_insert g m k p :
  m !! k = None → LFU.index_sum g (<[k := p]> m) = LFU.index_sum g m + g p.
Proof.
  intros Hk. unfold LFU.index_sum.
  rewrite map_fold_insert_L; [done| |done]. intros. lia.
Qed.

Lemma index_sum_delete g m k p :
  m !! k = Some p → LFU.index_sum g m = LFU.index_sum g (delete k m) + g p.
Proof.
  intros Hk. unfold LFU.index_sum.
  rewrite (map_fold_delete_L _ _ k p m); [done| |done]. intros. lia.
Qed.

Lemma index_sum_ext g g' m :
  (∀ k p, m !! k = Some p → g p = g' p) → LFU.index_sum g m = LFU.index_sum g' m.
Proof.
  induction m as [|k p m Hk IH] using map_ind; intros Hext; [done|].
  rewrite !index_sum_insert by done.
  rewrite IH, (Hext k p); [done|apply lookup_insert_eq|].
  intros k' p' Hk'. apply (Hext k'). rewrite lookup_insert_ne; [done|].
  intros ->. congruence.
Qed.

Lemma index_sum_nonneg g m :
  (∀ k p, m !! k = Some p → 0 ≤ g p) → 0 ≤ LFU.index_sum g m.
Proof.
  induction m as [|k p m Hk IH] using map_ind; intros Hpos; [done|].
  rewrite index_sum_insert by done.
  pose proof (Hpos k p (lookup_insert_eq _ _ _)).
  assert (0 ≤ LFU.index_sum g m); [|lia].
  apply IH. intros k' p' Hk'. apply (Hpos k'). rewrite lookup_insert_ne; [done|].
  intros ->. congruence.
Qed.
End IndexSum.

Section LFUExact.
Context {Key Value : Type} `{Countable Key}.
Context `{DefaultCtor Key} `{DefaultCtor Value}.
Import LFU.
Implicit Types (s : LFUCache (Key:=Key) (Value:=Value)) (k : Key) (v d : Value).
Implicit Types (p q : NodePtr) (f : Z) (C M N : Z).

Lemma unlink_notin p (l : list NodePtr) : p ∉ l → unlink p l = l.
Proof. apply filter_ne_notin. Qed.

Lemma LFUok_key_inj s k k' p :
  LFUok s → nodeMap_ s !! k = Some p → nodeMap_ s !! k' = Some p → k = k'.
Proof.
  intros Hok Hk Hk'. rewrite <- (ok_key _ Hok k p Hk). by apply (ok_key _ Hok).
Qed.

Lemma freq_sum_nonneg s : LFUok s → 0 ≤ freq_sum s.
Proof.
  intros Hok. apply index_sum_nonneg. intros k p Hkp.
  destruct (ok_cached _ Hok k p Hkp) as (l & Hl & _).
  assert (1 ≤ freq (node_at s p)); [|lia]. apply (ok_freq_pos _ Hok). eauto.
Qed.

(** Without an age-down [addFreqNum] only counts. *)
Lemma addFreqNum_counts s :
  0 ≤ curTotalNum_ s → curTotalNum_ s + 1 ≤ maxAverageNum_ s < 2 ^ 31 →
  addFreqNum s
  = Some (set_counters (average s (curTotalNum_ s + 1)) (curTotalNum_ s + 1) s).
Proof.
  intros Hpos Hle. unfold addFreqNum. cbv zeta. rewrite decide_False; [done|].
  cbn [curAverageNum_ maxAverageNum_ set_counters]. unfold average.
  case_decide as Hd; [lia|].
  assert (size (nodeMap_ s) ≠ 0%nat) by (by apply map_size_non_empty_iff).
  rewrite to_size_t_small by lia.
  assert (0 ≤ (curTotalNum_ s + 1) `div` Z.of_nat (size (nodeMap_ s))
          ≤ curTotalNum_ s + 1).
  { split; [apply Z.div_pos; lia|]. apply Z.div_le_upper_bound; [lia|]. nia. }
  rewrite to_int_small by lia. lia.
Qed.

(** The lists after a node moved to the list of frequency [f']. *)
Lemma relink_lists s p f' :
  LFUok s → in_own_list s p →
  ∃ s1, removeFromFreqList p s = Some s1 ∧ node_at s1 p = node_at s p ∧
    let s3 := addToFreqList p (set_freq p f' s1) in
    (∀ f, freqToFreqList_ s3 !! f =
          if decide (f = f')
          then Some (default [] (unlink p <$> freqToFreqList_ s !! f') ++ [p])
          else unlink p <$> freqToFreqList_ s !! f) ∧
    node_at s3 p = mkNode f' (key (node_at s p)) (value (node_at s p)) ∧
    (∀ q, q ≠ p → node_at s3 q = node_at s q) ∧
    nodeMap_ s3 = nodeMap_ s ∧ minFreq_ s3 = minFreq_ s ∧
    curTotalNum_ s3 = curTotalNum_ s ∧ curAverageNum_ s3 = curAverageNum_ s ∧
    capacity_ s3 = capacity_ s ∧ maxAverageNum_ s3 = maxAverageNum_ s.
Proof.
  intros Hok Hown. pose proof (in_own_list_alloc s p Hok Hown) as Halloc.
  destruct Hown as (l0 & Hl0 & Hpl0).
  unfold removeFromFreqList. rewrite Hl0.
  eexists. split; [reflexivity|]. split; [done|]. cbv zeta.
  set (s1 := set_lists (unlink p <$> freqToFreqList_ s) s).
  set (s2 := set_freq p f' s1). set (s3 := addToFreqList p s2).
  assert (Hn2p : node_at s2 p = mkNode f' (key (node_at s p)) (value (node_at s p))).
  { unfold s2. by rewrite node_at_set_freq_eq. }
  assert (Hn2q : ∀ q, q ≠ p → node_at s2 q = node_at s q).
  { intros q Hq. unfold s2. by rewrite node_at_set_freq_ne. }
  split_and!; try done.
  intros f. unfold s3, addToFreqList. rewrite Hn2p. cbn.
  rewrite lookup_insert. rewrite !lookup_fmap.
  destruct (decide (f' = f)) as [->|]; [by rewrite decide_True|].
  by rewrite decide_False by congruence.
Qed.

(** A hit, up to the call of [addFreqNum]. *)
Lemma bumpFreq_exact s k p :
  LFUlinked s → minFreq_exact s → nodeMap_ s !! k = Some p →
  ∃ s', bumpFreq p s = Some s' ∧ LFUok s' ∧
    (∀ f l q, freqToFreqList_ s' !! f = Some l → q ∈ l →
              nodeMap_ s' !! key (node_at s' q) = Some q) ∧
    minFreq_exact s' ∧ freq_sum s' = freq_sum s + 1 ∧
    nodeMap_ s' = nodeMap_ s ∧ curTotalNum_ s' = curTotalNum_ s ∧
    capacity_ s' = capacity_ s ∧ maxAverageNum_ s' = maxAverageNum_ s ∧
    freq (node_at s' p) = freq (node_at s p) + 1 ∧
    (∀ q, q ≠ p → node_at s' q = node_at s q).
Proof.
  intros [Hok Hlk Htot] Hmin Hkp.
  assert (in_own_list s p) as Hown by (by apply (ok_cached _ Hok k)).
  assert (nodeMap_ s ≠ ∅) as Hne by (intros He; by rewrite He, lookup_empty in Hkp).
  destruct (Hmin Hne) as [(lm & Hlm & Hlmne) Hleast].
  set (f0 := freq (node_at s p)).
  destruct (bumpFreq_ok s p Hok Hown) as (s' & Hb & Hok' & _).
  destruct (relink_lists s p (f0 + 1) Hok Hown)
    as (s1 & Hrem & Hn1 & HL & Hn3p & Hn3q & Hmap3 & Hmin3 & Htot3 & _ & Hc3 & Hm3).
  cbv zeta in HL, Hn3p, Hn3q, Hmap3, Hmin3, Htot3, Hc3, Hm3.
  set (s3 := addToFreqList p (set_freq p (f0 + 1) s1)) in *.
  destruct Hown as (l0 & Hl0 & Hpl0). fold f0 in Hl0.
  assert (Hnotin : ∀ f l, f ≠ f0 → freqToFreqList_ s !! f = Some l → p ∉ l).
  { intros f l Hf Hl Hin. apply Hf. symmetry. by apply (ok_list_freq _ Hok f l p). }
  assert (HLp : ∃ lp, freqToFreqList_ s3 !! (f0 + 1) = Some (lp ++ [p])).
  { rewrite HL, decide_True by done. eauto. }
  assert (HL0 : freqToFreqList_ s3 !! f0 = Some (unlink p l0)).
  { rewrite HL, decide_False by lia. by rewrite Hl0. }
  assert (HLo : ∀ f l, f ≠ f0 → f ≠ f0 + 1 → freqToFreqList_ s3 !! f = Some l →
                       freqToFreqList_ s !! f = Some l).
  { intros f l Hf Hf' Hl. rewrite HL, decide_False in Hl by done.
    destruct (freqToFreqList_ s !! f) as [l'|] eqn:Hl'; [|done].
    cbn in Hl. injection Hl as Hl. subst l. f_equal. symmetry.
    apply unlink_notin. by apply (Hnotin f). }
  assert (Hmem : ∀ f l q, freqToFreqList_ s3 !! f = Some l → q ∈ l →
                   q = p ∨ ∃ l', freqToFreqList_ s !! f = Some l' ∧ q ∈ l').
  { intros f l q. rewrite HL. case_decide as Hd.
    - intros Hl. injection Hl as Hl. subst l.
      rewrite elem_of_app, list_elem_of_singleton.
      intros [Hq| ->]; [|by left]. right. subst f.
      destruct (freqToFreqList_ s !! (f0 + 1)) as [l'|]; cbn in Hq.
      + apply elem_of_unlink in Hq as [? _]. eauto.
      + by apply elem_of_nil in Hq.
    - destruct (freqToFreqList_ s !! f) as [l'|]; [|done]. cbn.
      intros Hl. injection Hl as Hl. subst l.
      intros [? _]%elem_of_unlink. eauto. }
  assert (Hlk3 : ∀ f l q, freqToFreqList_ s3 !! f = Some l → q ∈ l →
                   nodeMap_ s3 !! key (node_at s3 q) = Some q).
  { intros f l q Hl Hq. rewrite Hmap3. destruct (decide (q = p)) as [->|Hqp].
    - rewrite Hn3p. cbn. by rewrite (ok_key _ Hok k p Hkp).
    - rewrite Hn3q by done.
      destruct (Hmem f l q Hl Hq) as [?|(l' & Hl' & Hq')]; [done|].
      by apply (Hlk f l'). }
  assert (Hsum3 : freq_sum s3 = freq_sum s + 1).
  { unfold freq_sum. rewrite Hmap3.
    rewrite (index_sum_delete _ (nodeMap_ s) k p Hkp).
    rewrite (index_sum_delete (λ q, freq (node_at s q)) (nodeMap_ s) k p Hkp).
    rewrite Hn3p. cbn [freq]. fold f0.
    rewrite (index_sum_ext (λ q, freq (node_at s3 q)) (λ q, freq (node_at s q))
               (delete k (nodeMap_ s))); [lia|].
    intros k' q. rewrite lookup_delete. case_decide as Hd; [done|]. intros Hk'.
    rewrite Hn3q; [done|]. intros ->. apply Hd.
    by apply (LFUok_key_inj s k k' p). }
  assert (Hf0 : minFreq_ s ≤ f0).
  { apply (Hleast f0 l0 Hl0). intros ->. by apply elem_of_nil in Hpl0. }
  assert (Hleast3 : ∀ f l, freqToFreqList_ s3 !! f = Some l → l ≠ [] →
                      minFreq_ s ≤ f).
  { intros f l Hl Hlne. destruct (decide (f = f0 + 1)) as [->|Hf1]; [lia|].
    destruct (decide (f = f0)) as [->|Hf0']; [done|].
    apply (Hleast f l); [|done]. by apply HLo. }
  assert (bumpFreq p s =
    let s3 := addToFreqList p (set_freq p (f0 + 1) s1) in
    if decide (freq (node_at s3 p) - 1 = minFreq_ s3)
    then l ← freqToFreqList_ s3 !! (freq (node_at s3 p) - 1);
         Some (if isEmpty l then set_minFreq (minFreq_ s3 + 1) s3 else s3)
    else Some s3) as Hbeq.
  { unfold bumpFreq. rewrite Hrem. cbn [mbind option_bind]. by rewrite Hn1. }
  cbv zeta in Hbeq. fold s3 in Hbeq.
  rewrite Hb in Hbeq. rewrite Hn3p in Hbeq. cbn [freq] in Hbeq.
  replace (f0 + 1 - 1) with f0 in Hbeq by lia.
  revert Hbeq. rewrite Hmin3, HL0. cbn [mbind option_bind]. intros Hbeq.
  exists s'. split; [done|]. split; [done|].
  case_decide as Hd.
  - destruct (isEmpty (unlink p l0)) eqn:He; injection Hbeq as ->.
    + split_and!; try done.
      * intros _. cbn [minFreq_ set_minFreq freqToFreqList_]. split.
        -- destruct HLp as [lp HLp]. rewrite <- Hd. exists (lp ++ [p]).
           split; [done|]. by destruct lp.
        -- intros f l Hl Hlne. pose proof (Hleast3 f l Hl Hlne).
           destruct (decide (f = f0)) as [->|Hne0]; [|lia].
           rewrite HL0 in Hl. injection Hl as <-.
           by destruct (unlink p l0).
      * change (node_at (set_minFreq _ s3) p) with (node_at s3 p). by rewrite Hn3p.
    + split_and!; try done.
      * intros _. split; [|by rewrite Hmin3].
        exists (unlink p l0). rewrite Hmin3, <- Hd. split; [done|].
        intros Hnil. by rewrite Hnil in He.
      * by rewrite Hn3p.
  - injection Hbeq as ->. split_and!; try done.
    + intros _. rewrite Hmin3. split; [|done].
      exists lm. split; [|done]. rewrite HL, decide_False by lia.
      rewrite Hlm. cbn. f_equal. apply unlink_notin. apply (Hnotin (minFreq_ s)); [lia|done].
    + by rewrite Hn3p.
Qed.

Lemma getInternal_exact C M N s k p :
  LFUexact C M N s → N + 1 ≤ M < 2 ^ 31 → nodeMap_ s !! k = Some p →
  ∃ s', getInternal p s = Some (value (node_at s p), s') ∧
    LFUexact C M (N + 1) s' ∧ nodeMap_ s' = nodeMap_ s ∧
    freq (node_at s' p) = freq (node_at s p) + 1 ∧
    (∀ q, q ≠ p → node_at s' q = node_at s q).
Proof.
  intros (Hlk & Hmin & H1' & Hc & Hm & Hsz & HN) HM Hkp.
  pose proof (freq_sum_nonneg s (lk_ok _ Hlk)) as Hpos.
  pose proof (lk_total _ Hlk) as Htot.
  destruct (bumpFreq_exact s k p Hlk Hmin Hkp)
    as (s4 & Hb & Hok4 & Hlk4 & Hmin4 & Hsum4 & Hmap4 & Htot4 & Hc4 & Hm4 & Hf4 & Hq4).
  destruct (bumpFreq_ok s p (lk_ok _ Hlk) (ok_cached _ (lk_ok _ Hlk) k p Hkp))
    as (s4' & Hb' & _ & Hfr4 & _).
  rewrite Hb in Hb'. injection Hb' as <-.
  unfold getInternal. rewrite Hb. cbn [mbind option_bind].
  rewrite addFreqNum_counts by lia. cbn [mbind option_bind].
  eexists. split; [reflexivity|]. split; [|done].
  split; [|split; [done|]];
    cbn [nodeMap_ curTotalNum_ capacity_ maxAverageNum_ freqToFreqList_ set_counters].
  - split.
    + eapply (LFUok_ext s4); try done. apply (ok_minFreq_pos _ Hok4).
    + exact Hlk4.
    + change (freq_sum (set_counters _ _ s4)) with (freq_sum s4).
      cbn [curTotalNum_ set_counters]. lia.
  - rewrite Hmap4. split; [|split; [congruence|split; [congruence|split; [done|lia]]]].
    intros Hne. destruct Hfr4 as (_ & _ & _ & _ & _ & Hdom). by apply Hdom, H1'.
Qed.

(** [kickOut] on a cache that holds an entry: the victim is the oldest
    node of the list of [minFreq_], a cached entry. *)
Lemma kickOut_exact s :
  LFUlinked s → minFreq_exact s → nodeMap_ s ≠ ∅ →
  ∃ p l' s', freqToFreqList_ s !! minFreq_ s = Some (p :: l') ∧
    kickOut s = Some s' ∧ LFUlinked s' ∧
    nodeMap_ s !! key (node_at s p) = Some p ∧
    freq (node_at s p) = minFreq_ s ∧
    nodeMap_ s' = delete (key (node_at s p)) (nodeMap_ s) ∧
    nodes s' = nodes s ∧ capacity_ s' = capacity_ s ∧
    maxAverageNum_ s' = maxAverageNum_ s ∧
    curTotalNum_ s' ≤ curTotalNum_ s.
Proof.
  intros [Hok Hlk Htot] Hmin Hne.
  destruct (Hmin Hne) as [(lm & Hlm & Hlmne) Hleast].
  destruct lm as [|p l']; [done|]. exists p, l'.
  assert (freq (node_at s p) = minFreq_ s) as Hfp.
  { eapply (ok_list_freq _ Hok); [exact Hlm|by left]. }
  assert (nodeMap_ s !! key (node_at s p) = Some p) as Hkp.
  { eapply Hlk; [exact Hlm|by left]. }
  assert (kickOut s = Some
            (decreaseFreqNum (freq (node_at s p))
               (set_nodeMap (delete (key (node_at s p)) (nodeMap_ s))
                  (set_lists (unlink p <$> freqToFreqList_ s) s)))) as Hk.
  { unfold kickOut. rewrite Hlm. cbn [mbind option_bind getFirstNode head].
    assert (freqToFreqList_ s !! freq (node_at s p) = Some (p :: l')) as Hlm'
      by (by rewrite Hfp).
    unfold removeFromFreqList. rewrite Hlm'. cbn [mbind option_bind]. done. }
  eexists. split; [done|]. split; [exact Hk|].
  set (s' := decreaseFreqNum _ _) in *.
  assert (1 ≤ minFreq_ s) as Hmpos by apply (ok_minFreq_pos _ Hok).
  assert (Hsum : freq_sum s' = freq_sum s - freq (node_at s p)).
  { unfold freq_sum.
    rewrite (index_sum_delete (λ q, freq (node_at s q)) (nodeMap_ s) _ p Hkp).
    change (nodeMap_ s') with (delete (key (node_at s p)) (nodeMap_ s)).
    change (λ q, freq (node_at s' q)) with (λ q, freq (node_at s q)). lia. }
  split_and!; try done; [|cbn; lia].
  split.
  - destruct Hok as [Ha Hf Hc Hky Hp Hm Hnd]. split.
    + intros f l q. cbn. rewrite lookup_fmap.
      destruct (freqToFreqList_ s !! f) as [l0|] eqn:Hl0; [|done].
      cbn. intros [= <-] [Hq _]%elem_of_unlink. by eapply Ha.
    + intros f l q. cbn. rewrite lookup_fmap.
      destruct (freqToFreqList_ s !! f) as [l0|] eqn:Hl0; [|done].
      cbn. intros [= <-] [Hq _]%elem_of_unlink. by eapply Hf.
    + intros k q. cbn. rewrite lookup_delete. case_decide as Hd; [done|].
      intros Hkq. destruct (Hc k q Hkq) as (l0 & Hl0 & Hq).
      unfold in_own_list. cbn. rewrite lookup_fmap.
      change (node_at _ q) with (node_at s q). rewrite Hl0. cbn.
      eexists. split; [done|]. apply elem_of_unlink. split; [done|].
      intros ->. apply Hd. by apply Hky.
    + intros k q. cbn. rewrite lookup_delete. case_decide; [done|]. apply Hky.
    + intros f. cbn. rewrite lookup_fmap. intros [l0 Hl0]. apply Hp.
      destruct (freqToFreqList_ s !! f); [eauto|done].
    + done.
    + intros f l. cbn. rewrite lookup_fmap.
      destruct (freqToFreqList_ s !! f) as [l0|] eqn:Hl0; [|done].
      cbn. intros [= <-]. apply NoDup_filter. by eapply Hnd.
  - intros f l q. cbn. rewrite lookup_fmap.
    destruct (freqToFreqList_ s !! f) as [l0|] eqn:Hl0; [|done].
    cbn. intros [= <-] [Hq Hqp]%elem_of_unlink.
    change (node_at _ q) with (node_at s q).
    rewrite lookup_delete_ne; [by eapply Hlk|].
    intros Heq. apply Hqp. pose proof (Hlk f l0 q Hl0 Hq) as Hq'.
    rewrite <- Heq in Hq'. congruence.
  - rewrite Hsum. cbn. lia.
Qed.

(** Allocation, indexing and linking of a new entry, then the count. *)
Lemma link_new_exact C M N s1 k v :
  LFUlinked s1 → nodeMap_ s1 !! k = None →
  capacity_ s1 = C → maxAverageNum_ s1 = M →
  Z.of_nat (size (nodeMap_ s1)) + 1 ≤ C → curTotalNum_ s1 ≤ N →
  N + 1 ≤ M < 2 ^ 31 →
  let n := length (nodes s1) in
  let s4 := addToFreqList n
              (set_nodeMap (<[k := n]> (nodeMap_ s1))
                 (set_nodes (nodes s1 ++ [Node_new k v]) s1)) in
  ∃ s5, addFreqNum s4 = Some s5 ∧
    LFUexact C M (N + 1) (set_minFreq (Z.min (minFreq_ s5) 1) s5) ∧
    nodeMap_ s5 = <[k := n]> (nodeMap_ s1) ∧
    node_at s5 n = Node_new k v ∧
    (∀ q, (q < n)%nat → node_at s5 q = node_at s1 q).
Proof.
  intros [Hok Hlk Htot] Hnone Hc Hm Hsz HN HM n s4.
  pose proof (freq_sum_nonneg s1 Hok) as Hpos.
  destruct (link_new_ok s1 k v Hok) as (Hok4 & Hnew & H14 & Hmap4 & Hc4 & Hm4).
  cbv zeta in Hok4, Hnew, H14, Hmap4, Hc4, Hm4. fold n in Hok4, Hnew, H14, Hmap4, Hc4, Hm4.
  fold s4 in Hok4, Hnew, H14, Hmap4, Hc4, Hm4.
  assert (Hold : ∀ q, (q < n)%nat → node_at s4 q = node_at s1 q).
  { intros q Hq. unfold node_at, s4. cbn. by rewrite lookup_app_l. }
  assert (Hlists : ∀ f, freqToFreqList_ s4 !! f =
            if decide (f = 1) then Some (default [] (freqToFreqList_ s1 !! 1) ++ [n])
            else freqToFreqList_ s1 !! f).
  { intros f. unfold s4, addToFreqList. cbn [freqToFreqList_ set_lists].
    change (node_at (set_nodeMap _ _) n) with (node_at s4 n). rewrite Hnew.
    cbn [freq Node_new set_nodeMap set_nodes freqToFreqList_].
    rewrite lookup_insert. destruct (decide (1 = f)) as [<-|];
      [by rewrite decide_True|by rewrite decide_False]. }
  assert (Halloc : ∀ k' q, nodeMap_ s1 !! k' = Some q → (q < n)%nat).
  { intros k' q Hq. eapply in_own_list_alloc; [exact Hok|].
    by eapply (ok_cached _ Hok). }
  assert (Hlk4 : ∀ f l q, freqToFreqList_ s4 !! f = Some l → q ∈ l →
                   nodeMap_ s4 !! key (node_at s4 q) = Some q).
  { intros f l q. rewrite Hlists, Hmap4.
    assert (Hcase : ∀ l0, freqToFreqList_ s1 !! f = Some l0 → q ∈ l0 →
              <[k:=n]> (nodeMap_ s1) !! key (node_at s4 q) = Some q).
    { intros l0 Hl0 Hq. pose proof (Hlk f l0 q Hl0 Hq) as Hq'.
      rewrite Hold by (by eapply Halloc). rewrite lookup_insert_ne; [done|].
      intros Heq. rewrite <- Heq in Hq'. congruence. }
    destruct (decide (f = 1)) as [->|Hf]; [|by apply Hcase].
    intros Hl. injection Hl as Hl. subst l.
    rewrite elem_of_app, list_elem_of_singleton. intros [Hq| ->].
    - destruct (freqToFreqList_ s1 !! 1) as [l0|] eqn:Hl0; cbn in Hq.
      + by apply (Hcase l0).
      + by apply elem_of_nil in Hq.
    - rewrite Hnew. cbn. apply lookup_insert_eq. }
  assert (Hsum4 : freq_sum s4 = freq_sum s1 + 1).
  { unfold freq_sum. rewrite Hmap4, index_sum_insert by done.
    rewrite Hnew. cbn [freq Node_new]. f_equal.
    apply index_sum_ext. intros k' q Hq. rewrite Hold; [done|]. by eapply Halloc. }
  assert (curTotalNum_ s4 = curTotalNum_ s1) as Htot4 by done.
  assert (minFreq_ s4 = minFreq_ s1) as Hmin4 by done.
  rewrite addFreqNum_counts by (rewrite ?Htot4, ?Hm4; lia).
  eexists. split; [reflexivity|]. split; [|done].
  cbn [minFreq_ set_counters]. rewrite Hmin4.
  assert (Z.min (minFreq_ s1) 1 = 1) as ->
    by (pose proof (ok_minFreq_pos _ Hok); lia).
  split; [|split; [|split]];
    cbn [nodeMap_ curTotalNum_ capacity_ maxAverageNum_ freqToFreqList_ minFreq_
         set_counters set_minFreq].
  - split.
    + eapply (LFUok_ext s4); try done.
    + exact Hlk4.
    + change (freq_sum (set_minFreq _ (set_counters _ _ s4))) with (freq_sum s4).
      cbn [curTotalNum_ set_counters set_minFreq]. lia.
  - intros _. cbn [nodeMap_ freqToFreqList_ minFreq_ set_counters set_minFreq]. split.
    + rewrite Hlists, decide_True by done. eexists. split; [done|].
      by destruct (default [] (freqToFreqList_ s1 !! 1)).
    + intros f l Hl _. apply (ok_freq_pos _ Hok4). eauto.
  - intros _. exact H14.
  - rewrite Hmap4, map_size_insert_None by done.
    split; [congruence|]. split; [congruence|]. split; lia.
Qed.

Lemma putInternal_exact C M N s k v :
  LFUexact C M N s → 1 ≤ C < 2 ^ 31 → N + 1 ≤ M < 2 ^ 31 →
  nodeMap_ s !! k = None →
  ∃ s', putInternal k v s = Some s' ∧ LFUexact C M (N + 1) s' ∧
    (Z.of_nat (size (nodeMap_ s)) = C →
     ∃ p l', freqToFreqList_ s !! minFreq_ s = Some (p :: l') ∧
       nodeMap_ s !! key (node_at s p) = Some p ∧
       freq (node_at s p) = minFreq_ s ∧
       nodeMap_ s' = <[k := length (nodes s)]>
                       (delete (key (node_at s p)) (nodeMap_ s))) ∧
    (Z.of_nat (size (nodeMap_ s)) ≠ C →
     nodeMap_ s' = <[k := length (nodes s)]> (nodeMap_ s)) ∧
    node_at s' (length (nodes s)) = Node_new k v ∧
    (∀ q, (q < length (nodes s))%nat → node_at s' q = node_at s q).
Proof.
  intros (Hlk & Hmin & H1' & Hc & Hm & Hsz & HN) HC HM Hnone.
  unfold putInternal. rewrite Hc, to_size_t_small by lia.
  destruct (decide (Z.of_nat (size (nodeMap_ s)) = C)) as [Hfull|Hnot].
  - assert (nodeMap_ s ≠ ∅) as Hne.
    { intros He. rewrite He, map_size_empty in Hfull. lia. }
    destruct (kickOut_exact s Hlk Hmin Hne)
      as (p & l' & s1 & Hlm & -> & Hlk1 & Hkp & Hfp & Hmap1 & Hn1 & Hc1 & Hm1 & Htot1).
    cbn [mbind option_bind]. cbv zeta.
    destruct (link_new_exact C M N s1 k v Hlk1)
      as (s5 & Hadd & Hex & Hmap5 & Hnew5 & Hold5);
      [rewrite Hmap1, lookup_delete; by case_decide|congruence|congruence| |lia|done|].
    { rewrite Hmap1, map_size_delete_Some by eauto.
      assert (size (nodeMap_ s) ≠ 0%nat) by (by apply map_size_non_empty_iff). lia. }
    match goal with
    | |- context [addFreqNum ?x] => change (addFreqNum x = Some s5) in Hadd
    end.
    rewrite Hadd. cbn [mbind option_bind]. eexists. split; [reflexivity|]. split; [done|].
    split; [|split; [done|split]].
    + intros _. exists p, l'. split_and!; [done..|].
      cbn [nodeMap_ set_minFreq]. by rewrite Hmap5, Hmap1, Hn1.
    + change (node_at (set_minFreq _ s5) (length (nodes s)))
        with (node_at s5 (length (nodes s))). rewrite <- Hn1. exact Hnew5.
    + intros q Hq. change (node_at (set_minFreq _ s5) q) with (node_at s5 q).
      rewrite Hold5 by (by rewrite Hn1). unfold node_at. by rewrite Hn1.
  - cbn [mbind option_bind]. cbv zeta.
    destruct (link_new_exact C M N s k v Hlk)
      as (s5 & Hadd & Hex & Hmap5 & Hnew5 & Hold5);
      [done|done|done|lia|done|done|].
    match goal with
    | |- context [addFreqNum ?x] => change (addFreqNum x = Some s5) in Hadd
    end.
    rewrite Hadd. cbn [mbind option_bind]. eexists. split; [reflexivity|]. split; [done|].
    split; [done|]. split; [by intros _|]. split; [exact Hnew5|exact Hold5].
Qed.

Lemma LFUexact_mono C M N N' s : LFUexact C M N s → N ≤ N' → LFUexact C M N' s.
Proof.
  intros (? & ? & ? & ? & ? & ? & ?) ?. unfold LFUexact. split_and!; try done. lia.
Qed.

Lemma LFUexact_set_value C M N s p v :
  LFUexact C M N s → LFUexact C M N (set_value p v s).
Proof.
  intros ([Hok Hlk Htot] & Hmin & H1' & Hc & Hm & Hsz & HN).
  assert (Hfk : ∀ q, freq (node_at (set_value p v s) q) = freq (node_at s q) ∧
                     key (node_at (set_value p v s) q) = key (node_at s q)).
  { intros q. destruct (decide (q = p)) as [->|Hne].
    - destruct (decide (p < length (nodes s))%nat).
      + by rewrite node_at_set_value_eq.
      + unfold set_value, set_nodes, node_at. cbn. by rewrite list_insert_ge by lia.
    - by rewrite node_at_set_value_ne. }
  unfold LFUexact. split_and!; try done. split.
  - by apply LFUok_set_value.
  - intros f l q Hl Hq. destruct (Hfk q) as [_ ->]. by apply (Hlk f l).
  - unfold freq_sum. change (nodeMap_ (set_value p v s)) with (nodeMap_ s).
    rewrite (index_sum_ext _ (λ q, freq (node_at s q))); [done|].
    intros k q _. apply Hfk.
Qed.

Lemma put_exact C M N s k v :
  LFUexact C M N s → 1 ≤ C < 2 ^ 31 → N + 1 ≤ M < 2 ^ 31 →
  ∃ s', put k v s = Some s' ∧ LFUexact C M (N + 1) s'.
Proof.
  intros Hex HC HM. pose proof Hex as (_ & _ & _ & Hc & _).
  unfold put. rewrite decide_False by lia.
  destruct (nodeMap_ s !! k) as [p|] eqn:Hkp.
  - destruct (getInternal_exact C M N (set_value p v s) k p
                (LFUexact_set_value C M N s p v Hex) HM Hkp) as (s' & -> & ? & _).
    cbn [mbind option_bind]. by exists s'.
  - destruct (putInternal_exact C M N s k v Hex HC HM Hkp) as (s' & ? & ? & _).
    by exists s'.
Qed.

Lemma exec_exact C M N s o :
  LFUexact C M N s → 1 ≤ C < 2 ^ 31 → N + 1 ≤ M < 2 ^ 31 →
  ∃ s', exec o s = Some s' ∧ LFUexact C M (N + 1) s'.
Proof.
  intros Hex HC HM. destruct o as [k v|k|]; cbn [exec].
  - by apply put_exact.
  - unfold get, get_ref. destruct (nodeMap_ s !! k) as [p|] eqn:Hkp.
    + destruct (getInternal_exact C M N s k p Hex HM Hkp) as (s' & -> & ? & _).
      cbn. by exists s'.
    + cbn. exists s. split; [done|]. apply (LFUexact_mono C M N); [done|lia].
  - eexists. split; [done|].
    destruct Hex as ([Hok Hlk Htot] & Hmin & H1' & Hc & Hm & Hsz & HN).
    pose proof (freq_sum_nonneg s Hok) as Hpos.
    unfold LFUexact. split_and!; try done.
    + split.
      * split; cbn.
        -- intros f l p. by rewrite lookup_empty.
        -- intros f l p. by rewrite lookup_empty.
        -- intros k p. by rewrite lookup_empty.
        -- intros k p. by rewrite lookup_empty.
        -- intros f [l Hl]. by rewrite lookup_empty in Hl.
        -- apply (ok_minFreq_pos _ Hok).
        -- intros f l. by rewrite lookup_empty.
      * intros f l q. cbn. by rewrite lookup_empty.
      * unfold freq_sum. cbn. unfold index_sum. rewrite map_fold_empty. lia.
    + cbn. rewrite map_size_empty. lia.
    + cbn. lia.
Qed.

Lemma run_exact C M ops : ∀ N s,
  LFUexact C M N s → 1 ≤ C < 2 ^ 31 → N + Z.of_nat (length ops) ≤ M < 2 ^ 31 →
  ∃ s', run ops s = Some s' ∧ LFUexact C M (N + Z.of_nat (length ops)) s'.
Proof.
  induction ops as [|o ops IH]; intros N s Hex HC HM; cbn [run].
  - exists s. split; [done|]. cbn. by rewrite Z.add_0_r.
  - cbn [length] in *.
    destruct (exec_exact C M N s o Hex HC ltac:(lia)) as (s1 & -> & Hex1).
    cbn [mbind option_bind].
    destruct (IH (N + 1) s1 Hex1 HC ltac:(lia)) as (s2 & -> & Hex2).
    exists s2. split; [done|].
    replace (N + Z.of_nat (S (length ops))) with (N + 1 + Z.of_nat (length ops))
      by lia.
    done.
Qed.

Lemma LFUexact_new C M :
  0 ≤ C → LFUexact C M 0 (LFUCache_new (Key:=Key) (Value:=Value) C M).
Proof.
  intros HC. unfold LFUexact.
  split; [|split_and!; try done; cbn; rewrite map_size_empty; lia].
  split.
  - apply LFUwf_new.
  - intros f l q. cbn. by rewrite lookup_empty.
  - unfold freq_sum. cbn. unfold index_sum. by rewrite map_fold_empty.
Qed.


Lemma freq_of_frame s s' k p :
  LFUok s → nodeMap_ s !! k = Some p → nodeMap_ s' = nodeMap_ s →
  (∀ q, q ≠ p → node_at s' q = node_at s q) →
  ∀ k', k' ≠ k → freq_of s' k' = freq_of s k'.
Proof.
  intros Hok Hkp Hmap Hq k' Hne. unfold freq_of. rewrite Hmap.
  destruct (nodeMap_ s !! k') as [q|] eqn:Hk'; [|done]. cbn.
  rewrite Hq; [done|]. intros ->. apply Hne. by apply (LFUok_key_inj s k' k p).
Qed.

(** X16. Access counting while no age-down can have run (capacity of at
    least 1, workload shorter than [maxAverageNum]): a [get] that hits
    and a [put] on a cached key each raise the frequency of that key by
    exactly 1, a [put] of a new key into a cache that is not full enters
    it with frequency 1, and in all three cases the frequency of every
    other key is unchanged. *)
Theorem LFU_access_counting (C M : Z) (ops : list (op (Key:=Key) (Value:=Value))) :
  1 ≤ C < 2 ^ 31 → Z.of_nat (length ops) < M < 2 ^ 31 →
  ∃ s, run ops (LFUCache_new C M) = Some s ∧
    (∀ k f d, freq_of s k = Some f →
       ∃ v s', get_ref k d s = Some (true, v, s') ∧
         freq_of s' k = Some (f + 1) ∧
         ∀ k', k' ≠ k → freq_of s' k' = freq_of s k') ∧
    (∀ k f v, freq_of s k = Some f →
       ∃ s', put k v s = Some s' ∧
         freq_of s' k = Some (f + 1) ∧
         ∀ k', k' ≠ k → freq_of s' k' = freq_of s k') ∧
    (∀ k v, freq_of s k = None → Z.of_nat (size (nodeMap_ s)) < C →
       ∃ s', put k v s = Some s' ∧
         freq_of s' k = Some 1 ∧
         ∀ k', k' ≠ k → freq_of s' k' = freq_of s k').
Proof.
  intros HC HM.
  destruct (run_exact C M ops 0 (LFUCache_new C M) (LFUexact_new C M ltac:(lia))
              HC ltac:(lia)) as (s & Hrun & Hex).
  rewrite Z.add_0_l in Hex.
  pose proof Hex as ([Hok Hlk Htot] & Hmin & H1' & Hc & Hm & Hsz & HN).
  assert (HM' : Z.of_nat (length ops) + 1 ≤ M < 2 ^ 31) by lia.
  exists s. split; [done|]. split_and!.
  - intros k f d. unfold freq_of at 1.
    destruct (nodeMap_ s !! k) as [p|] eqn:Hkp; [|done]. cbn. intros [= <-].
    destruct (getInternal_exact C M _ s k p Hex HM' Hkp)
      as (s' & Hg & _ & Hmap' & Hf' & Hq').
    exists (value (node_at s p)), s'. split_and!.
    + unfold get_ref. rewrite Hkp, Hg. done.
    + unfold freq_of. rewrite Hmap', Hkp. cbn. by rewrite Hf'.
    + by apply (freq_of_frame s s' k p).
  - intros k f v. unfold freq_of at 1.
    destruct (nodeMap_ s !! k) as [p|] eqn:Hkp; [|done]. cbn. intros [= <-].
    destruct (getInternal_exact C M _ (set_value p v s) k p
                (LFUexact_set_value C M _ s p v Hex) HM' Hkp)
      as (s' & Hg & _ & Hmap' & Hf' & Hq').
    assert (Hfk : ∀ q, freq (node_at (set_value p v s) q) = freq (node_at s q)).
    { intros q. destruct (decide (q = p)) as [->|Hne].
      - rewrite node_at_set_value_eq; [done|].
        eapply in_own_list_alloc; [exact Hok|]. by eapply (ok_cached _ Hok).
      - by rewrite node_at_set_value_ne. }
    exists s'. split_and!.
    + unfold put. rewrite decide_False by lia. rewrite Hkp, Hg. done.
    + unfold freq_of.
      change (nodeMap_ (set_value p v s)) with (nodeMap_ s) in Hmap'.
      rewrite Hmap', Hkp. cbn. by rewrite Hf', Hfk.
    + intros k' Hne. unfold freq_of.
      change (nodeMap_ (set_value p v s)) with (nodeMap_ s) in Hmap'.
      rewrite Hmap'. destruct (nodeMap_ s !! k') as [q|] eqn:Hk'; [|done]. cbn.
      rewrite Hq', node_at_set_value_ne; [done| |];
        intros ->; apply Hne; by apply (LFUok_key_inj s k' k p).
  - intros k v. unfold freq_of at 1.
    destruct (nodeMap_ s !! k) as [p|] eqn:Hkp; [done|]. intros _ Hlt.
    destruct (putInternal_exact C M _ s k v Hex HC HM' Hkp)
      as (s' & Hput & _ & _ & Hmap' & Hnew & Hold).
    specialize (Hmap' ltac:(lia)).
    exists s'. split_and!.
    + unfold put. rewrite decide_False by lia. by rewrite Hkp.
    + unfold freq_of. rewrite Hmap', lookup_insert_eq. cbn. by rewrite Hnew.
    + intros k' Hne. unfold freq_of. rewrite Hmap', lookup_insert_ne by done.
      destruct (nodeMap_ s !! k') as [q|] eqn:Hk'; [|done]. cbn.
      rewrite Hold; [done|].
      eapply in_own_list_alloc; [exact Hok|]. by eapply (ok_cached _ Hok).
Qed.
End LFUExact.


(* ================================================================== *)
(** * LRUKCache with threshold 1 *)

Section LRUKThresholdOne.
Context {Key : Type} `{Countable Key} `{DefaultCtor Key}.
Import LRUK.
Implicit Types (s : LRUKCache (Key:=Key)) (k : Key) (v w : string).
Implicit Types (h : LRU.LRUCache (Key:=Key) (Value:=Z)) (N : Z).

Lemma model_lookup_elem_of {V} (k : Key) (c : V) (l : list (Key * V)) :
  LRU.model_lookup k l = Some c → (k, c) ∈ l.
Proof.
  induction l as [|[k' c'] l IH]; cbn; [done|]. case_decide as Hd.
  - intros [= ->]. subst k'. by left.
  - intros Hl. right. by apply IH.
Qed.

Lemma elem_of_model_put {V} C (k : Key) (c : V) (l : list (Key * V)) e :
  e ∈ LRU.model_put C k c l → e ∈ l ∨ e = (k, c).
Proof.
  unfold LRU.model_put. case_decide; [by left|].
  destruct (LRU.model_lookup k l).
  - rewrite elem_of_model_touch. tauto.
  - rewrite elem_of_app, list_elem_of_singleton. intros [He|?]; [left|by right].
    case_decide; [|done]. destruct l; [done|]. by right.
Qed.

(** The recorded counts stay between 0 and the number of accesses. *)
Lemma bumpHistory_counts h k N :
  LRU.LRUbounded h → 0 ≤ N < 2 ^ 31 - 1 →
  (∀ k' c, (k', c) ∈ LRU.entries h → 0 ≤ c ≤ N) →
  ∃ c h', bumpHistory k h = Some (c, h') ∧ 1 ≤ c ≤ N + 1 ∧
    LRU.LRUbounded h' ∧ LRU.capacity_ h' = LRU.capacity_ h ∧
    (∀ k' c', (k', c') ∈ LRU.entries h' → 0 ≤ c' ≤ N + 1).
Proof.
  intros Hb HN Hcnt. unfold bumpHistory, LRU.get.
  destruct (bounded_get_ref h k default_ctor Hb)
    as (hit & c & h1 & -> & Hb1 & Hc1 & _ & _ & Hg).
  assert (0 ≤ c ≤ N ∧ ∀ e, e ∈ LRU.entries h1 → e ∈ LRU.entries h) as [Hc Hsub].
  { unfold LRU.model_get in Hg.
    destruct (LRU.model_lookup k (LRU.entries h)) as [c0|] eqn:Hl.
    - injection Hg as <- <- <-. apply model_lookup_elem_of in Hl. split.
      + by apply (Hcnt k).
      + intros e. rewrite elem_of_model_touch. intros [[? _]| ->]; done.
    - injection Hg as <- <- <-. split; [|done].
      unfold default_ctor, Z_DefaultCtor. lia. }
  rewrite to_int_small by lia. rewrite to_size_t_small by lia.
  destruct (bounded_put h1 k (c + 1) Hb1) as (h2 & -> & Hb2 & Hc2 & He2).
  cbn [mbind option_bind]. eexists _, _. split; [done|].
  split; [lia|]. split; [done|]. split; [congruence|].
  intros k' c'. rewrite He2. intros [Hin|[= -> ->]]%elem_of_model_put; [|lia].
  apply Hsub, Hcnt in Hin. lia.
Qed.

Lemma LRUK_threshold_one_put s k v N :
  LRUKwf s → k_ s ≤ 1 → 1 ≤ LRU.capacity_ (base s) → 0 ≤ N < 2 ^ 31 - 1 →
  (∀ k' c, (k', c) ∈ LRU.entries (historyList_ s) → 0 ≤ c ≤ N) →
  ∃ s', put k v s = Some s' ∧ LRUKwf s' ∧ k_ s' = k_ s ∧
    LRU.capacity_ (base s') = LRU.capacity_ (base s) ∧
    (∀ k' c, (k', c) ∈ LRU.entries (historyList_ s') → 0 ≤ c ≤ N + 1) ∧
    main_value k s' = Some v.
Proof.
  intros [Hb Hh] HK HC HN Hcnt. unfold put.
  destruct (LRUK_main_get_ok s k Hb) as (b0 & -> & Hb0 & Hc0 & _).
  assert (∃ b1, (if decide (default EmptyString (main_value k s) ≠ EmptyString)
                 then LRU.put k v b0 else Some b0) = Some b1 ∧
            LRU.LRUbounded b1 ∧ LRU.capacity_ b1 = LRU.capacity_ (base s))
    as (b1 & -> & Hb1 & Hc1).
  { case_decide.
    - destruct (bounded_put b0 k v Hb0) as (b1 & -> & ? & ? & _).
      exists b1. split_and!; [done|done|congruence].
    - by exists b0. }
  cbn [mbind option_bind].
  destruct (bumpHistory_counts (historyList_ s) k N Hh HN Hcnt)
    as (c & h' & -> & Hc & Hh' & Hch & Hcnt').
  cbn [mbind option_bind]. rewrite decide_True by lia.
  destruct (bounded_put b1 k v Hb1) as (b2 & -> & Hb2 & Hc2 & He2).
  cbn [mbind option_bind].
  destruct (bounded_remove h' k Hh') as (Hh2 & Hch2 & Her).
  eexists. split; [done|]. split_and!; [by split|done|cbn; congruence| |].
  - intros k' c'. cbn [historyList_]. rewrite Her. unfold LRU.model_remove.
    intros [_ Hin]%list_elem_of_filter. by apply (Hcnt' k').
  - unfold main_value. cbn [base]. rewrite He2.
    apply model_lookup_put; [lia|]. apply LRUwf_NoDup_keys, Hb1.
Qed.

Lemma LRUK_threshold_one_run C K ops : ∀ s N,
  K ≤ 1 → 1 ≤ C →
  LRUKwf s → k_ s = K → LRU.capacity_ (base s) = C →
  0 ≤ N → N + Z.of_nat (length ops) < 2 ^ 31 - 1 →
  (∀ k' c, (k', c) ∈ LRU.entries (historyList_ s) → 0 ≤ c ≤ N) →
  ∃ s', run ops s = Some s' ∧ LRUKwf s' ∧ k_ s' = K ∧
    LRU.capacity_ (base s') = C ∧
    (∀ k' c, (k', c) ∈ LRU.entries (historyList_ s') →
             0 ≤ c ≤ N + Z.of_nat (length ops)).
Proof.
  induction ops as [|o ops IH]; intros s N HK HC Hwf Hk Hcb HN0 HN Hcnt; cbn [run].
  - exists s. split_and!; [done..|]. intros k' c Hin. apply Hcnt in Hin.
    cbn. lia.
  - cbn [length] in *.
    assert (∃ s1, exec o s = Some s1 ∧ LRUKwf s1 ∧ k_ s1 = K ∧
              LRU.capacity_ (base s1) = C ∧
              (∀ k' c, (k', c) ∈ LRU.entries (historyList_ s1) → 0 ≤ c ≤ N + 1))
      as (s1 & -> & Hwf1 & Hk1 & Hcb1 & Hcnt1).
    { destruct o as [k v|k]; cbn [exec].
      - destruct (LRUK_threshold_one_put s k v N Hwf ltac:(lia) ltac:(lia)
                    ltac:(lia) Hcnt) as (s1 & -> & ? & ? & ? & ? & _).
        exists s1. split_and!; [done|done|congruence|congruence|done].
      - destruct Hwf as [Hb Hh]. unfold get.
        destruct (bumpHistory_counts (historyList_ s) k N Hh ltac:(lia) Hcnt)
          as (c & h' & -> & _ & Hh' & Hch & Hcnt').
        cbn [mbind option_bind].
        destruct (LRUK_main_get_ok s k Hb) as (b & -> & Hb' & Hcb' & _).
        eexists. split; [done|]. split_and!; [by split|done|cbn; congruence|done]. }
    cbn [mbind option_bind].
    destruct (IH s1 (N + 1) HK HC Hwf1 Hk1 Hcb1 ltac:(lia) ltac:(lia) Hcnt1)
      as (s2 & -> & ? & ? & ? & Hcnt2).
    exists s2. split_and!; [done..|]. intros k' c Hin. apply Hcnt2 in Hin. lia.
Qed.

(** X17. With a threshold of 1 or less every [put] admits its key: for
    an [LRUKCache] of main capacity at least 1 and any [int] history
    capacity, after any workload of fewer than [2^31 - 2] operations, a
    [put(k, v)] followed by [get(k)] returns [v]. *)
Theorem LRUK_threshold_one_put_then_get (C Hc K : Z) (ops : list (op (Key:=Key)))
    k v :
  1 ≤ C < 2 ^ 31 → - 2 ^ 31 ≤ Hc < 2 ^ 31 → K ≤ 1 →
  Z.of_nat (length ops) < 2 ^ 31 - 2 →
  ∃ s s1 s2, run ops (LRUKCache_new C Hc K) = Some s ∧
    put k v s = Some s1 ∧ get k s1 = Some (v, s2).
Proof.
  intros HC HH HK Hlen.
  destruct (LRUK_threshold_one_run C K ops (LRUKCache_new C Hc K) 0 HK
              ltac:(lia) (LRUKwf_new C Hc K ltac:(lia) HH) eq_refl eq_refl
              ltac:(lia) ltac:(lia))
    as (s & Hrun & Hwf & Hk & Hcb & Hcnt).
  { intros k' c Hin. by apply elem_of_nil in Hin. }
  destruct (LRUK_threshold_one_put s k v (Z.of_nat (length ops)) Hwf
              ltac:(lia) ltac:(lia) ltac:(lia))
    as (s1 & Hput & Hwf1 & _ & _ & _ & Hv).
  { intros k' c Hin. apply Hcnt in Hin. lia. }
  destruct (LRUK_get_ok s1 k Hwf1) as (s2 & Hget & _).
  rewrite Hv in Hget. by exists s, s1, s2.
Qed.
End LRUKThresholdOne.


(* ================================================================== *)
(** * LRUKCache admission *)

Section LRUKAdmission.
Context {Key : Type} `{Countable Key} `{DefaultCtor Key}.
Import LRUK.
Implicit Types (s : LRUKCache (Key:=Key)) (k : Key) (v w : string).
Implicit Types (N : Z).



End LRUKAdmission.


(* ================================================================== *)
(** * LFUCache counters *)

Section SumUpto.
Implicit Types (g : nat → Z) (n p q : nat).

Lemma sum_upto_le g g' n :
  (∀ q, (q < n)%nat → g' q ≤ g q) → sum_upto g' n ≤ sum_upto g n.
Proof.
  induction n as [|n IH]; intros Hq; cbn; [lia|].
  pose proof (Hq n ltac:(lia)). pose proof (IH ltac:(intros q ?; apply Hq; lia)).
  lia.
Qed.

(** The sum when one summand changes by at most [d] and no other
    summand grows. *)
Lemma sum_upto_change g g' n p d :
  (p < n)%nat → (∀ q, (q < n)%nat → q ≠ p → g' q ≤ g q) → g' p ≤ g p + d →
  sum_upto g' n ≤ sum_upto g n + d.
Proof.
  induction n as [|n IH]; intros Hp Hq Hd; [lia|]. cbn.
  destruct (decide (p = n)) as [->|Hne].
  - pose proof (sum_upto_le g g' n ltac:(intros q ?; apply Hq; lia)). lia.
  - pose proof (IH ltac:(lia) ltac:(intros q ? ?; apply Hq; lia) Hd).
    pose proof (Hq n ltac:(lia) ltac:(lia)). lia.
Qed.

Lemma sum_upto_nonneg g n : (∀ q, (q < n)%nat → 0 ≤ g q) → 0 ≤ sum_upto g n.
Proof.
  induction n as [|n IH]; intros Hq; cbn; [lia|].
  pose proof (Hq n ltac:(lia)). pose proof (IH ltac:(intros q ?; apply Hq; lia)).
  lia.
Qed.
End SumUpto.

Lemma to_int_range z : - 2 ^ 31 ≤ to_int z < 2 ^ 31.
Proof.
  unfold to_int. pose proof (Z.mod_pos_bound (z + 2 ^ 31) (2 ^ 32) ltac:(lia)). lia.
Qed.

Lemma to_int_to_size_t z : - 2 ^ 31 ≤ z < 2 ^ 31 → to_int (to_size_t z / 1) = z.
Proof.
  intros Hz. rewrite Z.div_1_r. unfold to_int, to_size_t.
  destruct (decide (0 ≤ z)).
  - rewrite (Z.mod_small z) by lia. rewrite Z.mod_small by lia. lia.
  - rewrite <- (Z.mod_unique z (2 ^ 64) (-1) (z + 2 ^ 64)) by lia.
    rewrite <- (Z.mod_unique (z + 2 ^ 64 + 2 ^ 31) (2 ^ 32) (2 ^ 32) (z + 2 ^ 31))
      by lia.
    lia.
Qed.

Section LFUCounters.
Context {Key Value : Type} `{Countable Key}.
Context `{DefaultCtor Key} `{DefaultCtor Value}.
Import LFU.
Implicit Types (s : LFUCache (Key:=Key) (Value:=Value)) (k : Key) (v d : Value).
Implicit Types (p q : NodePtr) (f : Z) (C M N : Z).

Lemma average_range s t : - 2 ^ 31 ≤ average s t < 2 ^ 31.
Proof. unfold average. case_decide; [lia|apply to_int_range]. Qed.

Lemma linked_freq_own s p :
  in_own_list s p → linked_freq s p = freq (node_at s p).
Proof.
  intros (l & Hl & Hp). unfold linked_freq. rewrite Hl. by rewrite decide_True.
Qed.

Lemma linked_freq_nonneg N s p :
  freq_within N s → (p < length (nodes s))%nat → 0 ≤ linked_freq s p.
Proof.
  intros Hw Hp. pose proof (Hw p Hp). unfold linked_freq.
  destruct (freqToFreqList_ s !! _); [case_decide|]; lia.
Qed.

Lemma linked_sum_nonneg N s : freq_within N s → 0 ≤ linked_sum s.
Proof.
  intros Hw. apply sum_upto_nonneg. intros q Hq. by apply (linked_freq_nonneg N).
Qed.

Lemma linked_sum_ext s s' :
  nodes s' = nodes s → freqToFreqList_ s' = freqToFreqList_ s →
  linked_sum s' = linked_sum s.
Proof.
  intros Hn Hl. unfold linked_sum, linked_freq, node_at. by rewrite Hn, Hl.
Qed.

Lemma freq_within_ext N s s' :
  nodes s' = nodes s → freq_within N s → freq_within N s'.
Proof. intros Hn Hw p. unfold node_at. rewrite Hn. apply Hw. Qed.

Lemma freq_within_mono N N' s : N ≤ N' → freq_within N s → freq_within N' s.
Proof. intros HN Hw p Hp. pose proof (Hw p Hp). lia. Qed.

(** Unlinking a node, giving it frequency [f'] and linking it again
    changes the sum over the linked nodes by the change of that
    frequency. *)
Lemma relink_counted s p f' :
  LFUok s → in_own_list s p → 1 ≤ f' →
  removeFromFreqList p s = Some (set_lists (unlink p <$> freqToFreqList_ s) s) ∧
  let s3 := addToFreqList p
              (set_freq p f' (set_lists (unlink p <$> freqToFreqList_ s) s)) in
  length (nodes s3) = length (nodes s) ∧
  freq (node_at s3 p) = f' ∧ (∀ q, q ≠ p → node_at s3 q = node_at s q) ∧
  minFreq_ s3 = minFreq_ s ∧ curTotalNum_ s3 = curTotalNum_ s ∧
  curAverageNum_ s3 = curAverageNum_ s ∧
  linked_sum s3 ≤ linked_sum s + (f' - freq (node_at s p)).
Proof.
  intros Hok Hown Hf'.
  pose proof (in_own_list_alloc s p Hok Hown) as Halloc.
  destruct (relink_lists s p f' Hok Hown)
    as (s1 & Hrem & Hn1 & HL & Hn3p & Hn3q & _ & Hmin3 & Htot3 & Havg3 & _).
  assert (s1 = set_lists (unlink p <$> freqToFreqList_ s) s) as ->.
  { unfold removeFromFreqList in Hrem.
    destruct (freqToFreqList_ s !! freq (node_at s p)); [|done].
    cbn in Hrem. by injection Hrem as <-. }
  split; [done|]. cbv zeta in *.
  set (s3 := addToFreqList p (set_freq p f' _)) in *.
  assert (Hlen : length (nodes s3) = length (nodes s)).
  { unfold s3, addToFreqList, set_freq. cbn. by rewrite length_insert. }
  split_and!; [done|by rewrite Hn3p|done..|].
  unfold linked_sum. rewrite Hlen. apply (sum_upto_change _ _ _ p); [done| |].
  - intros q _ Hq. unfold linked_freq. rewrite (Hn3q q Hq), HL.
    case_decide as Hd.
    + rewrite Hd.
      destruct (freqToFreqList_ s !! f') as [l0|]; cbn.
      * destruct (decide (q ∈ unlink p l0 ++ [p])) as [Hin|Hin];
          destruct (decide (q ∈ l0)) as [Hin0|Hin0]; [lia| | |lia].
        -- exfalso. apply elem_of_app in Hin as [Hin|Hin].
           ++ by apply elem_of_unlink in Hin as [? _].
           ++ by apply list_elem_of_singleton in Hin.
        -- exfalso. apply Hin, elem_of_app. left. by apply elem_of_unlink.
      * rewrite decide_False; [done|].
        intros Hin. by apply list_elem_of_singleton in Hin.
    + destruct (freqToFreqList_ s !! freq (node_at s q)) as [l0|]; cbn; [|done].
      destruct (decide (q ∈ unlink p l0)) as [Hin|Hin];
        destruct (decide (q ∈ l0)) as [Hin0|Hin0]; [lia| | |lia].
      * exfalso. by apply elem_of_unlink in Hin as [? _].
      * exfalso. apply Hin. by apply elem_of_unlink.
  - rewrite (linked_freq_own s p Hown). unfold linked_freq.
    rewrite Hn3p. cbn [freq]. rewrite HL, decide_True by done.
    case_decide; lia.
Qed.

(** A hit, up to the call of [addFreqNum]. *)
Lemma bumpFreq_counted s p N :
  LFUok s → in_own_list s p → freq_within N s →
  ∃ s', bumpFreq p s = Some s' ∧
    length (nodes s') = length (nodes s) ∧ freq_within (N + 1) s' ∧
    linked_sum s' ≤ linked_sum s + 1 ∧
    (minFreq_ s' = minFreq_ s ∨ minFreq_ s' ≤ N + 1) ∧
    curTotalNum_ s' = curTotalNum_ s ∧ curAverageNum_ s' = curAverageNum_ s.
Proof.
  intros Hok Hown Hw.
  pose proof (in_own_list_alloc s p Hok Hown) as Halloc.
  pose proof (Hw p Halloc) as Hfp.
  assert (1 ≤ freq (node_at s p) + 1) as Hpos' by lia.
  destruct (relink_counted s p (freq (node_at s p) + 1) Hok Hown Hpos')
    as (Hrem & Hlen & Hf3 & Hq3 & Hmin3 & Htot3 & Havg3 & Hsum3).
  cbv zeta in Hlen, Hf3, Hq3, Hmin3, Htot3, Havg3, Hsum3.
  set (s3 := addToFreqList p _) in *.
  assert (Hw3 : freq_within (N + 1) s3).
  { intros q Hq. destruct (decide (q = p)) as [->|Hne].
    - rewrite Hf3. lia.
    - rewrite Hq3 by done. rewrite Hlen in Hq. pose proof (Hw q Hq). lia. }
  destruct (bumpFreq_ok s p Hok Hown) as (s' & Hb & _).
  assert (bumpFreq p s =
    if decide (freq (node_at s3 p) - 1 = minFreq_ s3)
    then l ← freqToFreqList_ s3 !! (freq (node_at s3 p) - 1);
         Some (if isEmpty l then set_minFreq (minFreq_ s3 + 1) s3 else s3)
    else Some s3) as Hbeq.
  { unfold bumpFreq. rewrite Hrem. reflexivity. }
  rewrite Hb in Hbeq. exists s'. split; [done|].
  destruct (decide (freq (node_at s3 p) - 1 = minFreq_ s3)) as [Hd|Hd].
  - destruct (freqToFreqList_ s3 !! (freq (node_at s3 p) - 1)) as [l|]; [|done].
    cbn in Hbeq. destruct (isEmpty l); injection Hbeq as ->.
    + split_and!; [done|by apply (freq_within_ext _ s3)| |right|done|done].
      * rewrite (linked_sum_ext s3) by done. lia.
      * cbn. lia.
    + split_and!; [done|done|lia|by left|done|done].
  - injection Hbeq as ->. split_and!; [done|done|lia|by left|done|done].
Qed.

(** The aging of one node. *)
Lemma ageNode_counted s p N :
  LFUok s → in_own_list s p → 0 ≤ maxAverageNum_ s → freq_within N s →
  ∃ s', ageNode p s = Some s' ∧ LFUok s' ∧ lfu_frame s s' ∧
    minFreq_ s' = minFreq_ s ∧ curTotalNum_ s' = curTotalNum_ s ∧
    curAverageNum_ s' = curAverageNum_ s ∧
    freq_within N s' ∧ linked_sum s' ≤ linked_sum s.
Proof.
  intros Hok Hown HM Hw.
  pose proof (in_own_list_alloc s p Hok Hown) as Halloc.
  pose proof (Hw p Halloc) as Hfp.
  pose proof (Z.quot_pos (maxAverageNum_ s) 2 HM ltac:(lia)) as Hq2.
  assert (1 ≤ aged s (freq (node_at s p)) ≤ freq (node_at s p)) as Haged.
  { unfold aged. case_decide; lia. }
  destruct (ageNode_ok s p Hok Hown)
    as (s' & Hage & Hok' & Hfr' & Hmin' & Htot' & Havg' & Hf' & Hq').
  exists s'. split_and!; try done.
  - intros q Hq. destruct Hfr' as (_ & _ & _ & Hlen & _). rewrite Hlen in Hq.
    destruct (decide (q = p)) as [->|Hne].
    + rewrite Hf'. lia.
    + rewrite Hq' by done. by apply Hw.
  - destruct (relink_counted s p (aged s (freq (node_at s p))) Hok Hown
                (proj1 Haged)) as (Hrem & _ & _ & _ & _ & _ & _ & Hsum).
    cbv zeta in Hsum.
    assert (ageNode p s = Some (addToFreqList p
              (set_freq p (aged s (freq (node_at s p)))
                 (set_lists (unlink p <$> freqToFreqList_ s) s)))) as Heq.
    { unfold ageNode. rewrite Hrem. reflexivity. }
    rewrite Hage in Heq. injection Heq as ->. lia.
Qed.

Lemma age_fold_counted s N (m : gmap Key NodePtr) :
  LFUok s → 0 ≤ maxAverageNum_ s → freq_within N s → m ⊆ nodeMap_ s →
  ∃ s', map_fold (λ _ p acc, acc ≫= ageNode p) (Some s) m = Some s' ∧
    LFUok s' ∧ lfu_frame s s' ∧ minFreq_ s' = minFreq_ s ∧
    curTotalNum_ s' = curTotalNum_ s ∧ curAverageNum_ s' = curAverageNum_ s ∧
    freq_within N s' ∧ linked_sum s' ≤ linked_sum s.
Proof.
  intros Hok HM Hw. revert m.
  apply (map_fold_weak_ind (λ acc (m : gmap Key NodePtr),
    m ⊆ nodeMap_ s →
    ∃ s', acc = Some s' ∧ LFUok s' ∧ lfu_frame s s' ∧ minFreq_ s' = minFreq_ s ∧
      curTotalNum_ s' = curTotalNum_ s ∧ curAverageNum_ s' = curAverageNum_ s ∧
      freq_within N s' ∧ linked_sum s' ≤ linked_sum s)).
  - intros _. exists s.
    split_and!; first [done|apply lfu_frame_refl|lia].
  - intros k p m acc Hk IH Hsub.
    destruct IH as (s1 & -> & Hok1 & Hfr1 & Hmin1 & Htot1 & Havg1 & Hw1 & Hs1);
      [etrans; [|exact Hsub]; by apply insert_subseteq|].
    assert (nodeMap_ s !! k = Some p) as Hkp.
    { eapply lookup_weaken; [|exact Hsub]. apply lookup_insert_eq. }
    assert (in_own_list s1 p) as Hown.
    { apply (ok_cached _ Hok1 k). destruct Hfr1 as (-> & _). done. }
    assert (0 ≤ maxAverageNum_ s1) as HM1.
    { destruct Hfr1 as (_ & _ & -> & _). done. }
    destruct (ageNode_counted s1 p N Hok1 Hown HM1 Hw1)
      as (s2 & Hage & Hok2 & Hfr2 & Hmin2 & Htot2 & Havg2 & Hw2 & Hs2).
    exists s2. simpl.
    split_and!; try first [done|congruence|by eapply lfu_frame_trans|lia].
Qed.

Lemma handleOverMaxAverageNum_counted s N :
  LFUok s → 0 ≤ maxAverageNum_ s → freq_within N s →
  ∃ s', handleOverMaxAverageNum s = Some s' ∧ LFUok s' ∧ lfu_frame s s' ∧
    curTotalNum_ s' = curTotalNum_ s ∧ curAverageNum_ s' = curAverageNum_ s ∧
    freq_within N s' ∧ linked_sum s' ≤ linked_sum s ∧
    (minFreq_ s' = minFreq_ s ∨ minFreq_ s' ≤ INT8_MAX).
Proof.
  intros Hok HM Hw. unfold handleOverMaxAverageNum. case_decide as Hd.
  - exists s. split_and!; first [done|apply lfu_frame_refl|lia|by left].
  - destruct (age_fold_counted s N (nodeMap_ s) Hok HM Hw ltac:(done))
      as (s1 & -> & Hok1 & Hfr1 & Hmin1 & Htot1 & Havg1 & Hw1 & Hs1).
    cbn [mbind option_bind].
    destruct (updateMinFreq_ok s1 Hok1) as (Hok2 & Hfr2 & Htot2 & Havg2 & _).
    eexists. split; [done|].
    split_and!; [done|by eapply lfu_frame_trans|congruence|congruence| | |].
    + by apply (freq_within_ext _ s1).
    + by rewrite (linked_sum_ext s1) by done.
    + right. unfold updateMinFreq. cbn [minFreq_ set_minFreq].
      destruct (min_fold_spec (freqToFreqList_ s1)) as (_ & _ & Hle).
      cbv zeta in Hle. case_decide; [unfold INT8_MAX; lia|exact Hle].
Qed.

Lemma addFreqNum_counted s N :
  LFUok s → 0 ≤ maxAverageNum_ s → freq_within N s →
  ∃ s', addFreqNum s = Some s' ∧ LFUok s' ∧ lfu_frame s s' ∧
    curTotalNum_ s' = curTotalNum_ s + 1 ∧
    - 2 ^ 31 ≤ curAverageNum_ s' < 2 ^ 31 ∧
    freq_within N s' ∧ linked_sum s' ≤ linked_sum s ∧
    (minFreq_ s' = minFreq_ s ∨ minFreq_ s' ≤ INT8_MAX).
Proof.
  intros Hok HM Hw. unfold addFreqNum. cbv zeta.
  set (s1 := set_counters _ _ s).
  assert (LFUok s1) as Hok1.
  { apply (LFUok_ext s); try done. apply (ok_minFreq_pos _ Hok). }
  assert (lfu_frame s s1) as Hfr1 by (by apply lfu_frame_ext).
  assert (- 2 ^ 31 ≤ curAverageNum_ s1 < 2 ^ 31) as Havg1 by apply average_range.
  case_decide as Hd.
  - destruct (handleOverMaxAverageNum_counted s1 N Hok1 HM
                (freq_within_ext N s s1 eq_refl Hw))
      as (s2 & -> & Hok2 & Hfr2 & Htot2 & Havg2 & Hw2 & Hs2 & Hm2).
    rewrite (linked_sum_ext s s1) in Hs2 by done.
    exists s2. split; [done|]. split; [done|].
    split; [by eapply lfu_frame_trans|]. split; [exact Htot2|].
    split; [by rewrite Havg2|]. done.
  - exists s1. split; [done|]. split; [done|]. split; [done|].
    split; [done|]. split; [done|]. split; [done|].
    split; [by rewrite (linked_sum_ext s s1)|by left].
Qed.

Lemma getInternal_counted s p N :
  LFUok s → in_own_list s p → 0 ≤ maxAverageNum_ s → freq_within N s →
  ∃ v s', getInternal p s = Some (v, s') ∧
    length (nodes s') = length (nodes s) ∧ freq_within (N + 1) s' ∧
    linked_sum s' ≤ linked_sum s + 1 ∧
    curTotalNum_ s' = curTotalNum_ s + 1 ∧
    - 2 ^ 31 ≤ curAverageNum_ s' < 2 ^ 31 ∧
    (minFreq_ s' = minFreq_ s ∨ minFreq_ s' ≤ Z.max (N + 1) INT8_MAX).
Proof.
  intros Hok Hown HM Hw.
  destruct (bumpFreq_ok s p Hok Hown) as (s4 & Hb & Hok4 & Hfr4 & _).
  destruct (bumpFreq_counted s p N Hok Hown Hw)
    as (s4' & Hb' & Hlen4 & Hw4 & Hs4 & Hm4 & Htot4 & _).
  rewrite Hb in Hb'. injection Hb' as <-.
  assert (0 ≤ maxAverageNum_ s4) as HM4.
  { destruct Hfr4 as (_ & _ & -> & _). done. }
  destruct (addFreqNum_counted s4 (N + 1) Hok4 HM4 Hw4)
    as (s5 & Ha & _ & Hfr5 & Htot5 & Havg5 & Hw5 & Hs5 & Hm5).
  unfold getInternal. rewrite Hb. cbn [mbind option_bind].
  rewrite Ha. cbn [mbind option_bind]. eexists _, _. split; [done|].
  destruct Hfr5 as (_ & _ & _ & Hlen5 & _).
  split; [congruence|]. split; [done|]. split; [lia|]. split; [lia|].
  split; [done|].
  destruct Hm5 as [->|Hm5]; [|right; lia].
  destruct Hm4 as [->|Hm4]; [by left|right; lia].
Qed.

(** Unlinking a linked node takes its frequency out of the sum. *)
Lemma unlink_counted s p :
  in_own_list s p → (p < length (nodes s))%nat →
  linked_sum (set_lists (unlink p <$> freqToFreqList_ s) s)
  ≤ linked_sum s - freq (node_at s p).
Proof.
  intros Hown Halloc. unfold linked_sum.
  change (length (nodes (set_lists _ s))) with (length (nodes s)).
  replace (sum_upto (linked_freq s) (length (nodes s)) - freq (node_at s p))
    with (sum_upto (linked_freq s) (length (nodes s)) + (- freq (node_at s p)))
    by lia.
  apply (sum_upto_change _ _ _ p); [done| |].
  - intros q _ Hq. unfold linked_freq.
    change (node_at (set_lists _ s) q) with (node_at s q).
    cbn [freqToFreqList_ set_lists]. rewrite lookup_fmap.
    destruct (freqToFreqList_ s !! freq (node_at s q)) as [l0|]; cbn; [|done].
    destruct (decide (q ∈ unlink p l0)) as [Hin|Hin];
      destruct (decide (q ∈ l0)) as [Hin0|Hin0]; [lia| | |lia].
    + exfalso. by apply elem_of_unlink in Hin as [? _].
    + exfalso. apply Hin. by apply elem_of_unlink.
  - rewrite (linked_freq_own s p Hown). unfold linked_freq.
    change (node_at (set_lists _ s) p) with (node_at s p).
    cbn [freqToFreqList_ set_lists]. rewrite lookup_fmap.
    destruct (freqToFreqList_ s !! freq (node_at s p)) as [l0|]; cbn; [|lia].
    rewrite decide_False; [lia|]. intros Hin.
    by apply elem_of_unlink in Hin as [_ ?].
Qed.

Lemma kickOut_counted s N :
  LFUok s → is_Some (freqToFreqList_ s !! minFreq_ s) →
  is_Some (freqToFreqList_ s !! 1) → freq_within N s →
  ∃ s', kickOut s = Some s' ∧ nodes s' = nodes s ∧ minFreq_ s' = minFreq_ s ∧
    curTotalNum_ s' ≤ curTotalNum_ s ∧
    linked_sum s' - curTotalNum_ s' ≤ linked_sum s - curTotalNum_ s + 1 ∧
    - 2 ^ 31 ≤ curAverageNum_ s' < 2 ^ 31.
Proof.
  intros Hok [l Hl] H1' Hw. unfold kickOut. rewrite Hl. cbn [mbind option_bind].
  destruct l as [|p l']; cbn [getFirstNode head].
  - unfold removeFromFreqList_sentinel. cbn [freq Node_sentinel].
    destruct H1' as [l1 ->]. cbn [mbind option_bind].
    eexists. split; [reflexivity|].
    split; [done|]. split; [done|]. split; [cbn; lia|].
    split; [|apply average_range].
    rewrite (linked_sum_ext s) by done. cbn. lia.
  - assert (freq (node_at s p) = minFreq_ s) as Hfp.
    { eapply (ok_list_freq _ Hok); [exact Hl|by left]. }
    assert (in_own_list s p) as Hown.
    { exists (p :: l'). rewrite Hfp. split; [done|by left]. }
    pose proof (in_own_list_alloc s p Hok Hown) as Halloc.
    pose proof (Hw p Halloc) as Hpos.
    unfold removeFromFreqList. rewrite Hfp, Hl. cbn [mbind option_bind].
    set (s' := decreaseFreqNum _ _). exists s'. split; [reflexivity|].
    pose proof (unlink_counted s p Hown Halloc) as Hsum.
    assert (Ht : curTotalNum_ s' = curTotalNum_ s - freq (node_at s p))
      by reflexivity.
    assert (Hs : linked_sum s'
                 = linked_sum (set_lists (unlink p <$> freqToFreqList_ s) s))
      by (by apply linked_sum_ext).
    split; [done|]. split; [done|]. rewrite Ht, Hs.
    split; [lia|]. split; [lia|apply average_range].
Qed.

(** The allocation, indexing and linking steps of [putInternal]. *)
Lemma link_new_counted s k v N :
  0 ≤ N → freq_within N s →
  let n := length (nodes s) in
  let s4 := addToFreqList n
              (set_nodeMap (<[k := n]> (nodeMap_ s))
                 (set_nodes (nodes s ++ [Node_new k v]) s)) in
  length (nodes s4) = S (length (nodes s)) ∧ freq_within (N + 1) s4 ∧
  linked_sum s4 ≤ linked_sum s + 1 ∧
  minFreq_ s4 = minFreq_ s ∧ curTotalNum_ s4 = curTotalNum_ s ∧
  maxAverageNum_ s4 = maxAverageNum_ s.
Proof.
  intros HN Hw n s4.
  assert (Hnew : node_at s4 n = Node_new k v).
  { unfold node_at, s4, n. cbn. rewrite lookup_app_r, Nat.sub_diag by lia. done. }
  assert (Hold : ∀ q, (q < n)%nat → node_at s4 q = node_at s q).
  { intros q Hq. unfold node_at, s4. cbn. by rewrite lookup_app_l. }
  assert (Hlists : ∀ f, freqToFreqList_ s4 !! f =
            if decide (f = 1) then Some (default [] (freqToFreqList_ s !! 1) ++ [n])
            else freqToFreqList_ s !! f).
  { intros f. unfold s4, addToFreqList. cbn [freqToFreqList_ set_lists].
    change (node_at (set_nodeMap _ _) n) with (node_at s4 n). rewrite Hnew.
    cbn [freq Node_new set_nodeMap set_nodes freqToFreqList_].
    rewrite lookup_insert. destruct (decide (1 = f)) as [<-|];
      [by rewrite decide_True|by rewrite decide_False]. }
  assert (Hlen : length (nodes s4) = S n).
  { unfold s4, n. cbn. rewrite length_app. cbn. lia. }
  split; [done|]. split; [|split; [|done]].
  - intros q Hq. rewrite Hlen in Hq. destruct (decide (q = n)) as [->|Hne].
    + rewrite Hnew. cbn. lia.
    + rewrite Hold by lia. pose proof (Hw q ltac:(unfold n in *; lia)). lia.
  - unfold linked_sum. rewrite Hlen. cbn [sum_upto]. fold n.
    assert (sum_upto (linked_freq s4) n ≤ sum_upto (linked_freq s) n).
    { apply sum_upto_le. intros q Hq. unfold linked_freq.
      rewrite Hold by done. rewrite Hlists. case_decide as Hd; [|done].
      rewrite Hd. destruct (freqToFreqList_ s !! 1) as [l0|]; cbn.
      - destruct (decide (q ∈ l0 ++ [n])) as [Hin|Hin];
          destruct (decide (q ∈ l0)) as [Hin0|Hin0]; [lia| | |lia].
        + exfalso. apply elem_of_app in Hin as [Hin|Hin]; [done|].
          apply list_elem_of_singleton in Hin. lia.
        + exfalso. apply Hin, elem_of_app. by left.
      - rewrite decide_False; [done|].
        intros Hin. apply list_elem_of_singleton in Hin. lia. }
    assert (linked_freq s4 n ≤ 1); [|lia].
    unfold linked_freq. rewrite Hnew. cbn [freq Node_new].
    rewrite Hlists, decide_True by done. case_decide; lia.
Qed.

Lemma set_value_counted s p v :
  (∀ q, freq (node_at (set_value p v s) q) = freq (node_at s q)) ∧
  length (nodes (set_value p v s)) = length (nodes s) ∧
  linked_sum (set_value p v s) = linked_sum s.
Proof.
  assert (Hf : ∀ q, freq (node_at (set_value p v s) q) = freq (node_at s q)).
  { intros q. destruct (decide (q = p)) as [->|Hne].
    - destruct (decide (p < length (nodes s))%nat).
      + by rewrite node_at_set_value_eq.
      + unfold set_value, set_nodes, node_at. cbn. by rewrite list_insert_ge by lia.
    - by rewrite node_at_set_value_ne. }
  assert (Hlen : length (nodes (set_value p v s)) = length (nodes s)).
  { unfold set_value. cbn. by rewrite length_insert. }
  split; [done|]. split; [done|].
  unfold linked_sum. rewrite Hlen.
  assert (Hlf : ∀ q, linked_freq (set_value p v s) q = linked_freq s q).
  { intros q. unfold linked_freq. rewrite Hf. done. }
  apply Z.le_antisymm; apply sum_upto_le; intros q _; rewrite Hlf; lia.
Qed.

Lemma LFUcounted_mono N N' s : N ≤ N' → LFUcounted N s → LFUcounted N' s.
Proof.
  intros HN (Hlen & Hw & Htot & Hsum & Hmin & Havg). unfold LFUcounted.
  split; [lia|]. split; [by apply (freq_within_mono N)|]. split; [lia|].
  split; [done|]. split; [lia|done].
Qed.

Lemma putInternal_counted s k v N :
  LFUwf s → to_size_t (capacity_ s) ≠ 0 → 0 ≤ maxAverageNum_ s → 0 ≤ N →
  LFUcounted N s →
  ∃ s', putInternal k v s = Some s' ∧ LFUcounted (N + 1) s'.
Proof.
  intros [Hok Hlists] Hcap HM HN (Hlen & Hw & Htot & Hsum & Hmin & Havg).
  assert (∃ s1, (if decide (Z.of_nat (size (nodeMap_ s)) = to_size_t (capacity_ s))
                 then kickOut s else Some s) = Some s1 ∧ LFUok s1 ∧
            maxAverageNum_ s1 = maxAverageNum_ s ∧ nodes s1 = nodes s ∧
            curTotalNum_ s1 ≤ curTotalNum_ s ∧
            linked_sum s1 - curTotalNum_ s1 ≤ linked_sum s - curTotalNum_ s + 1)
    as (s1 & Hs1 & Hok1 & Hm1 & Hn1 & Htot1 & Hsum1).
  { case_decide as Hfull.
    - destruct Hlists as [Hmin' H1'].
      { intros Hempty. rewrite Hempty, map_size_empty in Hfull. by apply Hcap. }
      destruct (kickOut_ok s Hok Hmin' H1') as (s1 & kx & Hk & Hok1 & _ & _ & _ & ? & _).
      destruct (kickOut_counted s N Hok Hmin' H1' Hw)
        as (s1' & Hk' & ? & _ & ? & ? & _).
      rewrite Hk in Hk'. injection Hk' as <-. by exists s1.
    - exists s. split_and!; [done..|lia|lia]. }
  unfold putInternal. rewrite Hs1. cbn [mbind option_bind]. cbv zeta.
  destruct (link_new_ok s1 k v Hok1) as (Hok4 & _).
  assert (freq_within N s1) as Hw1 by (by apply (freq_within_ext N s)).
  destruct (link_new_counted s1 k v N HN Hw1)
    as (Hlen4 & Hw4 & Hsum4 & _ & Htot4 & Hm4).
  cbv zeta in Hok4, Hlen4, Hw4, Hsum4, Htot4, Hm4.
  set (s4 := addToFreqList (length (nodes s1)) _) in *.
  destruct (addFreqNum_counted s4 (N + 1) Hok4 ltac:(lia) Hw4)
    as (s5 & -> & Hok5 & Hfr5 & Htot5 & Havg5 & Hw5 & Hsum5 & _).
  cbn [mbind option_bind]. eexists. split; [reflexivity|].
  destruct Hfr5 as (_ & _ & _ & Hlen5 & _).
  assert (length (nodes s1) = length (nodes s)) as Hl1 by (by rewrite Hn1).
  unfold LFUcounted.
  change (nodes (set_minFreq _ s5)) with (nodes s5).
  change (curTotalNum_ (set_minFreq _ s5)) with (curTotalNum_ s5).
  change (curAverageNum_ (set_minFreq _ s5)) with (curAverageNum_ s5).
  change (minFreq_ (set_minFreq (Z.min (minFreq_ s5) 1) s5))
    with (Z.min (minFreq_ s5) 1).
  split; [lia|]. split; [by apply (freq_within_ext _ s5)|]. split; [lia|].
  split; [|split; [unfold INT8_MAX; lia|done]].
  rewrite (linked_sum_ext s5) by done. lia.
Qed.

Lemma put_counted s k v N :
  LFUwf s → - 2 ^ 31 ≤ capacity_ s < 2 ^ 31 → 0 ≤ maxAverageNum_ s → 0 ≤ N →
  LFUcounted N s →
  ∃ s', put k v s = Some s' ∧ LFUcounted (N + 1) s'.
Proof.
  intros Hwf Hrange HM HN Hcnt. unfold put. case_decide as Hz.
  - exists s. split; [done|]. apply (LFUcounted_mono N); [lia|done].
  - destruct (nodeMap_ s !! k) as [p|] eqn:Hkp.
    + destruct Hwf as [Hok _]. destruct Hcnt as (Hlen & Hw & Htot & Hsum & Hmin & Havg).
      pose proof (LFUok_set_value s p v Hok) as Hok1.
      assert (in_own_list (set_value p v s) p) as Hown1.
      { by apply (ok_cached _ Hok1 k). }
      destruct (set_value_counted s p v) as (Hf1 & Hlen1 & Hsum1).
      assert (freq_within N (set_value p v s)) as Hw1.
      { intros q Hq. rewrite Hf1. apply Hw. by rewrite <- Hlen1. }
      destruct (getInternal_counted (set_value p v s) p N Hok1 Hown1 HM Hw1)
        as (v' & s' & -> & Hlen' & Hw' & Hsum' & Htot' & Havg' & Hmin').
      cbn [mbind option_bind]. exists s'. split; [done|].
      change (curTotalNum_ (set_value p v s)) with (curTotalNum_ s) in Htot'.
      change (minFreq_ (set_value p v s)) with (minFreq_ s) in Hmin'.
      unfold LFUcounted. split; [lia|]. split; [done|]. split; [lia|].
      split; [lia|]. split; [|done]. destruct Hmin' as [->|?]; lia.
    + apply putInternal_counted; try done. by apply to_size_t_int_nonzero.
Qed.

Lemma exec_counted s o N :
  LFUwf s → - 2 ^ 31 ≤ capacity_ s < 2 ^ 31 → 0 ≤ maxAverageNum_ s → 0 ≤ N →
  LFUcounted N s →
  ∃ s', exec o s = Some s' ∧ LFUcounted (N + 1) s'.
Proof.
  intros Hwf Hrange HM HN Hcnt. destruct o as [k v|k|]; cbn [exec].
  - by apply put_counted.
  - unfold get, get_ref. destruct (nodeMap_ s !! k) as [p|] eqn:Hkp.
    + destruct Hwf as [Hok _]. destruct Hcnt as (Hlen & Hw & Htot & Hsum & Hmin & Havg).
      assert (in_own_list s p) as Hown by (by apply (ok_cached _ Hok k)).
      destruct (getInternal_counted s p N Hok Hown HM Hw)
        as (v' & s' & -> & Hlen' & Hw' & Hsum' & Htot' & Havg' & Hmin').
      cbn. exists s'. split; [done|].
      unfold LFUcounted. split; [lia|]. split; [done|]. split; [lia|].
      split; [lia|]. split; [|done]. destruct Hmin' as [->|?]; lia.
    + cbn. exists s. split; [done|]. apply (LFUcounted_mono N); [lia|done].
  - eexists. split; [done|].
    destruct Hcnt as (Hlen & Hw & Htot & Hsum & Hmin & Havg).
    pose proof (linked_sum_nonneg N s Hw) as Hpos.
    unfold LFUcounted.
    change (nodes (purge s)) with (nodes s).
    change (curTotalNum_ (purge s)) with (curTotalNum_ s).
    change (curAverageNum_ (purge s)) with (curAverageNum_ s).
    change (minFreq_ (purge s)) with (minFreq_ s).
    split; [lia|]. split; [apply (freq_within_mono N); [lia|done]|]. split; [lia|].
    split; [|split; [lia|done]].
    assert (linked_sum (purge s) ≤ 0); [|lia].
    unfold linked_sum. change (nodes (purge s)) with (nodes s).
    assert (sum_upto (linked_freq (purge s)) (length (nodes s))
            ≤ sum_upto (λ _, 0) (length (nodes s))) as Hle.
    { apply sum_upto_le. intros q _. unfold linked_freq.
      cbn [freqToFreqList_ purge set_lists set_nodeMap]. by rewrite lookup_empty. }
    assert (∀ n, sum_upto (λ _, 0) n = 0) as Hz.
    { induction n as [|n IH]; cbn; lia. }
    etrans; [exact Hle|]. by rewrite Hz.
Qed.

(** The counters after a workload: [LFUcounted] for the number of
    operations run so far. *)
Lemma run_counted ops : ∀ s N,
  LFUwf s → - 2 ^ 31 ≤ capacity_ s < 2 ^ 31 → 0 ≤ maxAverageNum_ s → 0 ≤ N →
  LFUcounted N s →
  ∃ s', run ops s = Some s' ∧ LFUwf s' ∧
    capacity_ s' = capacity_ s ∧ maxAverageNum_ s' = maxAverageNum_ s ∧
    LFUcounted (N + Z.of_nat (length ops)) s'.
Proof.
  induction ops as [|o ops IH]; intros s N Hwf Hrange HM HN Hcnt; cbn [run].
  - exists s. split_and!; [done..|]. cbn. by rewrite Z.add_0_r.
  - destruct (exec_ok s o Hwf Hrange) as (s1 & He & Hwf1 & Hc1 & Hm1).
    destruct (exec_counted s o N Hwf Hrange HM HN Hcnt) as (s1' & He' & Hcnt1).
    rewrite He in He'. injection He' as <-. rewrite He.
    cbn [mbind option_bind].
    destruct (IH s1 (N + 1) Hwf1 ltac:(by rewrite Hc1) ltac:(by rewrite Hm1)
                ltac:(lia) Hcnt1) as (s2 & -> & ? & ? & ? & Hcnt2).
    exists s2. split_and!; [done|done|congruence|congruence|].
    cbn [length].
    replace (N + Z.of_nat (S (length ops))) with (N + 1 + Z.of_nat (length ops))
      by lia.
    done.
Qed.

Lemma LFUcounted_new C M :
  LFUcounted 0 (LFUCache_new (Key:=Key) (Value:=Value) C M).
Proof.
  unfold LFUcounted. cbn. split; [lia|]. split; [intros p Hp; cbn in Hp; lia|].
  split; [lia|]. split; [done|]. split; [unfold INT8_MAX; lia|lia].
Qed.

(** X13. Every workload of fewer than [2^31] operations [put], [get] and
    [purge] on an [LFUCache] whose capacity is any [int] and whose
    [maxAverageNum] is an [int] that is not negative completes: no call
    dereferences the null pointer of a list that was never created.  No
    counter leaves the range of [int]: with [n] the number of operations,
    [curTotalNum_] lies between [-n] and [n], [minFreq_] between 1 and the
    larger of [n] and [INT8_MAX], [curAverageNum_] is an [int], and every
    cached key has a frequency between 1 and [n].  Every cached key is
    linked in the list of its frequency. *)
Theorem LFU_workload_keeps_entries_linked (C M : Z)
    (ops : list (op (Key:=Key) (Value:=Value))) :
  - 2 ^ 31 ≤ C < 2 ^ 31 → 0 ≤ M < 2 ^ 31 → Z.of_nat (length ops) < 2 ^ 31 →
  ∃ s, run ops (LFUCache_new C M) = Some s ∧
    - Z.of_nat (length ops) ≤ curTotalNum_ s ≤ Z.of_nat (length ops) ∧
    1 ≤ minFreq_ s ≤ Z.max (Z.of_nat (length ops)) INT8_MAX ∧
    - 2 ^ 31 ≤ curAverageNum_ s < 2 ^ 31 ∧
    ∀ k f, freq_of s k = Some f →
      1 ≤ f ≤ Z.of_nat (length ops) ∧ k ∈ bucket_keys s f.
Proof.
  intros HC HM Hlen.
  destruct (run_counted ops (LFUCache_new C M) 0 (LFUwf_new C M) HC
              ltac:(cbn; lia) ltac:(lia) (LFUcounted_new C M))
    as (s & Hrun & [Hok _] & _ & _ & Hcnt).
  rewrite Z.add_0_l in Hcnt.
  destruct Hcnt as (Hn & Hw & Htot & Hsum & Hmin & Havg).
  pose proof (linked_sum_nonneg _ s Hw) as Hpos.
  exists s. split; [done|]. split; [lia|].
  split; [split; [apply (ok_minFreq_pos _ Hok)|done]|]. split; [done|].
  intros k f. unfold freq_of, bucket_keys.
  destruct (nodeMap_ s !! k) as [p|] eqn:Hkp; [|done]. cbn. intros [= <-].
  pose proof (ok_cached _ Hok k p Hkp) as Hown.
  pose proof (Hw p (in_own_list_alloc s p Hok Hown)) as Hf.
  destruct Hown as (l & Hl & Hp). split; [done|].
  rewrite Hl. cbn. apply list_elem_of_fmap. exists p.
  split; [|done]. symmetry. by apply (ok_key _ Hok).
Qed.

(** [addFreqNum] ages the cached entries exactly when the average of the
    incremented total exceeds [maxAverageNum_]. *)
Lemma addFreqNum_aging s :
  LFUok s →
  ∃ s', addFreqNum s = Some s' ∧ LFUok s' ∧ lfu_frame s s' ∧
    curTotalNum_ s' = curTotalNum_ s + 1 ∧
    curAverageNum_ s' = average s (curTotalNum_ s + 1) ∧
    ∀ k p, nodeMap_ s !! k = Some p →
      freq (node_at s' p) =
        if decide (average s (curTotalNum_ s + 1) > maxAverageNum_ s)
        then aged s (freq (node_at s p)) else freq (node_at s p).
Proof.
  intros Hok.
  destruct (addFreqNum_ok s Hok) as (s' & Ha & Hok' & Hfr' & Htot' & Havg' & _).
  exists s'. split_and!; [done..|]. intros k p Hkp.
  revert Ha. unfold addFreqNum. cbv zeta.
  set (s1 := set_counters _ _ s).
  change (curAverageNum_ s1) with (average s (curTotalNum_ s + 1)).
  change (maxAverageNum_ s1) with (maxAverageNum_ s).
  assert (LFUok s1) as Hok1.
  { apply (LFUok_ext s); try done. apply (ok_minFreq_pos _ Hok). }
  case_decide as Hd.
  - destruct (handleOverMaxAverageNum_ok s1 Hok1)
      as (s2 & -> & _ & _ & _ & _ & _ & Hfreq).
    intros [= <-]. by apply (Hfreq k).
  - by intros [= <-].
Qed.

(** C10. In every state reached by a workload of fewer than [2^31 - 2]
    operations on an [LFUCache] whose capacity is a non-zero [int] and
    whose [maxAverageNum] is an [int] that is not negative: [purge]
    empties the key index and the map of frequency lists and leaves
    [curTotalNum_], [curAverageNum_], [minFreq_], [maxAverageNum_] and
    [capacity_] as they were; every [get] then misses and changes
    nothing.  The retained total, an [int] of absolute value at most the
    number of operations, goes on deciding the age-down once the cache
    is repopulated: the [put(k, v)] that follows counts on from it and
    enters [k] with frequency 1, and the first [get(k)] afterwards hits
    and computes the average [curTotalNum_ + 2] over the single entry.
    When this exceeds [maxAverageNum_] the age-down runs and, for a
    [maxAverageNum_] of at least 2, takes the increment back: [k] stays
    at frequency 1.  Otherwise [k] reaches frequency 2, as it does in a
    cache that was never used. *)
Theorem LFU_purge_keeps_aging_state (C M : Z)
    (ops : list (op (Key:=Key) (Value:=Value))) (k : Key) (v d : Value) :
  - 2 ^ 31 ≤ C < 2 ^ 31 → C ≠ 0 → 0 ≤ M < 2 ^ 31 →
  Z.of_nat (length ops) < 2 ^ 31 - 2 →
  ∃ s, run ops (LFUCache_new C M) = Some s ∧
    nodeMap_ (purge s) = ∅ ∧ freqToFreqList_ (purge s) = ∅ ∧
    curTotalNum_ (purge s) = curTotalNum_ s ∧
    curAverageNum_ (purge s) = curAverageNum_ s ∧
    minFreq_ (purge s) = minFreq_ s ∧
    maxAverageNum_ (purge s) = maxAverageNum_ s ∧
    capacity_ (purge s) = capacity_ s ∧
    get_ref k d (purge s) = Some (false, d, purge s) ∧
    - Z.of_nat (length ops) ≤ curTotalNum_ s ≤ Z.of_nat (length ops) ∧
    ∃ s1 s2, put k v (purge s) = Some s1 ∧
      curTotalNum_ s1 = curTotalNum_ s + 1 ∧
      freq_of s1 k = Some 1 ∧
      get_ref k d s1 = Some (true, v, s2) ∧
      curTotalNum_ s2 = curTotalNum_ s + 2 ∧
      curAverageNum_ s2 = curTotalNum_ s + 2 ∧
      freq_of s2 k
      = Some (if decide (2 ≤ M ∧ M < curTotalNum_ s + 2) then 1 else 2).
Proof.
  intros HC Hne HM Hlen.
  destruct (run_counted ops (LFUCache_new C M) 0 (LFUwf_new C M) HC
              ltac:(cbn; lia) ltac:(lia) (LFUcounted_new C M))
    as (s & Hrun & Hwf & Hc & Hm & Hcnt).
  cbn in Hc, Hm. rewrite Z.add_0_l in Hcnt.
  destruct Hcnt as (Hn & Hw & Htot & Hsum & _ & _).
  pose proof (linked_sum_nonneg _ s Hw) as Hpos.
  exists s. split; [done|]. do 8 (split; [done|]). split; [lia|].
  pose proof (LFUwf_purge s Hwf) as [Hokp Hlp].
  set (ps := purge s) in *. set (T := curTotalNum_ s) in *.
  set (n := length (nodes ps)).
  assert (Hq0 : 0 ≤ M `quot` 2) by (apply Z.quot_pos; lia).
  assert (Hq2 : 2 ≤ M → 1 ≤ M `quot` 2).
  { intros HM2. change 1 with (2 `quot` 2). apply Z.quot_le_mono; lia. }
  assert (Hq1 : M < 2 → M `quot` 2 = 0).
  { intros HM2. apply Z.quot_small. lia. }
  (* the put *)
  assert (Hsz : to_size_t (capacity_ ps) ≠ 0).
  { apply to_size_t_int_nonzero; cbn; rewrite Hc; done. }
  destruct (link_new_ok ps k v Hokp) as (Hok4 & Hnew4 & H14 & Hmap4 & Hc4 & Hm4).
  cbv zeta in Hok4, Hnew4, H14, Hmap4, Hc4, Hm4. fold n in Hok4, Hnew4, H14, Hmap4, Hc4, Hm4.
  set (s4 := addToFreqList n _) in *.
  assert (Hmap4' : nodeMap_ s4 = {[k := n]}) by (by rewrite Hmap4).
  destruct (addFreqNum_aging s4 Hok4)
    as (s5 & Ha5 & Hok5 & Hfr5 & Htot5 & Havg5 & Hfreq5).
  destruct Hfr5 as (Hmap5 & Hc5 & Hm5 & Hlen5 & Hkv5 & Hdom5).
  assert (Hput : put k v ps
            = Some (set_minFreq (Z.min (minFreq_ s5) 1) s5)).
  { unfold put. rewrite decide_False by (cbn; lia).
    change (nodeMap_ ps) with (∅ : gmap Key NodePtr). rewrite lookup_empty.
    unfold putInternal. change (nodeMap_ ps) with (∅ : gmap Key NodePtr).
    rewrite map_size_empty. rewrite decide_False by (intros Hz; by apply Hsz).
    cbn [mbind option_bind]. cbv zeta.
    match goal with |- context [addFreqNum ?x] => change x with s4 end.
    rewrite Ha5. done. }
  set (s1 := set_minFreq (Z.min (minFreq_ s5) 1) s5) in *.
  assert (HM1 : maxAverageNum_ s1 = M).
  { change (maxAverageNum_ s1) with (maxAverageNum_ s5).
    rewrite Hm5, Hm4. change (maxAverageNum_ ps) with (maxAverageNum_ s). done. }
  assert (Hk1 : nodeMap_ s1 = {[k := n]}).
  { change (nodeMap_ s1) with (nodeMap_ s5). by rewrite Hmap5. }
  assert (Hf1 : freq (node_at s1 n) = 1).
  { change (node_at s1 n) with (node_at s5 n).
    rewrite (Hfreq5 k n) by (by rewrite Hmap4', lookup_singleton_eq).
    rewrite Hnew4. cbn [freq Node_new].
    destruct (decide (average s4 (curTotalNum_ s4 + 1) > maxAverageNum_ s4));
      [|done].
    unfold aged. rewrite Hm4. change (maxAverageNum_ ps) with (maxAverageNum_ s).
    rewrite Hm. destruct (decide (1 - M `quot` 2 < 1)); lia. }
  assert (Hv1 : value (node_at s1 n) = v).
  { change (node_at s1 n) with (node_at s5 n).
    destruct (Hkv5 n) as [_ ->]. by rewrite Hnew4. }
  assert (Ht1 : curTotalNum_ s1 = T + 1).
  { change (curTotalNum_ s1) with (curTotalNum_ s5). by rewrite Htot5. }
  assert (Hwf1 : LFUwf s1).
  { destruct (put_ok ps k v (LFUwf_purge s Hwf) ltac:(cbn; lia) ltac:(cbn; lia))
      as (s1' & p & Hput' & ? & _). rewrite Hput in Hput'. by injection Hput' as <-. }
  destruct Hwf1 as [Hok1 _].
  (* the get *)
  assert (Hown1 : in_own_list s1 n).
  { apply (ok_cached _ Hok1 k). by rewrite Hk1, lookup_singleton_eq. }
  destruct (bumpFreq_ok s1 n Hok1 Hown1)
    as (s6 & Hb6 & Hok6 & Hfr6 & Hf6 & _ & Htot6 & _).
  destruct Hfr6 as (Hmap6 & _ & Hm6 & _ & Hkv6 & _).
  destruct (addFreqNum_aging s6 Hok6)
    as (s7 & Ha7 & Hok7 & Hfr7 & Htot7 & Havg7 & Hfreq7).
  destruct Hfr7 as (Hmap7 & _ & _ & _ & Hkv7 & _).
  assert (Havg : average s6 (curTotalNum_ s6 + 1) = T + 2).
  { unfold average. rewrite Hmap6, Hk1.
    rewrite decide_False by apply (insert_non_empty (M:=gmap Key)).
    rewrite map_size_singleton, Htot6, Ht1.
    replace (T + 1 + 1) with (T + 2) by lia.
    apply to_int_to_size_t. lia. }
  assert (Hget : get_ref k d s1 = Some (true, v, s7)).
  { unfold get_ref. rewrite Hk1, lookup_singleton_eq. unfold getInternal.
    rewrite Hb6. cbn [mbind option_bind]. rewrite Ha7. cbn [mbind option_bind].
    by rewrite Hv1. }
  exists s1, s7. split; [done|]. split; [done|].
  split; [unfold freq_of; rewrite Hk1, lookup_singleton_eq;
          cbn [mbind option_bind]; by rewrite Hf1|].
  split; [done|]. split; [lia|]. split; [by rewrite Havg7|].
  unfold freq_of. rewrite Hmap7, Hmap6, Hk1, lookup_singleton_eq.
  cbn [mbind option_bind]. f_equal.
  rewrite (Hfreq7 k n) by (by rewrite Hmap6, Hk1, lookup_singleton_eq).
  rewrite Havg, Hf6, Hf1, Hm6, HM1. unfold aged. rewrite Hm6, HM1.
  destruct (decide (T + 2 > M)) as [Hgt|Hgt];
    destruct (decide (2 ≤ M ∧ M < T + 2)) as [[HM2 Hlt]|Hno].
  - specialize (Hq2 HM2). destruct (decide (1 + 1 - M `quot` 2 < 1)); lia.
  - assert (M < 2) as HM2 by (destruct (decide (2 ≤ M)); [exfalso; apply Hno|]; lia).
    rewrite (Hq1 HM2). destruct (decide (1 + 1 - 0 < 1)); lia.
  - lia.
  - done.
Qed.
End LFUCounters.


(* ================================================================== *)
(** * Instances of the workload theorems *)

Local Open Scope string_scope.
Local Open Scope Z_scope.

Lemma LRU_refines_recency_list_witness :
  - 2 ^ 31 ≤ 2 < 2 ^ 31 ∧
  ∃ s, LRU.serve_all
         [LRU.ReqPut "A" 1; LRU.ReqPut "B" 2; LRU.ReqGet "A"; LRU.ReqPut "C" 3;
          LRU.ReqRemove "A"; LRU.ReqGet "B"]
         (LRU.LRUCache_new 2)
       = Some (s, (LRU.model_serve_all 2
                     [LRU.ReqPut "A" 1; LRU.ReqPut "B" 2; LRU.ReqGet "A";
                      LRU.ReqPut "C" 3; LRU.ReqRemove "A"; LRU.ReqGet "B"] []).2) ∧
    LRU.entries s
      = (LRU.model_serve_all 2
           [LRU.ReqPut "A" 1; LRU.ReqPut "B" 2; LRU.ReqGet "A"; LRU.ReqPut "C" 3;
            LRU.ReqRemove "A"; LRU.ReqGet "B"] []).1 ∧
    size (LRU.nodeMap_ s) = length (LRU.entries s) ∧
    ∀ k, (λ p, LRU.value_ (LRU.node_at s p)) <$> LRU.nodeMap_ s !! k
         = LRU.model_lookup k (LRU.entries s).
Proof.
  split; [lia|].
  apply (LRU_refines_recency_list (Key:=string) (Value:=Z) 2
           [LRU.ReqPut "A" 1; LRU.ReqPut "B" 2; LRU.ReqGet "A"; LRU.ReqPut "C" 3;
            LRU.ReqRemove "A"; LRU.ReqGet "B"]).
  lia.
Defined.

Lemma LRU_get_returns_last_written_witness :
  - 2 ^ 31 ≤ 1 < 2 ^ 31 ∧
  ∃ s outs,
    LRU.serve_all [LRU.ReqPut "A" 1; LRU.ReqPut "A" 2; LRU.ReqPut "B" 3;
                   LRU.ReqRemove "B"; LRU.ReqPut "C" 4]
      (LRU.LRUCache_new 1) = Some (s, outs) ∧
    Z.of_nat (size (LRU.nodeMap_ s)) ≤ Z.max 1 0 ∧
    ∀ k d v, (LRU.get_ref k d s).1 = (true, v) →
      LRU.written [LRU.ReqPut "A" 1; LRU.ReqPut "A" 2; LRU.ReqPut "B" 3;
                   LRU.ReqRemove "B"; LRU.ReqPut "C" 4] !! k = Some v.
Proof.
  split; [lia|].
  apply (LRU_get_returns_last_written (Key:=string) (Value:=Z) 1
           [LRU.ReqPut "A" 1; LRU.ReqPut "A" 2; LRU.ReqPut "B" 3;
            LRU.ReqRemove "B"; LRU.ReqPut "C" 4]).
  lia.
Defined.

Lemma LRUK_capacity_bounds_witness :
  - 2 ^ 31 ≤ 1 < 2 ^ 31 ∧ - 2 ^ 31 ≤ 2 < 2 ^ 31 ∧
  ∃ s, LRUK.run [LRUK.Put "A" "x"; LRUK.Put "A" "x"; LRUK.Get "B"; LRUK.Get "C";
                 LRUK.Put "B" "y"]
         (LRUK.LRUKCache_new 1 2 2) = Some s ∧
    Z.of_nat (size (LRU.nodeMap_ (LRUK.base s))) ≤ Z.max 1 0 ∧
    Z.of_nat (size (LRU.nodeMap_ (LRUK.historyList_ s))) ≤ Z.max 2 0.
Proof.
  split; [lia|]. split; [lia|].
  apply (LRUK_capacity_bounds (Key:=string) 1 2 2
           [LRUK.Put "A" "x"; LRUK.Put "A" "x"; LRUK.Get "B"; LRUK.Get "C";
            LRUK.Put "B" "y"]); lia.
Defined.

Lemma LRUK_get_only_reads_main_witness :
  - 2 ^ 31 ≤ 2 < 2 ^ 31 ∧ - 2 ^ 31 ≤ 2 < 2 ^ 31 ∧
  ∃ s s', LRUK.run [LRUK.Put "A" "x"; LRUK.Get "A"] (LRUK.LRUKCache_new 2 2 3) = Some s ∧
    LRUK.get "A" s = Some (default EmptyString (LRUK.main_value "A" s), s') ∧
    LRU.nodeMap_ (LRUK.base s') = LRU.nodeMap_ (LRUK.base s) ∧
    LRU.nodes (LRUK.base s') = LRU.nodes (LRUK.base s) ∧
    LRUK.main_value "A" s' = LRUK.main_value "A" s.
Proof.
  split; [lia|]. split; [lia|].
  apply (LRUK_get_only_reads_main (Key:=string) 2 2 3
           [LRUK.Put "A" "x"; LRUK.Get "A"] "A"); lia.
Defined.

Lemma LRUK_without_history_admits_nothing_witness :
  0 ≤ 0 ∧ 2 ≤ 2 ∧
  LRUK.run [LRUK.Put "A" "x"; LRUK.Put "A" "x"; LRUK.Get "A"; LRUK.Put "A" "x"]
    (LRUK.LRUKCache_new 4 0 2) = Some (LRUK.LRUKCache_new 4 0 2) ∧
  LRUK.get "A" (LRUK.LRUKCache_new 4 0 2) = Some (EmptyString, LRUK.LRUKCache_new 4 0 2).
Proof.
  split; [lia|]. split; [lia|].
  apply (LRUK_without_history_admits_nothing (Key:=string) 4 0 2
           [LRUK.Put "A" "x"; LRUK.Put "A" "x"; LRUK.Get "A"; LRUK.Put "A" "x"] "A");
    lia.
Defined.

Lemma LRUK_put_overwrites_cached_value_witness :
  - 2 ^ 31 ≤ 2 < 2 ^ 31 ∧ - 2 ^ 31 ≤ 2 < 2 ^ 31 ∧
  LRUK.run [LRUK.Put "A" "x"; LRUK.Put "A" "x"] (LRUK.LRUKCache_new 2 2 2)
    ≫= LRUK.main_value "A" = Some "x" ∧
  "x" ≠ EmptyString ∧
  ∃ s s', LRUK.run [LRUK.Put "A" "x"; LRUK.Put "A" "x"] (LRUK.LRUKCache_new 2 2 2)
          = Some s ∧
    LRUK.put "A" "y" s = Some s' ∧ LRUK.main_value "A" s' = Some "y".
Proof.
  split; [lia|]. split; [lia|]. split; [vm_compute; reflexivity|].
  split; [discriminate|].
  apply (LRUK_put_overwrites_cached_value (Key:=string) 2 2 2
           [LRUK.Put "A" "x"; LRUK.Put "A" "x"] "A" "y" "x");
    [lia|lia|vm_compute; reflexivity|discriminate].
Defined.

Lemma LRUK_put_skips_key_cached_with_empty_value_witness :
  - 2 ^ 31 ≤ 2 < 2 ^ 31 ∧ - 2 ^ 31 ≤ 2 < 2 ^ 31 ∧
  LRUK.run [LRUK.Put "A" ""; LRUK.Put "A" ""] (LRUK.LRUKCache_new 2 2 2)
    ≫= LRUK.main_value "A" = Some EmptyString ∧
  (s ← LRUK.run [LRUK.Put "A" ""; LRUK.Put "A" ""] (LRUK.LRUKCache_new 2 2 2);
   fst <$> LRUK.bumpHistory "A" (LRUK.historyList_ s)) = Some 1 ∧
  1 < 2 ∧
  ∃ s s', LRUK.run [LRUK.Put "A" ""; LRUK.Put "A" ""] (LRUK.LRUKCache_new 2 2 2)
          = Some s ∧
    LRUK.put "A" "y" s = Some s' ∧ LRUK.main_value "A" s' = Some EmptyString.
Proof.
  split; [lia|]. split; [lia|]. split; [vm_compute; reflexivity|].
  split; [vm_compute; reflexivity|]. split; [lia|].
  apply (LRUK_put_skips_key_cached_with_empty_value (Key:=string) 2 2 2
           [LRUK.Put "A" ""; LRUK.Put "A" ""] "A" "y" 1);
    [lia|lia|vm_compute; reflexivity|vm_compute; reflexivity|lia].
Defined.

Lemma HashLRU_put_then_get_hits_witness :
  0 < 3 < 2 ^ 31 ∧ 1 ≤ 10 < 2 ^ 31 ∧
  ∃ s0 s s1 s2,
    HashLRU.HashLRUCaches_new 8 10 3 = Some s0 ∧
    HashLRU.run (λ k : Z, k) [HashLRU.Put 1 10; HashLRU.Put 4 40; HashLRU.Get 1] s0
      = Some s ∧
    HashLRU.put (λ k : Z, k) 7 70 s = Some s1 ∧
    HashLRU.get_ref (λ k : Z, k) 7 0 s1 = Some (true, 70, s2).
Proof.
  split; [lia|]. split; [lia|].
  apply (HashLRU_put_then_get_hits (Key:=Z) (Value:=Z) (λ k : Z, k) 8 10 3
           [HashLRU.Put 1 10; HashLRU.Put 4 40; HashLRU.Get 1] 7 70 0); lia.
Defined.

Lemma HashLRU_other_slices_untouched_witness :
  0 < 2 < 2 ^ 31 ∧ 0 ≤ 2 < 2 ^ 31 ∧
  HashLRU.Hash (λ k : Z, k) 2 `mod` 2 ≠ HashLRU.Hash (λ k : Z, k) 1 `mod` 2 ∧
  ∃ s0 s s1 r s2,
    HashLRU.HashLRUCaches_new 8 2 2 = Some s0 ∧
    HashLRU.run (λ k : Z, k) [HashLRU.Put 1 10; HashLRU.Put 0 5] s0 = Some s ∧
    HashLRU.put (λ k : Z, k) 2 20 s = Some s1 ∧
    (λ r, r.1) <$> HashLRU.get_ref (λ k : Z, k) 1 0 s1
      = (λ r, r.1) <$> HashLRU.get_ref (λ k : Z, k) 1 0 s ∧
    HashLRU.get_ref (λ k : Z, k) 2 0 s = Some (r, s2) ∧
    (λ r, r.1) <$> HashLRU.get_ref (λ k : Z, k) 1 0 s2
      = (λ r, r.1) <$> HashLRU.get_ref (λ k : Z, k) 1 0 s.
Proof.
  split; [lia|]. split; [lia|]. split; [by vm_compute|].
  apply (HashLRU_other_slices_untouched (Key:=Z) (Value:=Z) (λ k : Z, k) 8 2 2
           [HashLRU.Put 1 10; HashLRU.Put 0 5] 2 1 20 0); [lia|lia|by vm_compute].
Defined.

Lemma HashLRU_total_size_bound_witness :
  0 < 3 < 2 ^ 31 ∧ 0 ≤ 10 < 2 ^ 31 ∧
  ∃ s0 s,
    HashLRU.HashLRUCaches_new 8 10 3 = Some s0 ∧
    HashLRU.run (λ k : Z, k) [HashLRU.Put 1 10; HashLRU.Put 4 40; HashLRU.Get 1] s0
      = Some s ∧
    Forall (λ c, Z.of_nat (size (LRU.nodeMap_ c)) ≤ slice_size 10 3)
      (HashLRU.LRUSliceCaches_ s) ∧
    Z.of_nat (HashLRU.total_size s) ≤ 3 * slice_size 10 3 ∧
    (10 `mod` 3 = 0 → 3 * slice_size 10 3 = 10) ∧
    (10 `mod` 3 ≠ 0 → 10 < 3 * slice_size 10 3).
Proof.
  split; [lia|]. split; [lia|].
  apply (HashLRU_total_size_bound (Key:=Z) (Value:=Z) (λ k : Z, k) 8 10 3
           [HashLRU.Put 1 10; HashLRU.Put 4 40; HashLRU.Get 1]); lia.
Defined.

Lemma HashLFU_put_then_get_hits_witness :
  0 < 3 < 2 ^ 31 ∧ 1 ≤ 10 < 2 ^ 31 ∧
  ∃ s0 s s1 s2,
    HashLFU.HashLRUCache_new 8 10 3 10 = Some s0 ∧
    HashLFU.run (λ k : Z, k) [HashLFU.Put 1 10; HashLFU.Put 4 40; HashLFU.Get 1] s0
      = Some s ∧
    HashLFU.put (λ k : Z, k) 7 70 s = Some s1 ∧
    HashLFU.get_ref (λ k : Z, k) 7 0 s1 = Some (true, 70, s2).
Proof.
  split; [lia|]. split; [lia|].
  apply (HashLFU_put_then_get_hits (Key:=Z) (Value:=Z) (λ k : Z, k) 8 10 3 10
           [HashLFU.Put 1 10; HashLFU.Put 4 40; HashLFU.Get 1] 7 70 0); lia.
Defined.

Lemma ARCLRU_put_then_get_witness :
  ARC.capacity_ (ARC.lru_run [ARC.LruPut "A" 1; ARC.LruPut "B" 2; ARC.LruGet "A";
                              ARC.LruCheckGhost "A"; ARC.LruDecreaseCapacity]
                   (ARC.ARCLRUPart_new 2 2 5)) ≠ 0 ∧
  ∃ s c s1 s2,
    s = ARC.lru_run [ARC.LruPut "A" 1; ARC.LruPut "B" 2; ARC.LruGet "A";
                     ARC.LruCheckGhost "A"; ARC.LruDecreaseCapacity]
          (ARC.ARCLRUPart_new 2 2 5) ∧
    c = match ARC.mainCache_ s !! "B" with
        | Some p => ARC.accessCount_ (ARC.node_at s p)
        | None => 1
        end ∧
    ARC.lru_put "B" 7 s = (true, s1) ∧
    ARC.lru_get "B" 0 false s1 = (true, 7, bool_decide (2 ≤ ARC.size_t_succ c), s2) ∧
    (∃ p, ARC.mainCache_ s2 !! "B" = Some p ∧
          ARC.accessCount_ (ARC.node_at s2 p) = ARC.size_t_succ c).
Proof.
  split; [by vm_compute|].
  apply (ARCLRU_put_then_get (Key:=string) (Value:=Z) 2 2 5
           [ARC.LruPut "A" 1; ARC.LruPut "B" 2; ARC.LruGet "A";
            ARC.LruCheckGhost "A"; ARC.LruDecreaseCapacity] "B" 7 0 false).
  by vm_compute.
Defined.

Lemma LFU_workload_keeps_entries_linked_witness :
  - 2 ^ 31 ≤ 2 < 2 ^ 31 ∧ 0 ≤ 3 < 2 ^ 31 ∧
  Z.of_nat (length [LFU.Put "A" 1; LFU.Get "A"; LFU.Put "B" 2; LFU.Put "C" 3;
                    LFU.Purge; LFU.Put "A" 4]) < 2 ^ 31 ∧
  ∃ s, LFU.run [LFU.Put "A" 1; LFU.Get "A"; LFU.Put "B" 2; LFU.Put "C" 3; LFU.Purge;
                LFU.Put "A" 4]
         (LFU.LFUCache_new 2 3) = Some s ∧
    - Z.of_nat (length [LFU.Put "A" 1; LFU.Get "A"; LFU.Put "B" 2; LFU.Put "C" 3;
                        LFU.Purge; LFU.Put "A" 4])
      ≤ LFU.curTotalNum_ s
      ≤ Z.of_nat (length [LFU.Put "A" 1; LFU.Get "A"; LFU.Put "B" 2; LFU.Put "C" 3;
                          LFU.Purge; LFU.Put "A" 4]) ∧
    1 ≤ LFU.minFreq_ s
      ≤ Z.max (Z.of_nat (length [LFU.Put "A" 1; LFU.Get "A"; LFU.Put "B" 2;
                                 LFU.Put "C" 3; LFU.Purge; LFU.Put "A" 4]))
              INT8_MAX ∧
    - 2 ^ 31 ≤ LFU.curAverageNum_ s < 2 ^ 31 ∧
    ∀ k f, LFU.freq_of s k = Some f →
      1 ≤ f ≤ Z.of_nat (length [LFU.Put "A" 1; LFU.Get "A"; LFU.Put "B" 2;
                                LFU.Put "C" 3; LFU.Purge; LFU.Put "A" 4]) ∧
      k ∈ LFU.bucket_keys s f.
Proof.
  split; [lia|]. split; [lia|]. split; [vm_compute; reflexivity|].
  apply (LFU_workload_keeps_entries_linked (Key:=string) (Value:=Z) 2 3
           [LFU.Put "A" 1; LFU.Get "A"; LFU.Put "B" 2; LFU.Put "C" 3; LFU.Purge;
            LFU.Put "A" 4]); [lia|lia|vm_compute; reflexivity].
Defined.

Lemma LFU_get_returns_last_written_witness :
  - 2 ^ 31 ≤ 2 < 2 ^ 31 ∧
  ∃ s, LFU.run [LFU.Put "A" 1; LFU.Put "A" 2; LFU.Put "B" 3; LFU.Purge; LFU.Put "B" 4]
         (LFU.LFUCache_new 2 10) = Some s ∧
    ∀ k d v s', LFU.get_ref k d s = Some (true, v, s') →
      LFU.written [LFU.Put "A" 1; LFU.Put "A" 2; LFU.Put "B" 3; LFU.Purge;
                   LFU.Put "B" 4] !! k = Some v.
Proof.
  split; [lia|].
  apply (LFU_get_returns_last_written (Key:=string) (Value:=Z) 2 10
           [LFU.Put "A" 1; LFU.Put "A" 2; LFU.Put "B" 3; LFU.Purge; LFU.Put "B" 4]).
  lia.
Defined.


Lemma LFU_access_counting_witness :
  1 ≤ 3 < 2 ^ 31 ∧
  Z.of_nat (length [LFU.Put "A" 1; LFU.Put "B" 2; LFU.Get "A"]) < 10 < 2 ^ 31 ∧
  ∃ s, LFU.run [LFU.Put "A" 1; LFU.Put "B" 2; LFU.Get "A"] (LFU.LFUCache_new 3 10)
       = Some s ∧
    (∀ k f d, LFU.freq_of s k = Some f →
       ∃ v s', LFU.get_ref k d s = Some (true, v, s') ∧
         LFU.freq_of s' k = Some (f + 1) ∧
         ∀ k', k' ≠ k → LFU.freq_of s' k' = LFU.freq_of s k') ∧
    (∀ k f v, LFU.freq_of s k = Some f →
       ∃ s', LFU.put k v s = Some s' ∧
         LFU.freq_of s' k = Some (f + 1) ∧
         ∀ k', k' ≠ k → LFU.freq_of s' k' = LFU.freq_of s k') ∧
    (∀ k v, LFU.freq_of s k = None → Z.of_nat (size (LFU.nodeMap_ s)) < 3 →
       ∃ s', LFU.put k v s = Some s' ∧
         LFU.freq_of s' k = Some 1 ∧
         ∀ k', k' ≠ k → LFU.freq_of s' k' = LFU.freq_of s k').
Proof.
  split; [lia|]. split; [cbn; lia|].
  apply (LFU_access_counting (Key:=string) (Value:=Z) 3 10
           [LFU.Put "A" 1; LFU.Put "B" 2; LFU.Get "A"]); [lia|cbn; lia].
Defined.

Lemma LRUK_threshold_one_put_then_get_witness :
  1 ≤ 2 < 2 ^ 31 ∧ - 2 ^ 31 ≤ 2 < 2 ^ 31 ∧ 1 ≤ 1 ∧
  Z.of_nat (length [LRUK.Get "A"; LRUK.Put "B" "y"; LRUK.Get "B"]) < 2 ^ 31 - 2 ∧
  ∃ s s1 s2,
    LRUK.run [LRUK.Get "A"; LRUK.Put "B" "y"; LRUK.Get "B"] (LRUK.LRUKCache_new 2 2 1)
      = Some s ∧
    LRUK.put "A" "x" s = Some s1 ∧ LRUK.get "A" s1 = Some ("x", s2).
Proof.
  split; [lia|]. split; [lia|]. split; [lia|]. split; [cbn; lia|].
  apply (LRUK_threshold_one_put_then_get (Key:=string) 2 2 1
           [LRUK.Get "A"; LRUK.Put "B" "y"; LRUK.Get "B"] "A" "x");
    [lia|lia|lia|cbn; lia].
Defined.


Lemma LRUK_put_below_threshold_does_not_admit_witness :
  - 2 ^ 31 ≤ 2 < 2 ^ 31 ∧ - 2 ^ 31 ≤ 2 < 2 ^ 31 ∧
  LRUK.run [LRUK.Put "A" "x"; LRUK.Get "B"] (LRUK.LRUKCache_new 2 2 3)
    ≫= LRUK.main_value "A" = None ∧
  (s ← LRUK.run [LRUK.Put "A" "x"; LRUK.Get "B"] (LRUK.LRUKCache_new 2 2 3);
   fst <$> LRUK.bumpHistory "A" (LRUK.historyList_ s)) = Some 2 ∧
  2 < 3 ∧
  ∃ s s', LRUK.run [LRUK.Put "A" "x"; LRUK.Get "B"] (LRUK.LRUKCache_new 2 2 3)
          = Some s ∧
    LRUK.put "A" "y" s = Some s' ∧ LRUK.main_value "A" s' = None ∧
    LRU.nodeMap_ (LRUK.base s') = LRU.nodeMap_ (LRUK.base s).
Proof.
  split; [lia|]. split; [lia|]. split; [vm_compute; reflexivity|].
  split; [vm_compute; reflexivity|]. split; [lia|].
  apply (LRUK_put_below_threshold_does_not_admit (Key:=string) 2 2 3
           [LRUK.Put "A" "x"; LRUK.Get "B"] "A" "y" 2);
    [lia|lia|vm_compute; reflexivity|vm_compute; reflexivity|lia].
Defined.

Lemma put_then_get_hits_witness :
  1 ≤ 2 < 2 ^ 31 ∧
  (∃ s outs, LRU.serve_all [LRU.ReqPut "B" 7; LRU.ReqGet "B"; LRU.ReqPut "A" 5;
                            LRU.ReqRemove "A"]
               (LRU.LRUCache_new 2) = Some (s, outs) ∧
     (∃ s1, LRU.put "A" 1 s = Some s1 ∧ (LRU.get_ref "A" 0 s1).1 = (true, 1)) ∧
     (∃ s1 s2, LRU.put "A" 2 s = Some s1 ∧ LRU.put "A" 3 s1 = Some s2 ∧
        (LRU.get_ref "A" 0 s2).1 = (true, 3))) ∧
  (∃ s, LFU.run [LFU.Put "B" 7; LFU.Get "B"; LFU.Purge] (LFU.LFUCache_new 2 10)
        = Some s ∧
     (∃ s1 s2, LFU.put "A" 1 s = Some s1 ∧
        LFU.get_ref "A" 0 s1 = Some (true, 1, s2)) ∧
     (∃ s1 s2 s3, LFU.put "A" 2 s = Some s1 ∧ LFU.put "A" 3 s1 = Some s2 ∧
        LFU.get_ref "A" 0 s2 = Some (true, 3, s3))).
Proof.
  split; [lia|].
  apply (put_then_get_hits (Key:=string) (Value:=Z) 2 10
           [LRU.ReqPut "B" 7; LRU.ReqGet "B"; LRU.ReqPut "A" 5; LRU.ReqRemove "A"]
           [LFU.Put "B" 7; LFU.Get "B"; LFU.Purge] "A" 1 2 3 0).
  lia.
Defined.

Lemma LFU_purge_keeps_aging_state_witness :
  (- 2 ^ 31 ≤ 2 < 2 ^ 31) ∧ 2 ≠ 0 ∧ 0 ≤ 3 < 2 ^ 31 ∧
  Z.of_nat (length [LFU.Put "A" 1; LFU.Get "A"; LFU.Get "A"]) < 2 ^ 31 - 2 ∧
  ∃ s, LFU.run [LFU.Put "A" 1; LFU.Get "A"; LFU.Get "A"] (LFU.LFUCache_new 2 3)
       = Some s ∧
    LFU.nodeMap_ (LFU.purge s) = ∅ ∧ LFU.freqToFreqList_ (LFU.purge s) = ∅ ∧
    LFU.curTotalNum_ (LFU.purge s) = LFU.curTotalNum_ s ∧
    LFU.curAverageNum_ (LFU.purge s) = LFU.curAverageNum_ s ∧
    LFU.minFreq_ (LFU.purge s) = LFU.minFreq_ s ∧
    LFU.maxAverageNum_ (LFU.purge s) = LFU.maxAverageNum_ s ∧
    LFU.capacity_ (LFU.purge s) = LFU.capacity_ s ∧
    LFU.get_ref "B" 0 (LFU.purge s) = Some (false, 0, LFU.purge s) ∧
    - Z.of_nat (length [LFU.Put "A" 1; LFU.Get "A"; LFU.Get "A"])
      ≤ LFU.curTotalNum_ s
      ≤ Z.of_nat (length [LFU.Put "A" 1; LFU.Get "A"; LFU.Get "A"]) ∧
    ∃ s1 s2, LFU.put "B" 2 (LFU.purge s) = Some s1 ∧
      LFU.curTotalNum_ s1 = LFU.curTotalNum_ s + 1 ∧
      LFU.freq_of s1 "B" = Some 1 ∧
      LFU.get_ref "B" 0 s1 = Some (true, 2, s2) ∧
      LFU.curTotalNum_ s2 = LFU.curTotalNum_ s + 2 ∧
      LFU.curAverageNum_ s2 = LFU.curTotalNum_ s + 2 ∧
      LFU.freq_of s2 "B"
      = Some (if decide (2 ≤ 3 ∧ 3 < LFU.curTotalNum_ s + 2) then 1 else 2).
Proof.
  split; [lia|]. split; [lia|]. split; [lia|]. split; [vm_compute; reflexivity|].
  apply (LFU_purge_keeps_aging_state (Key:=string) (Value:=Z) 2 3
           [LFU.Put "A" 1; LFU.Get "A"; LFU.Get "A"] "B" 2 0);
    [lia|lia|lia|vm_compute; reflexivity].
Defined.
